(** * Monte-Carlo portfolio simulator ([simulate-monte-carlo.ts])

    A shallow embedding of [simulateMonteCarlo] and of the helpers it is
    built from, followed by the properties of the engine.

    Numbers.  The source computes with IEEE-754 doubles.  Here a JS
    [number] is a real number ([R]); [Math.exp], [Math.log], [Math.sqrt],
    [Math.cos], [Math.pow] and [Math.PI] are the corresponding real
    functions, so every statement below is about the exact-arithmetic
    reading of the program: no rounding error, no overflow to an infinity
    and no [NaN].  The 32-bit integer mixing of the generator is kept exact
    on [Z].  Year counts are natural numbers (the interface documents them
    as integers that are at least 0); an optional field is an [option].

    Arrays.  The four [Float64Array]s of length [NUM_SIMULATIONS] indexed by
    the same [i] ([paths], [costBasis], [yearlyWithdrawals],
    [initialWithdrawalAmount]) are one list of rows, a row holding the four
    cells of one path. *)

From Stdlib Require Import Reals Lra Lia ZArith List Bool Permutation Sorted.
Import ListNotations.

Open Scope R_scope.

(** ** Constants *)

Definition NUM_SIMULATIONS : nat := 5000.
Definition SEED : Z := 42.

(** Modelled from the spec: [TAX_RATE] is imported from [./constants], which
    is not part of the sources at hand; the specification (and the text of
    the user interface) gives it as 20.315%. *)
Definition TAX_RATE : R := 20315 / 100000.

(** ** Numeric helpers of the host language *)

(** [Math.floor], [Math.ceil] and [Math.round] (round half up), as
    integers. *)
Definition js_floor (x : R) : Z := Int_part x.
Definition js_ceil (x : R) : Z := (- Int_part (- x))%Z.
Definition js_round (x : R) : Z := Int_part (x + 1 / 2).

(** Comparisons of numbers, as booleans. *)
Definition Rltb (x y : R) : bool := if Rlt_dec x y then true else false.
Definition Rleb (x y : R) : bool := if Rle_dec x y then true else false.

(** ** Deterministic generator *)

Module Generator.

Local Open Scope Z_scope.

(** [x >>> 0]: the unsigned 32-bit reading. *)
Definition toUint32 (x : Z) : Z := x mod 2 ^ 32.

(** [x | 0]: the signed 32-bit reading. *)
Definition toInt32 (x : Z) : Z :=
  let u := x mod 2 ^ 32 in
  if u <? 2 ^ 31 then u else u - 2 ^ 32.

Definition imul (a b : Z) : Z := toInt32 (toInt32 a * toInt32 b).
Definition ushr (a n : Z) : Z := Z.shiftr (toUint32 a) n.
Definition xor32 (a b : Z) : Z := toInt32 (Z.lxor (toInt32 a) (toInt32 b)).
Definition or32 (a b : Z) : Z := toInt32 (Z.lor (toInt32 a) (toInt32 b)).

(** The closure state [s] of [mulberry32(seed)]. *)
Definition mulberry32 (seed : Z) : Z := toInt32 seed.

(** One call of the closure: the new state and the 32 output bits. *)
Definition mulberry32_bits (s : Z) : Z * Z :=
  let s := toInt32 (s + 0x6d2b79f5) in
  let t := imul (xor32 s (ushr s 15)) (or32 1 s) in
  let t := xor32 (t + imul (xor32 t (ushr t 7)) (or32 61 t)) t in
  (s, toUint32 (xor32 t (ushr t 14))).

Local Open Scope R_scope.

(** One call of the closure: the uniform deviate and the new state. *)
Definition rng (s : Z) : R * Z :=
  let (s', bits) := mulberry32_bits s in
  (IZR bits / 4294967296, s').

(** Box-Muller transform; [u1 || 1e-10] replaces a zero [u1]. *)
Definition normalRandom (s : Z) : R * Z :=
  let (u1, s1) := rng s in
  let (u2, s2) := rng s1 in
  let u1' := if Req_dec_T u1 0 then 1 / 10000000000 else u1 in
  (sqrt (-2 * ln u1') * cos (2 * PI * u2), s2).

End Generator.

(** ** Data model *)

Record MonteCarloInput := {
  initialAmount : R;
  monthlyContribution : R;
  annualReturnRate : R;
  volatility : R;
  inflationRate : R;
  contributionYears : nat;
  withdrawalStartYear : nat;
  withdrawalYears : nat;
  taxFree : option bool;
  monthlyWithdrawal : option R;
  annualWithdrawalRate : option R;
  expenseRatio : option R;
  inflationAdjustedWithdrawal : option bool;
  monthlyPensionIncome : option R
}.

Record MonteCarloYearData := {
  year : nat;
  p10 : R;
  p25 : R;
  p50 : R;
  p75 : R;
  p90 : R;
  principal : R;
  isContributing : bool;
  isWithdrawing : bool;
  depletionRate : option R;
  medianYearlyWithdrawal : option R
}.

Record DistributionBin := {
  rangeEnd : R;
  count : nat;
  isDepleted : bool
}.

Record MonteCarloResult := {
  yearlyData : list MonteCarloYearData;
  failureProbability : R;
  depletionProbability : R;
  distribution : list DistributionBin
}.

(** Row [i] of the per-path buffers. *)
Record Path := {
  value : R;                   (* paths[i] *)
  basis : R;                   (* costBasis[i] *)
  yearlyW : R;                 (* yearlyWithdrawals[i] (rate mode only) *)
  initW : R                    (* initialWithdrawalAmount[i] (rate mode only) *)
}.

(** The variables the yearly loop mutates. *)
Record SimState := {
  st_rng : Z;
  st_rows : list Path;
  st_totalPrincipal : R;
  st_rateDeflationMultiplier : R;
  st_rateWithdrawalStarted : bool;
  st_currentMonthlyWithdrawal : R;
  st_sorted : list R;
  st_yearlyData : list MonteCarloYearData
}.

(** ** Values derived once per call *)

Section Derived.

Variable cfg : MonteCarloInput.

(** Destructuring defaults of the parameter object. *)
Definition monthlyWithdrawal0 : R :=
  match monthlyWithdrawal cfg with Some w => w | None => 0 end.
Definition expenseRatio0 : R :=
  match expenseRatio cfg with Some e => e | None => 0 end.
Definition inflationAdjusted0 : bool :=
  match inflationAdjustedWithdrawal cfg with Some b => b | None => false end.
Definition pension0 : R :=
  match monthlyPensionIncome cfg with Some p => p | None => 0 end.

Definition taxRate : R :=
  match taxFree cfg with Some true => 0 | _ => TAX_RATE end.
Definition mu : R := (annualReturnRate cfg - expenseRatio0) / 100.
Definition sigma : R := volatility cfg / 100.
Definition ri : R := inflationRate cfg / 100.
Definition monthlyDrift : R := (mu - ri - (sigma * sigma) / 2) / 12.
Definition monthlySigma : R := sigma / sqrt 12.

(** [annualWithdrawalRate != null && annualWithdrawalRate > 0]. *)
Definition isRateMode : bool :=
  match annualWithdrawalRate cfg with
  | Some r => Rltb 0 r
  | None => false
  end.

(** The rate read inside the rate-mode branch. *)
Definition rate0 : R :=
  match annualWithdrawalRate cfg with Some r => r | None => 0 end.

Definition monthlyInflationFactor : R :=
  if negb isRateMode && inflationAdjusted0 then Rpower (1 + ri) (1 / 12) else 1.

Definition monthlyNominalDeflator : R :=
  if isRateMode && Rltb 0 ri
  then 1 / Rpower (1 + ri) (1 / 12) else 1.

Definition totalYears : nat :=
  Nat.max (contributionYears cfg) (withdrawalStartYear cfg + withdrawalYears cfg).

(** Phase flags of simulated year [y]. *)
Definition contributingAt (y : nat) : bool := (y <=? contributionYears cfg)%nat.
Definition withdrawingAt (y : nat) : bool :=
  (withdrawalStartYear cfg <? y)%nat
  && (y <=? withdrawalStartYear cfg + withdrawalYears cfg)%nat.

End Derived.

(** ** Typed-array helpers *)

(** Number of cells of an array that pass a test (the counting loops). *)
Definition countIf {A : Type} (f : A -> bool) (l : list A) : nat :=
  length (filter f l).

(** [Float64Array.prototype.sort]: ascending numeric order. *)
Fixpoint insertF64 (x : R) (l : list R) : list R :=
  match l with
  | [] => [x]
  | y :: r => if Rle_dec x y then x :: l else y :: insertF64 x r
  end.

Definition sortF64 (l : list R) : list R := fold_right insertF64 [] l.

(** [Math.floor(NUM_SIMULATIONS * q)], the index of a percentile. *)
Definition pctIndex (q : R) : nat :=
  Z.to_nat (js_floor (INR NUM_SIMULATIONS * q)).

(** Reading cell [i]; every buffer has [NUM_SIMULATIONS] cells, the default
    is never reached by the indices the program uses. *)
Definition cell (a : list R) (i : nat) : R := nth i a 0.

(** ** Withdrawal and taxation of one path in one month *)

Record Withdrawal := {
  netWithdrawal : R;
  gainRatio : R;
  taxOnWithdrawal : R;
  withdrawalRatio : R;
  basisAfter : R;
  valueAfter : R
}.

Section Step.

Variable cfg : MonteCarloInput.

(** The body of [if (isWithdrawing && paths[i] > 0)], from
    [netWithdrawal] on: [v] and [b] are [paths[i]] and [costBasis[i]]
    before the withdrawal. *)
Definition withdrawal (baseWithdrawal v b : R) : Withdrawal :=
  let net := Rmax (baseWithdrawal - pension0 cfg) 0 in
  let gr := if Rlt_dec b v then (v - b) / v else 0 in
  let tax := net * gr * taxRate cfg in
  let wr := Rmin (net / v) 1 in
  let v' := v - net - tax in
  {| netWithdrawal := net;
     gainRatio := gr;
     taxOnWithdrawal := tax;
     withdrawalRatio := wr;
     basisAfter := b * (1 - wr);
     valueAfter := if Rlt_dec v' 0 then 0 else v' |}.

(** The amount locked in for a path in rate mode: set from the current
    value while the cell is still 0. *)
Definition lockIn (v : R) (p : Path) : R :=
  if Req_dec_T (initW p) 0 then v * rate0 cfg / 100 / 12 else initW p.

(** The body of the loop over [i] once the deviate [z] is drawn: growth,
    contribution, withdrawal. *)
Definition pathBody (isC isW : bool) (mult curW : R) (z : R) (p : Path) : Path :=
  let v1 := value p * exp (monthlyDrift cfg + monthlySigma cfg * z) in
  let v2 := if isC then v1 + monthlyContribution cfg else v1 in
  let b2 := if isC then basis p + monthlyContribution cfg else basis p in
  if isW && Rltb 0 v2 then
    if isRateMode cfg then
      let iw := lockIn v2 p in
      let w := withdrawal (iw * mult) v2 b2 in
      {| value := valueAfter w; basis := basisAfter w;
         yearlyW := yearlyW p + netWithdrawal w; initW := iw |}
    else
      let w := withdrawal curW v2 b2 in
      {| value := valueAfter w; basis := basisAfter w;
         yearlyW := yearlyW p; initW := initW p |}
  else
    {| value := v2; basis := b2; yearlyW := yearlyW p; initW := initW p |}.

(** One iteration of the loop over [i]. *)
Definition pathStep (isC isW : bool) (mult curW : R) (s : Z) (p : Path)
  : Path * Z :=
  let (z, s') := Generator.normalRandom s in
  (pathBody isC isW mult curW z p, s').

(** The loop over [i], threading the generator. *)
Fixpoint pathLoop (isC isW : bool) (mult curW : R) (s : Z) (rows : list Path)
  : list Path * Z :=
  match rows with
  | [] => ([], s)
  | p :: rest =>
      let (p', s1) := pathStep isC isW mult curW s p in
      let (rest', s2) := pathLoop isC isW mult curW s1 rest in
      (p' :: rest', s2)
  end.

(** One iteration of the loop over [month] in year [yr]. *)
Definition monthStep (yr : nat) (st : SimState) : SimState :=
  let isC := contributingAt cfg yr in
  let isW := withdrawingAt cfg yr in
  let curW :=
    if isW && negb (isRateMode cfg) && inflationAdjusted0 cfg
    then st_currentMonthlyWithdrawal st * monthlyInflationFactor cfg
    else st_currentMonthlyWithdrawal st in
  let mult :=
    if isW && isRateMode cfg && st_rateWithdrawalStarted st
    then st_rateDeflationMultiplier st * monthlyNominalDeflator cfg
    else st_rateDeflationMultiplier st in
  let started :=
    if isW && isRateMode cfg then true else st_rateWithdrawalStarted st in
  let (rows', s') := pathLoop isC isW mult curW (st_rng st) (st_rows st) in
  {| st_rng := s';
     st_rows := rows';
     st_totalPrincipal :=
       if isC then st_totalPrincipal st + monthlyContribution cfg
       else st_totalPrincipal st;
     st_rateDeflationMultiplier := mult;
     st_rateWithdrawalStarted := started;
     st_currentMonthlyWithdrawal := curW;
     st_sorted := st_sorted st;
     st_yearlyData := st_yearlyData st |}.

(** [if (yearlyWithdrawals) yearlyWithdrawals.fill(0)]. *)
Definition clearYearly (p : Path) : Path :=
  {| value := value p; basis := basis p; yearlyW := 0; initW := initW p |}.

Definition beginYear (st : SimState) : SimState :=
  {| st_rng := st_rng st;
     st_rows := if isRateMode cfg then map clearYearly (st_rows st) else st_rows st;
     st_totalPrincipal := st_totalPrincipal st;
     st_rateDeflationMultiplier := st_rateDeflationMultiplier st;
     st_rateWithdrawalStarted := st_rateWithdrawalStarted st;
     st_currentMonthlyWithdrawal := st_currentMonthlyWithdrawal st;
     st_sorted := st_sorted st;
     st_yearlyData := st_yearlyData st |}.

(** The record pushed at the end of year [yr]. *)
Definition snapshot (yr : nat) (rows : list Path) (sorted : list R)
           (totalPrincipal : R) : MonteCarloYearData :=
  let isW := withdrawingAt cfg yr in
  let yearDepletionCount :=
    if isW then countIf (fun p => Rleb (value p) 0) rows else 0%nat in
  let median :=
    if isW && isRateMode cfg
    then Some (IZR (js_round
                 (cell (sortF64 (map yearlyW rows)) (pctIndex (5 / 10)))))
    else None in
  {| year := yr;
     p10 := IZR (js_round (cell sorted (pctIndex (1 / 10))));
     p25 := IZR (js_round (cell sorted (pctIndex (25 / 100))));
     p50 := IZR (js_round (cell sorted (pctIndex (5 / 10))));
     p75 := IZR (js_round (cell sorted (pctIndex (75 / 100))));
     p90 := IZR (js_round (cell sorted (pctIndex (9 / 10))));
     principal :=
       IZR (js_round (Rmin totalPrincipal (cell sorted (pctIndex (5 / 10)))));
     isContributing := contributingAt cfg yr;
     isWithdrawing := isW;
     depletionRate :=
       if isW then Some (INR yearDepletionCount / INR NUM_SIMULATIONS)
       else None;
     medianYearlyWithdrawal := median |}.

(** The code after the month loop: sort a copy of the paths and push the
    year's record. *)
Definition endYear (yr : nat) (st : SimState) : SimState :=
  let sorted := sortF64 (map value (st_rows st)) in
  {| st_rng := st_rng st;
     st_rows := st_rows st;
     st_totalPrincipal := st_totalPrincipal st;
     st_rateDeflationMultiplier := st_rateDeflationMultiplier st;
     st_rateWithdrawalStarted := st_rateWithdrawalStarted st;
     st_currentMonthlyWithdrawal := st_currentMonthlyWithdrawal st;
     st_sorted := sorted;
     st_yearlyData :=
       st_yearlyData st
         ++ [snapshot yr (st_rows st) sorted (st_totalPrincipal st)] |}.

(** The state after [m] iterations of the month loop of year [yr]. *)
Definition monthsOfYear (yr m : nat) (st : SimState) : SimState :=
  Nat.iter m (monthStep yr) (beginYear st).

(** One iteration of the loop over [year]. *)
Definition yearStep (yr : nat) (st : SimState) : SimState :=
  endYear yr (monthsOfYear yr 12 st).

Definition year0 : MonteCarloYearData :=
  {| year := 0;
     p10 := initialAmount cfg;
     p25 := initialAmount cfg;
     p50 := initialAmount cfg;
     p75 := initialAmount cfg;
     p90 := initialAmount cfg;
     principal := initialAmount cfg;
     isContributing := false;
     isWithdrawing := false;
     depletionRate := None;
     medianYearlyWithdrawal := None |}.

Definition initPath : Path :=
  {| value := initialAmount cfg; basis := initialAmount cfg;
     yearlyW := 0; initW := 0 |}.

(** The variables as they stand when the loop over [year] is entered. *)
Definition initState : SimState :=
  {| st_rng := Generator.mulberry32 SEED;
     st_rows := repeat initPath NUM_SIMULATIONS;
     st_totalPrincipal := initialAmount cfg;
     st_rateDeflationMultiplier := 1;
     st_rateWithdrawalStarted := false;
     st_currentMonthlyWithdrawal := monthlyWithdrawal0 cfg;
     st_sorted := repeat 0 NUM_SIMULATIONS;
     st_yearlyData := [year0] |}.

(** The state after the first [n] iterations of the loop over [year]. *)
Definition runYears (n : nat) : SimState :=
  fold_left (fun st yr => yearStep yr st) (seq 1 n) initState.

End Step.

(** ** Terminal histogram *)

Definition NUM_MAIN_BINS : Z := 10.
Definition MAX_TAIL_BINS : Z := 5.

(** [binCounts[idx]++].  An index outside the array would leave every
    existing count as it is (the host language would add a new property);
    [binIndex_in_range] shows the program never does that. *)
Fixpoint incrAt (idx : nat) (counts : list nat) : list nat :=
  match counts, idx with
  | [], _ => []
  | c :: r, O => S c :: r
  | c :: r, S k => c :: incrAt k r
  end.

(** [Math.min(Math.floor(x / binWidth), neededBins - 1)]. *)
Definition binIndex (binWidth : R) (neededBins : Z) (x : R) : Z :=
  Z.min (js_floor (x / binWidth)) (neededBins - 1).

(** The loop that fills [binCounts] from the sorted values. *)
Definition fillBins (binWidth : R) (neededBins : Z) (sorted : list R)
  : list nat :=
  fold_left
    (fun counts x =>
       if Rltb 0 x
       then incrAt (Z.to_nat (binIndex binWidth neededBins x)) counts
       else counts)
    sorted (repeat 0%nat (Z.to_nat neededBins)).

Definition buildDistribution (sorted : list R) : list DistributionBin :=
  let p90Val := cell sorted (pctIndex (9 / 10)) in
  let maxVal := cell sorted (NUM_SIMULATIONS - 1) in
  let depletedCnt := countIf (fun x => Rleb x 0) sorted in
  let depleted :=
    if (0 <? depletedCnt)%nat
    then [ {| rangeEnd := 0; count := depletedCnt; isDepleted := true |} ]
    else [] in
  if Rltb 0 maxVal then
    let binWidth := Rmax p90Val 1 / IZR NUM_MAIN_BINS in
    let maxBins := (NUM_MAIN_BINS + MAX_TAIL_BINS)%Z in
    let neededBins := Z.min (js_ceil (maxVal / binWidth)) maxBins in
    let binCounts := fillBins binWidth neededBins sorted in
    depleted
      ++ map (fun b =>
                {| rangeEnd := IZR (js_round (INR (b + 1) * binWidth));
                   count := nth b binCounts 0%nat;
                   isDepleted := false |})
             (seq 0 (Z.to_nat neededBins))
  else depleted.

(** ** The simulator *)

(** [yearlyData.at(-1)?.depletionRate ?? 0]. *)
Definition lastDepletionRate (ys : list MonteCarloYearData) : R :=
  match rev ys with
  | d :: _ => match depletionRate d with Some r => r | None => 0 end
  | [] => 0
  end.

Definition simulateMonteCarlo (cfg : MonteCarloInput) : MonteCarloResult :=
  let st := runYears cfg (totalYears cfg) in
  let failureCount :=
    countIf (fun p => Rltb (value p) (st_totalPrincipal st)) (st_rows st) in
  {| yearlyData := st_yearlyData st;
     failureProbability := INR failureCount / INR NUM_SIMULATIONS;
     depletionProbability := lastDepletionRate (st_yearlyData st);
     distribution := buildDistribution (st_sorted st) |}.

(** ** Observation points of a run *)

Section Observations.

Variable cfg : MonteCarloInput.

(** The state when the month loop of year [y] has run [m] times. *)
Definition atMonth (y m : nat) : SimState :=
  monthsOfYear cfg y m (runYears cfg (pred y)).

(** The state at the end of the month loop of year [y]. *)
Definition yearEnd (y : nat) : SimState := atMonth y 12.

(** The record pushed for year [y]. *)
Definition yearSnapshot (y : nat) : MonteCarloYearData :=
  snapshot cfg y (st_rows (yearEnd y))
           (sortF64 (map value (st_rows (yearEnd y))))
           (st_totalPrincipal (yearEnd y)).

End Observations.

(** The state when the loop over [year] has finished. *)
Definition finalState (cfg : MonteCarloInput) : SimState :=
  runYears cfg (totalYears cfg).

(** Sum of the counts of a list of bins. *)
Definition totalCount (bins : list DistributionBin) : nat :=
  list_sum (map count bins).

(** ** Sample inputs *)

(** Nothing invested, nothing contributed, withdrawals wanted from the
    first year on. *)
Definition emptyPortfolio : MonteCarloInput :=
  {| initialAmount := 0;
     monthlyContribution := 0;
     annualReturnRate := 5;
     volatility := 15;
     inflationRate := 2;
     contributionYears := 0;
     withdrawalStartYear := 0;
     withdrawalYears := 10;
     taxFree := None;
     monthlyWithdrawal := Some 100000;
     annualWithdrawalRate := None;
     expenseRatio := None;
     inflationAdjustedWithdrawal := None;
     monthlyPensionIncome := None |}.

(** Both withdrawal-mode fields are filled in, the rate with 0. *)
Definition bothModes : MonteCarloInput :=
  {| initialAmount := 10000000;
     monthlyContribution := 0;
     annualReturnRate := 5;
     volatility := 15;
     inflationRate := 2;
     contributionYears := 0;
     withdrawalStartYear := 0;
     withdrawalYears := 10;
     taxFree := None;
     monthlyWithdrawal := Some 100000;
     annualWithdrawalRate := Some 0;
     expenseRatio := None;
     inflationAdjustedWithdrawal := None;
     monthlyPensionIncome := None |}.

(** A steady market whose return (1%) is below inflation (2%): the real
    growth factor of every month is below 1. *)
Definition losingMarket : MonteCarloInput :=
  {| initialAmount := 1000000;
     monthlyContribution := 0;
     annualReturnRate := 1;
     volatility := 0;
     inflationRate := 2;
     contributionYears := 5;
     withdrawalStartYear := 5;
     withdrawalYears := 0;
     taxFree := None;
     monthlyWithdrawal := None;
     annualWithdrawalRate := None;
     expenseRatio := None;
     inflationAdjustedWithdrawal := None;
     monthlyPensionIncome := None |}.

(** The configuration of the test "should deflate withdrawal in real terms
    with positive inflation": rate mode at 4%, inflation 3%, no volatility,
    withdrawals from the first year on for 20 years. *)
Definition deflatingWithdrawal : MonteCarloInput :=
  {| initialAmount := 10000000;
     monthlyContribution := 0;
     annualReturnRate := 5;
     volatility := 0;
     inflationRate := 3;
     contributionYears := 0;
     withdrawalStartYear := 0;
     withdrawalYears := 20;
     taxFree := None;
     monthlyWithdrawal := None;
     annualWithdrawalRate := Some 4;
     expenseRatio := None;
     inflationAdjustedWithdrawal := None;
     monthlyPensionIncome := None |}.

(** ** Auxiliary notions for the statements and proofs *)

(** [{ ...cfg, monthlyWithdrawal: w }]. *)
Definition withMonthlyWithdrawal (w : option R) (cfg : MonteCarloInput)
  : MonteCarloInput :=
  {| initialAmount := initialAmount cfg;
     monthlyContribution := monthlyContribution cfg;
     annualReturnRate := annualReturnRate cfg;
     volatility := volatility cfg;
     inflationRate := inflationRate cfg;
     contributionYears := contributionYears cfg;
     withdrawalStartYear := withdrawalStartYear cfg;
     withdrawalYears := withdrawalYears cfg;
     taxFree := taxFree cfg;
     monthlyWithdrawal := w;
     annualWithdrawalRate := annualWithdrawalRate cfg;
     expenseRatio := expenseRatio cfg;
     inflationAdjustedWithdrawal := inflationAdjustedWithdrawal cfg;
     monthlyPensionIncome := monthlyPensionIncome cfg |}.

(** Two states that agree on everything but the running fixed amount. *)
Definition sameButFixedAmount (a b : SimState) : Prop :=
  st_rng a = st_rng b
  /\ st_rows a = st_rows b
  /\ st_totalPrincipal a = st_totalPrincipal b
  /\ st_rateDeflationMultiplier a = st_rateDeflationMultiplier b
  /\ st_rateWithdrawalStarted a = st_rateWithdrawalStarted b
  /\ st_sorted a = st_sorted b
  /\ st_yearlyData a = st_yearlyData b.

(** The cost basis of every path stays between 0 and the principal
    contributed so far. *)
Definition basisWithinPrincipal (st : SimState) : Prop :=
  Forall (fun p => 0 <= basis p <= st_totalPrincipal st) (st_rows st).

(** Without volatility every path grows by the same factor each month, and
    in rate mode every path that starts withdrawing in the first month locks
    in the same amount. *)
Definition steadyGrowth (cfg : MonteCarloInput) : R :=
  exp ((mu cfg - ri cfg) / 12).

Definition steadyLockIn (cfg : MonteCarloInput) : R :=
  initialAmount cfg * steadyGrowth cfg * rate0 cfg / 100 / 12.

(** The rate-mode clock after [k >= 1] withdrawing months: the deflation
    has started and has been applied [k - 1] times. *)
Definition rateClock (cfg : MonteCarloInput) (k : nat) (st : SimState) : Prop :=
  st_rateWithdrawalStarted st = true
  /\ st_rateDeflationMultiplier st = monthlyNominalDeflator cfg ^ (k - 1).

(** A run without any simulated year. *)
Definition noYears : MonteCarloInput :=
  {| initialAmount := 1000000;
     monthlyContribution := 50000;
     annualReturnRate := 5;
     volatility := 15;
     inflationRate := 2;
     contributionYears := 0;
     withdrawalStartYear := 0;
     withdrawalYears := 0;
     taxFree := None;
     monthlyWithdrawal := None;
     annualWithdrawalRate := None;
     expenseRatio := None;
     inflationAdjustedWithdrawal := None;
     monthlyPensionIncome := None |}.

(** A steady market whose return equals inflation: no real growth, no
    contribution, no withdrawal. *)
Definition flatMarket : MonteCarloInput :=
  {| initialAmount := 1000000;
     monthlyContribution := 0;
     annualReturnRate := 2;
     volatility := 0;
     inflationRate := 2;
     contributionYears := 5;
     withdrawalStartYear := 5;
     withdrawalYears := 0;
     taxFree := None;
     monthlyWithdrawal := None;
     annualWithdrawalRate := None;
     expenseRatio := None;
     inflationAdjustedWithdrawal := None;
     monthlyPensionIncome := None |}.

(** A path that is empty in the first state is empty in the second. *)
Definition staysDepleted (p q : Path) : Prop := value p = 0 -> value q = 0.

(** ** Timeline of the phases ([buildTimelineSegments], simulator view) *)

Module Timeline.

Inductive PhaseType := contribution | idle | withdrawal | overlap.

(** [last.type === type]. *)
Definition PhaseType_eqb (a b : PhaseType) : bool :=
  match a, b with
  | contribution, contribution => true
  | idle, idle => true
  | withdrawal, withdrawal => true
  | overlap, overlap => true
  | _, _ => false
  end.

(** A segment [{ type, start, end }]; [end] is written [end_]. *)
Record Segment := {
  type : PhaseType;
  start : nat;
  end_ : nat
}.

(** The classification of slot [y] in the body of the loop. *)
Definition phaseAt (contributionYears withdrawalStartYear withdrawalYears : nat)
           (y : nat) : PhaseType :=
  let withdrawalEnd := (withdrawalStartYear + withdrawalYears)%nat in
  let isContrib := (y <? contributionYears)%nat in
  let isWithdraw :=
    (0 <? withdrawalYears)%nat && (withdrawalStartYear <=? y)%nat
    && (y <? withdrawalEnd)%nat in
  if isContrib && isWithdraw then overlap
  else if isContrib then contribution
  else if isWithdraw then withdrawal
  else idle.

(** The end of the loop body: the last segment is extended in place when it
    has the same type, otherwise a new segment is pushed. *)
Fixpoint pushYear (segments : list Segment) (t : PhaseType) (y : nat)
  : list Segment :=
  match segments with
  | [] => [ {| type := t; start := y; end_ := y + 1 |} ]
  | [last] =>
      if PhaseType_eqb (type last) t
      then [ {| type := type last; start := start last; end_ := y + 1 |} ]
      else [ last; {| type := t; start := y; end_ := y + 1 |} ]
  | s :: rest => s :: pushYear rest t y
  end.

(** The segments after the first [n] iterations of the loop over [y]. *)
Definition segmentsUpTo (contributionYears withdrawalStartYear withdrawalYears : nat)
           (n : nat) : list Segment :=
  fold_left
    (fun segments y =>
       pushYear segments
                (phaseAt contributionYears withdrawalStartYear withdrawalYears y)
                y)
    (seq 0 n) [].

Definition buildTimelineSegments
           (contributionYears withdrawalStartYear withdrawalYears : nat)
  : list Segment :=
  let withdrawalEnd := (withdrawalStartYear + withdrawalYears)%nat in
  let totalYears := Nat.max contributionYears withdrawalEnd in
  segmentsUpTo contributionYears withdrawalStartYear withdrawalYears totalYears.

(** The segments follow one another without gap from [from] to [to], and
    none is empty. *)
Fixpoint tiles (from : nat) (segments : list Segment) (to : nat) : Prop :=
  match segments with
  | [] => from = to
  | s :: rest =>
      start s = from /\ (start s < end_ s)%nat /\ tiles (end_ s) rest to
  end.

(** Neighbouring segments have different types. *)
Fixpoint alternating (segments : list Segment) : Prop :=
  match segments with
  | s :: ((s' :: _) as rest) => type s <> type s' /\ alternating rest
  | _ => True
  end.

End Timeline.

(** ** The draggable timeline bar ([InteractiveTimelineBar], simulator view) *)

Module TimelineBar.

Definition displayMax : Z := 70.

(** The bounding rectangle of the bar, as far as the handlers read it. *)
Record Rect := {
  left : R;
  width : R
}.

Inductive DragHandle := contribution | withdrawalStart | withdrawalEnd.

(** The three years the bar shows and edits through its callbacks. *)
Record Years := {
  contributionYears : Z;
  withdrawalStartYear : Z;
  withdrawalYears : Z
}.

(** [getYearFromClientX]; [bar] is [None] while the bar is not mounted.
    The quotient and the product are the real ones: the model stands for a
    rectangle of positive width (with a width of 0 the source divides by
    zero), and where the exact product is at or next to a half the doubles
    of the source can round to the neighbouring year. *)
Definition getYearFromClientX (bar : option Rect) (clientX : R) : Z :=
  match bar with
  | None => 0
  | Some rect =>
      let ratio := Rmax 0 (Rmin 1 ((clientX - left rect) / width rect)) in
      js_round (ratio * IZR displayMax)
  end.

Definition handles (st : Years) : list (DragHandle * Z) :=
  [ (contribution, contributionYears st);
    (withdrawalStart, withdrawalStartYear st);
    (withdrawalEnd, (withdrawalStartYear st + withdrawalYears st)%Z) ].

(** The search loop of [handlePointerDown], started from [handles[0]]. *)
Definition closestHandle (st : Years) (year : Z) : DragHandle * Z :=
  fold_left
    (fun closest h =>
       if (Z.abs (year - snd h) <? Z.abs (year - snd closest))%Z
       then h else closest)
    (handles st)
    (contribution, contributionYears st).

(** [handlePointerDown]: the new content of [draggingRef]. *)
Definition handlePointerDown (bar : option Rect) (clientX : R) (st : Years)
           (dragging : option DragHandle) : option DragHandle :=
  match bar with
  | None => dragging
  | Some _ => Some (fst (closestHandle st (getYearFromClientX bar clientX)))
  end.

(** [handlePointerMove]: the years after the callback of the dragged handle
    has run. *)
Definition handlePointerMove (bar : option Rect) (dragging : option DragHandle)
           (clientX : R) (st : Years) : Years :=
  match dragging with
  | None => st
  | Some h =>
      let year := getYearFromClientX bar clientX in
      match h with
      | contribution =>
          {| contributionYears := Z.max 0 (Z.min displayMax year);
             withdrawalStartYear := withdrawalStartYear st;
             withdrawalYears := withdrawalYears st |}
      | withdrawalStart =>
          {| contributionYears := contributionYears st;
             withdrawalStartYear := Z.max 0 (Z.min (displayMax - 5) year);
             withdrawalYears := withdrawalYears st |}
      | withdrawalEnd =>
          let newYears := (year - withdrawalStartYear st)%Z in
          {| contributionYears := contributionYears st;
             withdrawalStartYear := withdrawalStartYear st;
             withdrawalYears :=
               Z.max 5 (Z.min (displayMax - withdrawalStartYear st) newYears) |}
      end
  end.

End TimelineBar.

(** ** The histogram of the simulator view *)

Module HistogramView.

(** [distribution.filter((b) => b.count > 0)]. *)
Definition bins (distribution : list DistributionBin) : list DistributionBin :=
  filter (fun b => (0 <? count b)%nat) distribution.

(** [Math.max(...bins.map((b) => b.count))]; [None] stands for the
    [-Infinity] of an empty list. *)
Definition maxCount (bins : list DistributionBin) : option nat :=
  match bins with
  | [] => None
  | b :: rest => Some (fold_left Nat.max (map count rest) (count b))
  end.

(** The width of a bar, in percent:
    [maxCount > 0 ? (bin.count / maxCount) * 100 : 0]. *)
Definition barWidth (maxCount : option nat) (bin : DistributionBin) : R :=
  match maxCount with
  | Some m => if (0 <? m)%nat then INR (count bin) / INR m * 100 else 0
  | None => 0
  end.

(** [pct = (bin.count / 5000) * 100] and the three forms of its label. *)
Definition pct (bin : DistributionBin) : R := INR (count bin) / 5000 * 100.

Inductive PctLabel :=
| wholePercent (p : R)
| belowOnePercent
| zeroPercent.

Definition pctLabel (bin : DistributionBin) : PctLabel :=
  if Rleb 1 (pct bin) then wholePercent (pct bin)
  else if Rltb 0 (pct bin) then belowOnePercent
  else zeroPercent.

(** The search loop for the highlighted bin, from index [idx] on; [prev] is
    [bins[idx - 1]] and the result is -1 when the loop ends without
    [break]. *)
Fixpoint searchActive (bins : list DistributionBin) (prev : option DistributionBin)
         (idx : Z) (selectedVal : R) : Z :=
  match bins with
  | [] => -1
  | b :: rest =>
      if isDepleted b && Rleb selectedVal 0 then idx
      else
        let prevEnd :=
          match prev with
          | Some p => if negb (isDepleted p) then rangeEnd p else 0
          | None => 0
          end in
        if negb (isDepleted b)
           && (Rltb prevEnd selectedVal && Rleb selectedVal (rangeEnd b))
        then idx
        else searchActive rest (Some b) (idx + 1) selectedVal
  end.

Definition activeBinIdx (bins : list DistributionBin) (selectedVal : R) : Z :=
  let found := searchActive bins None 0 selectedVal in
  if (found =? -1)%Z && (0 <? length bins)%nat
  then (Z.of_nat (length bins) - 1)%Z
  else found.

End HistogramView.

(** The six values of [deflatingWithdrawal] with nothing invested (the
    initial amount the simulator view starts from). *)
Definition unfundedWithdrawal : MonteCarloInput :=
  {| initialAmount := 0;
     monthlyContribution := 0;
     annualReturnRate := 5;
     volatility := 0;
     inflationRate := 3;
     contributionYears := 0;
     withdrawalStartYear := 0;
     withdrawalYears := 20;
     taxFree := None;
     monthlyWithdrawal := None;
     annualWithdrawalRate := Some 4;
     expenseRatio := None;
     inflationAdjustedWithdrawal := None;
     monthlyPensionIncome := None |}.

(** * Properties *)

(** ** Generator *)

(** The first two draws for the seed 42: 2581720956 / 2^32 = 0.60110375...
    and 1925393290 / 2^32 = 0.44829055... *)
Example mulberry32_first :
  Generator.mulberry32_bits (Generator.mulberry32 SEED)
  = (1831565855, 2581720956)%Z.
Proof. vm_compute. reflexivity. Qed.

Example mulberry32_second :
  Generator.mulberry32_bits 1831565855 = (-631835628, 1925393290)%Z.
Proof. vm_compute. reflexivity. Qed.

Lemma toUint32_range (x : Z) : (0 <= Generator.toUint32 x < 2 ^ 32)%Z.
Proof. unfold Generator.toUint32. apply Z.mod_pos_bound. reflexivity. Qed.

Lemma mulberry32_bits_range (s : Z) :
  (0 <= snd (Generator.mulberry32_bits s) < 2 ^ 32)%Z.
Proof. unfold Generator.mulberry32_bits. apply toUint32_range. Qed.

(** Every uniform deviate lies in [0, 1). *)
Lemma rng_range (s : Z) : 0 <= fst (Generator.rng s) < 1.
Proof.
  unfold Generator.rng.
  pose proof (mulberry32_bits_range s) as [H0 H1].
  destruct (Generator.mulberry32_bits s) as [s' bits]. cbn [fst snd] in *.
  apply IZR_le in H0. apply IZR_lt in H1.
  change (IZR (2 ^ 32)) with 4294967296 in H1.
  split.
  - apply Rmult_le_pos; [exact H0|].
    left. apply Rinv_0_lt_compat. lra.
  - apply Rmult_lt_reg_r with 4294967296; [lra|].
    unfold Rdiv. rewrite Rmult_assoc, Rinv_l by lra. lra.
Qed.

(** ** Phase flags on the sample inputs *)

Example totalYears_deflatingWithdrawal : totalYears deflatingWithdrawal = 20%nat.
Proof. reflexivity. Qed.

Example totalYears_losingMarket : totalYears losingMarket = 5%nat.
Proof. reflexivity. Qed.

Example phases_losingMarket :
  contributingAt losingMarket 5 = true
  /\ contributingAt losingMarket 6 = false
  /\ withdrawingAt losingMarket 5 = false.
Proof. repeat split. Qed.

Example phases_deflatingWithdrawal :
  withdrawingAt deflatingWithdrawal 1 = true
  /\ withdrawingAt deflatingWithdrawal 20 = true
  /\ withdrawingAt deflatingWithdrawal 21 = false
  /\ contributingAt deflatingWithdrawal 1 = false.
Proof. repeat split. Qed.

Example incrAt_middle : incrAt 1 [0; 0; 0]%nat = [0; 1; 0]%nat.
Proof. reflexivity. Qed.

Example incrAt_outside : incrAt 3 [0; 0; 0]%nat = [0; 0; 0]%nat.
Proof. reflexivity. Qed.

(** ** The loop over the years *)

Section YearLoop.

Variable cfg : MonteCarloInput.

Lemma runYears_0 : runYears cfg 0 = initState cfg.
Proof. reflexivity. Qed.

Lemma runYears_S (n : nat) :
  runYears cfg (S n) = yearStep cfg (S n) (runYears cfg n).
Proof.
  unfold runYears. rewrite seq_S, fold_left_app. reflexivity.
Qed.

Lemma monthStep_yearlyData (yr : nat) (st : SimState) :
  st_yearlyData (monthStep cfg yr st) = st_yearlyData st.
Proof.
  unfold monthStep. destruct (pathLoop _ _ _ _ _ _ _). reflexivity.
Qed.

Lemma monthStep_sorted (yr : nat) (st : SimState) :
  st_sorted (monthStep cfg yr st) = st_sorted st.
Proof.
  unfold monthStep. destruct (pathLoop _ _ _ _ _ _ _). reflexivity.
Qed.

Lemma monthsOfYear_0 (yr : nat) (st : SimState) :
  monthsOfYear cfg yr 0 st = beginYear cfg st.
Proof. reflexivity. Qed.

Lemma monthsOfYear_S (yr m : nat) (st : SimState) :
  monthsOfYear cfg yr (S m) st = monthStep cfg yr (monthsOfYear cfg yr m st).
Proof. reflexivity. Qed.

Lemma monthsOfYear_yearlyData (yr m : nat) (st : SimState) :
  st_yearlyData (monthsOfYear cfg yr m st) = st_yearlyData st.
Proof.
  unfold monthsOfYear. induction m as [|m IH]; simpl.
  - reflexivity.
  - rewrite monthStep_yearlyData. exact IH.
Qed.

(** Each year appends exactly one record. *)
Lemma yearStep_yearlyData (yr : nat) (st : SimState) :
  let m := monthsOfYear cfg yr 12 st in
  st_yearlyData (yearStep cfg yr st)
  = st_yearlyData st
      ++ [snapshot cfg yr (st_rows m) (sortF64 (map value (st_rows m)))
                   (st_totalPrincipal m)].
Proof.
  unfold yearStep, endYear. cbn [st_yearlyData].
  rewrite monthsOfYear_yearlyData. reflexivity.
Qed.

(** The yearly records of a run: the record of year 0, then one record per
    simulated year, in order. *)
Lemma runYears_yearlyData (n : nat) :
  st_yearlyData (runYears cfg n)
  = year0 cfg :: map (yearSnapshot cfg) (seq 1 n).
Proof.
  induction n as [|n IH].
  - reflexivity.
  - rewrite runYears_S, yearStep_yearlyData, IH.
    rewrite seq_S, map_app. cbn [map Nat.add app].
    unfold yearSnapshot, yearEnd, atMonth. cbn [pred].
    rewrite app_comm_cons. reflexivity.
Qed.

Lemma runYears_length (n : nat) :
  length (st_yearlyData (runYears cfg n)) = S n.
Proof.
  rewrite runYears_yearlyData. cbn [length].
  rewrite length_map, length_seq. reflexivity.
Qed.

Lemma runYears_head (n : nat) :
  nth_error (st_yearlyData (runYears cfg n)) 0 = Some (year0 cfg).
Proof. rewrite runYears_yearlyData. reflexivity. Qed.

(** The record of year [y >= 1] is the one pushed by iteration [y]. *)
Lemma runYears_nth (n y : nat) :
  (1 <= y <= n)%nat ->
  nth_error (st_yearlyData (runYears cfg n)) y = Some (yearSnapshot cfg y).
Proof.
  intros Hy. rewrite runYears_yearlyData.
  destruct y as [|y]; [lia|]. cbn [nth_error].
  rewrite nth_error_map, nth_error_seq.
  destruct (Nat.ltb_spec y n) as [_|Hge]; [|lia].
  reflexivity.
Qed.

(** Every record of the result is the record of year 0 or one pushed by
    the loop. *)
Lemma runYears_In (n : nat) (d : MonteCarloYearData) :
  In d (st_yearlyData (runYears cfg n)) ->
  d = year0 cfg \/ exists y, (1 <= y <= n)%nat /\ d = yearSnapshot cfg y.
Proof.
  rewrite runYears_yearlyData. intros [<-|H]; [left; reflexivity|].
  apply in_map_iff in H. destruct H as (y & <- & Hy).
  apply in_seq in Hy. right. exists y. split; [lia|reflexivity].
Qed.

End YearLoop.

(** ** Phase scheduler *)

(** C4.  [totalYears] is the larger of [contributionYears] and
    [withdrawalStartYear + withdrawalYears]; the result holds exactly
    [totalYears + 1] yearly records, the record at position [y] being the one
    of year [y]; and for every year [y] from 1 to [totalYears] the record is
    flagged contributing exactly when [y <= contributionYears] and
    withdrawing exactly when
    [withdrawalStartYear < y <= withdrawalStartYear + withdrawalYears]. *)
Theorem C4_phase_schedule (cfg : MonteCarloInput) :
  totalYears cfg
  = Nat.max (contributionYears cfg) (withdrawalStartYear cfg + withdrawalYears cfg)
  /\ length (yearlyData (simulateMonteCarlo cfg)) = S (totalYears cfg)
  /\ (forall y : nat,
        (y <= totalYears cfg)%nat ->
        exists d,
          nth_error (yearlyData (simulateMonteCarlo cfg)) y = Some d
          /\ year d = y)
  /\ (forall (y : nat) (d : MonteCarloYearData),
        (1 <= y <= totalYears cfg)%nat ->
        nth_error (yearlyData (simulateMonteCarlo cfg)) y = Some d ->
        (isContributing d = true <-> (y <= contributionYears cfg)%nat)
        /\ (isWithdrawing d = true
            <-> (withdrawalStartYear cfg < y
                 <= withdrawalStartYear cfg + withdrawalYears cfg)%nat)).
Proof.
  split; [reflexivity|].
  split; [apply runYears_length|].
  split.
  - intros y Hy. simpl.
    destruct y as [|y].
    + exists (year0 cfg). split; [apply runYears_head|reflexivity].
    + eexists. split; [apply runYears_nth; lia|reflexivity].
  - intros y d Hy Hd. cbn [yearlyData simulateMonteCarlo] in Hd.
    rewrite (runYears_nth cfg (totalYears cfg) y Hy) in Hd.
    injection Hd as <-. cbn [isContributing isWithdrawing yearSnapshot snapshot].
    unfold contributingAt, withdrawingAt.
    rewrite andb_true_iff, Nat.leb_le, Nat.ltb_lt, Nat.leb_le.
    split; reflexivity.
Qed.

Lemma lastDepletionRate_none (ys : list MonteCarloYearData) :
  Forall (fun d => depletionRate d = None) ys -> lastDepletionRate ys = 0.
Proof.
  intros H. unfold lastDepletionRate.
  destruct (rev ys) as [|d r] eqn:E; [reflexivity|].
  assert (Hd : In d ys) by (apply in_rev; rewrite E; left; reflexivity).
  rewrite Forall_forall in H. rewrite (H d Hd). reflexivity.
Qed.

(** C10.  The first yearly record is the record of year 0: its five
    percentiles and its principal are [initialAmount], both phase flags are
    off whatever the configured phases are, and it carries neither a
    depletion rate nor a median yearly withdrawal. *)
Theorem C10_year0_snapshot (cfg : MonteCarloInput) :
  exists d rest,
    yearlyData (simulateMonteCarlo cfg) = d :: rest
    /\ year d = 0%nat
    /\ p10 d = initialAmount cfg
    /\ p25 d = initialAmount cfg
    /\ p50 d = initialAmount cfg
    /\ p75 d = initialAmount cfg
    /\ p90 d = initialAmount cfg
    /\ principal d = initialAmount cfg
    /\ isContributing d = false
    /\ isWithdrawing d = false
    /\ depletionRate d = None
    /\ medianYearlyWithdrawal d = None.
Proof.
  pose proof (runYears_head cfg (totalYears cfg)) as H.
  cbn [yearlyData simulateMonteCarlo].
  destruct (st_yearlyData (runYears cfg (totalYears cfg))) as [|d rest];
    [discriminate|].
  injection H as ->.
  exists (year0 cfg), rest. repeat split.
Qed.

(** ** Runs without a withdrawal phase *)

(** C7.  With [withdrawalYears = 0] the reported depletion probability is 0
    and no yearly record carries a depletion rate.  ([simulateMonteCarlo] is
    a total function: it returns a result for every input.) *)
Theorem C7_no_withdrawal_years (cfg : MonteCarloInput) :
  withdrawalYears cfg = 0%nat ->
  depletionProbability (simulateMonteCarlo cfg) = 0
  /\ Forall (fun d => depletionRate d = None)
            (yearlyData (simulateMonteCarlo cfg)).
Proof.
  intros Hw.
  assert (Hoff : forall y, withdrawingAt cfg y = false).
  { intros y. unfold withdrawingAt. rewrite Hw, Nat.add_0_r.
    destruct (Nat.ltb_spec (withdrawalStartYear cfg) y);
      destruct (Nat.leb_spec y (withdrawalStartYear cfg)); simpl; try reflexivity.
    lia. }
  assert (Hall : Forall (fun d => depletionRate d = None)
                        (yearlyData (simulateMonteCarlo cfg))).
  { apply Forall_forall. intros d Hd. cbn [yearlyData simulateMonteCarlo] in Hd.
    apply runYears_In in Hd.
    destruct Hd as [->|(y & _ & ->)]; [reflexivity|].
    cbn [depletionRate yearSnapshot snapshot]. rewrite Hoff. reflexivity. }
  split; [|exact Hall].
  cbn [depletionProbability simulateMonteCarlo].
  apply lastDepletionRate_none. exact Hall.
Qed.

(** ** Withdrawal and taxation model *)

Lemma Rmax_zero_ratio (v b : R) :
  0 < v ->
  (if Rlt_dec b v then (v - b) / v else 0) = Rmax 0 ((v - b) / v).
Proof.
  intros Hv. destruct (Rlt_dec b v) as [Hlt|Hge].
  - rewrite Rmax_right; [reflexivity|].
    apply Rlt_le, Rdiv_lt_0_compat; lra.
  - rewrite Rmax_left; [reflexivity|].
    unfold Rdiv. rewrite <- (Rmult_0_l (/ v)).
    apply Rmult_le_compat_r; [left; apply Rinv_0_lt_compat; exact Hv | lra].
Qed.

Lemma floor_at_zero (x : R) : (if Rlt_dec x 0 then 0 else x) = Rmax x 0.
Proof.
  destruct (Rlt_dec x 0).
  - rewrite Rmax_right; lra.
  - rewrite Rmax_left; lra.
Qed.

(** How the loop over the paths uses [withdrawal]: in a withdrawing month, a
    path whose value after growth and contribution is positive gets the
    value and cost basis computed by [withdrawal], from the locked-in amount
    in rate mode and from the running fixed amount otherwise. *)
Lemma pathBody_withdrawing (cfg : MonteCarloInput) (isC : bool)
      (mult curW z : R) (p : Path) :
  let g := exp (monthlyDrift cfg + monthlySigma cfg * z) in
  let v := if isC then value p * g + monthlyContribution cfg else value p * g in
  let b := if isC then basis p + monthlyContribution cfg else basis p in
  let base := if isRateMode cfg then lockIn cfg v p * mult else curW in
  0 < v ->
  value (pathBody cfg isC true mult curW z p)
  = valueAfter (withdrawal cfg base v b)
  /\ basis (pathBody cfg isC true mult curW z p)
     = basisAfter (withdrawal cfg base v b).
Proof.
  intros g v b base Hv. subst g v b base.
  unfold pathBody.
  unfold Rltb. destruct (Rlt_dec 0 _) as [_|Hn].
  - cbn [andb]. destruct (isRateMode cfg), isC; split; reflexivity.
  - exfalso. apply Hn. destruct isC; exact Hv.
Qed.

(** C3.  One withdrawing month of the loop over the paths, for a path whose
    value [v] after growth and contribution is positive and whose cost basis
    is then [b]; [w] is the base need of the month (the locked-in amount
    times the deflation multiplier in rate mode, the running fixed amount
    otherwise) and [p] the configured pension, 0 when none is given.  The
    net withdrawal is [max (w - p) 0]; the tax is
    [net * max 0 ((v - b) / v) * rate], the rate being 0 when [taxFree] is
    selected and 20.315% otherwise; the path leaves the month with cost
    basis [b * (1 - min (net / v) 1)] and value [v - net - tax] floored at
    0; in rate mode the net withdrawal is added to the path's yearly
    withdrawals. *)
Theorem C3_withdrawal_step (cfg : MonteCarloInput) (isC : bool)
        (mult curW z : R) (path : Path) :
  let growth := exp (monthlyDrift cfg + monthlySigma cfg * z) in
  let v := if isC then value path * growth + monthlyContribution cfg
           else value path * growth in
  let b := if isC then basis path + monthlyContribution cfg else basis path in
  let w := if isRateMode cfg then lockIn cfg v path * mult else curW in
  let p := match monthlyPensionIncome cfg with Some x => x | None => 0 end in
  let rate := match taxFree cfg with Some true => 0 | _ => 20315 / 100000 end in
  let net := Rmax (w - p) 0 in
  let tax := net * Rmax 0 ((v - b) / v) * rate in
  let path' := pathBody cfg isC true mult curW z path in
  0 < v ->
  netWithdrawal (withdrawal cfg w v b) = net
  /\ taxOnWithdrawal (withdrawal cfg w v b) = tax
  /\ basis path' = b * (1 - Rmin (net / v) 1)
  /\ value path' = Rmax (v - net - tax) 0
  /\ yearlyW path'
     = (if isRateMode cfg then yearlyW path + net else yearlyW path).
Proof.
  intros growth v b w p rate net tax path' Hv.
  assert (Hnet : netWithdrawal (withdrawal cfg w v b) = net) by reflexivity.
  assert (Hrate : taxRate cfg = rate).
  { unfold taxRate, TAX_RATE, rate.
    destruct (taxFree cfg) as [[|]|]; reflexivity. }
  assert (Htax : taxOnWithdrawal (withdrawal cfg w v b) = tax).
  { unfold withdrawal. cbn [taxOnWithdrawal].
    rewrite (Rmax_zero_ratio v b Hv), Hrate. reflexivity. }
  assert (Hb : basisAfter (withdrawal cfg w v b) = b * (1 - Rmin (net / v) 1))
    by reflexivity.
  assert (Hval : valueAfter (withdrawal cfg w v b) = Rmax (v - net - tax) 0).
  { rewrite <- Htax. unfold withdrawal.
    cbn [valueAfter taxOnWithdrawal]. apply floor_at_zero. }
  split; [exact Hnet|]. split; [exact Htax|].
  rewrite <- Hb, <- Hval, <- Hnet.
  subst path'. unfold pathBody. fold growth. fold v. fold b.
  unfold Rltb. destruct (Rlt_dec 0 v) as [_|Hn]; [|contradiction].
  cbn [andb]. subst w.
  destruct (isRateMode cfg); cbn [value basis yearlyW]; repeat split.
Qed.

(** ** Comparisons *)

Lemma Rltb_true (x y : R) : Rltb x y = true <-> x < y.
Proof. unfold Rltb. destruct (Rlt_dec x y); split; intros; congruence. Qed.

Lemma Rltb_false (x y : R) : Rltb x y = false <-> ~ x < y.
Proof. unfold Rltb. destruct (Rlt_dec x y); split; intros; congruence. Qed.

Lemma Rleb_true (x y : R) : Rleb x y = true <-> x <= y.
Proof. unfold Rleb. destruct (Rle_dec x y); split; intros; congruence. Qed.

Lemma Rleb_false (x y : R) : Rleb x y = false <-> ~ x <= y.
Proof. unfold Rleb. destruct (Rle_dec x y); split; intros; congruence. Qed.

(** ** Counting *)

Lemma countIf_none {A : Type} (f : A -> bool) (l : list A) :
  Forall (fun a => f a = false) l -> countIf f l = 0%nat.
Proof.
  unfold countIf. induction 1 as [|a l Ha _ IH]; cbn [filter].
  - reflexivity.
  - rewrite Ha. exact IH.
Qed.

Lemma countIf_all {A : Type} (f : A -> bool) (l : list A) :
  Forall (fun a => f a = true) l -> countIf f l = length l.
Proof.
  unfold countIf. induction 1 as [|a l Ha _ IH]; cbn [filter].
  - reflexivity.
  - rewrite Ha. cbn [length]. rewrite IH. reflexivity.
Qed.

(** ** Rounding *)

Lemma js_floor_spec (x : R) : IZR (js_floor x) <= x < IZR (js_floor x) + 1.
Proof.
  unfold js_floor. destruct (base_Int_part x) as [H1 H2]. lra.
Qed.

Lemma js_floor_unique (z : Z) (x : R) :
  IZR z <= x < IZR z + 1 -> js_floor x = z.
Proof.
  intros [H1 H2]. destruct (js_floor_spec x) as [F1 F2].
  assert (A : (js_floor x < z + 1)%Z).
  { apply lt_IZR. rewrite plus_IZR. lra. }
  assert (B : (z < js_floor x + 1)%Z).
  { apply lt_IZR. rewrite plus_IZR. lra. }
  lia.
Qed.

Lemma js_floor_mono (x y : R) : x <= y -> (js_floor x <= js_floor y)%Z.
Proof.
  intros H. destruct (js_floor_spec x) as [F1 _].
  destruct (js_floor_spec y) as [_ G2].
  assert (A : (js_floor x < js_floor y + 1)%Z).
  { apply lt_IZR. rewrite plus_IZR. lra. }
  lia.
Qed.

Lemma js_round_mono (x y : R) : x <= y -> (js_round x <= js_round y)%Z.
Proof. intros H. apply js_floor_mono. lra. Qed.

Lemma js_round_IZR_mono (x y : R) :
  x <= y -> IZR (js_round x) <= IZR (js_round y).
Proof. intros H. apply IZR_le, js_round_mono, H. Qed.

Lemma js_round_IZR (z : Z) : js_round (IZR z) = z.
Proof. apply js_floor_unique. lra. Qed.

(** A gap of at least one unit survives rounding. *)
Lemma js_round_gap (x y : R) : x + 1 <= y -> (js_round x < js_round y)%Z.
Proof.
  intros H. unfold js_round.
  destruct (js_floor_spec (x + 1 / 2)) as [_ F2].
  destruct (js_floor_spec (y + 1 / 2)) as [G1 _].
  unfold js_floor in *.
  assert (A : (Int_part (x + 1 / 2) + 1 <= Int_part (y + 1 / 2))%Z).
  { assert (M : (js_floor (x + 1 / 2 + 1) <= js_floor (y + 1 / 2))%Z)
      by (apply js_floor_mono; lra).
    unfold js_floor in M.
    replace (Int_part (x + 1 / 2 + 1)) with (Int_part (x + 1 / 2) + 1)%Z in M;
      [exact M|].
    symmetry. apply js_floor_unique. rewrite plus_IZR.
    destruct (js_floor_spec (x + 1 / 2)) as [E1 E2]. unfold js_floor in *. lra. }
  lia.
Qed.

(** ** Percentile indices *)

Lemma INR_NUM_SIMULATIONS : INR NUM_SIMULATIONS = 5000.
Proof.
  unfold NUM_SIMULATIONS. rewrite INR_IZR_INZ.
  replace (Z.of_nat 5000) with 5000%Z by (vm_compute; reflexivity).
  reflexivity.
Qed.

Lemma NUM_SIMULATIONS_pos : 0 < INR NUM_SIMULATIONS.
Proof. rewrite INR_NUM_SIMULATIONS. lra. Qed.

Lemma pctIndex_value (q : R) (k : Z) :
  5000 * q = IZR k -> pctIndex q = Z.to_nat k.
Proof.
  intros H. unfold pctIndex. f_equal.
  apply js_floor_unique. rewrite INR_NUM_SIMULATIONS, H. lra.
Qed.

Lemma pctIndex_10 : pctIndex (1 / 10) = 500%nat.
Proof. rewrite (pctIndex_value _ 500); [vm_compute; reflexivity | lra]. Qed.

Lemma pctIndex_25 : pctIndex (25 / 100) = 1250%nat.
Proof. rewrite (pctIndex_value _ 1250); [vm_compute; reflexivity | lra]. Qed.

Lemma pctIndex_50 : pctIndex (5 / 10) = 2500%nat.
Proof. rewrite (pctIndex_value _ 2500); [vm_compute; reflexivity | lra]. Qed.

Lemma pctIndex_75 : pctIndex (75 / 100) = 3750%nat.
Proof. rewrite (pctIndex_value _ 3750); [vm_compute; reflexivity | lra]. Qed.

Lemma pctIndex_90 : pctIndex (9 / 10) = 4500%nat.
Proof. rewrite (pctIndex_value _ 4500); [vm_compute; reflexivity | lra]. Qed.

(** ** Sorting *)

Lemma insertF64_perm (x : R) (l : list R) : Permutation (insertF64 x l) (x :: l).
Proof.
  induction l as [|y r IH]; cbn [insertF64].
  - apply Permutation_refl.
  - destruct (Rle_dec x y).
    + apply Permutation_refl.
    + apply perm_trans with (y :: x :: r).
      * apply perm_skip, IH.
      * apply perm_swap.
Qed.

Lemma sortF64_perm (l : list R) : Permutation (sortF64 l) l.
Proof.
  induction l as [|x l IH]; cbn [sortF64 fold_right].
  - apply perm_nil.
  - apply perm_trans with (x :: sortF64 l).
    + apply insertF64_perm.
    + apply perm_skip, IH.
Qed.

Lemma sortF64_length (l : list R) : length (sortF64 l) = length l.
Proof. apply Permutation_length, sortF64_perm. Qed.

Lemma insertF64_sorted (x : R) (l : list R) :
  StronglySorted Rle l -> StronglySorted Rle (insertF64 x l).
Proof.
  induction l as [|y r IH]; intros Hs; cbn [insertF64].
  - constructor; constructor.
  - inversion Hs as [|? ? Hr Hy]; subst.
    destruct (Rle_dec x y) as [Hxy|Hxy].
    + constructor; [exact Hs|].
      constructor; [exact Hxy|].
      eapply Forall_impl; [|exact Hy]. intros a Ha. cbn beta in Ha. lra.
    + constructor; [apply IH, Hr|].
      apply (Permutation_Forall (Permutation_sym (insertF64_perm x r))).
      constructor; [lra|exact Hy].
Qed.

Lemma sortF64_sorted (l : list R) : StronglySorted Rle (sortF64 l).
Proof.
  induction l as [|x l IH]; cbn [sortF64 fold_right].
  - constructor.
  - apply insertF64_sorted, IH.
Qed.

Lemma StronglySorted_cell (l : list R) :
  StronglySorted Rle l ->
  forall i j, (i <= j < length l)%nat -> cell l i <= cell l j.
Proof.
  unfold cell. induction 1 as [|x l Hs IH Hx]; intros i j Hij.
  - cbn [length] in Hij. lia.
  - destruct i as [|i], j as [|j]; cbn [nth]; cbn [length] in Hij.
    + lra.
    + rewrite Forall_forall in Hx. apply Hx, nth_In. lia.
    + lia.
    + apply IH. lia.
Qed.

Lemma sortF64_cell_mono (l : list R) (i j : nat) :
  (i <= j < length l)%nat -> cell (sortF64 l) i <= cell (sortF64 l) j.
Proof.
  intros H. apply StronglySorted_cell; [apply sortF64_sorted|].
  rewrite sortF64_length. exact H.
Qed.

(** ** The buffers keep their size *)

Lemma pathLoop_length (cfg : MonteCarloInput) (isC isW : bool) (mult curW : R)
      (rows : list Path) (s : Z) :
  length (fst (pathLoop cfg isC isW mult curW s rows)) = length rows.
Proof.
  revert s. induction rows as [|p rest IH]; intros s; cbn [pathLoop].
  - reflexivity.
  - destruct (pathStep cfg isC isW mult curW s p) as [p' s1].
    specialize (IH s1).
    destruct (pathLoop cfg isC isW mult curW s1 rest) as [rest' s2].
    cbn [fst length] in *. congruence.
Qed.

Lemma monthStep_rows_length (cfg : MonteCarloInput) (yr : nat) (st : SimState) :
  length (st_rows (monthStep cfg yr st)) = length (st_rows st).
Proof.
  unfold monthStep.
  match goal with
  | |- context [pathLoop ?c ?a ?b ?m ?w ?s ?r] =>
      pose proof (pathLoop_length c a b m w r s) as H;
      destruct (pathLoop c a b m w s r) as [rows' s']
  end.
  exact H.
Qed.

Lemma beginYear_rows_length (cfg : MonteCarloInput) (st : SimState) :
  length (st_rows (beginYear cfg st)) = length (st_rows st).
Proof.
  unfold beginYear. cbn [st_rows].
  destruct (isRateMode cfg); [apply length_map|reflexivity].
Qed.

Lemma monthsOfYear_rows_length (cfg : MonteCarloInput) (yr m : nat)
      (st : SimState) :
  length (st_rows (monthsOfYear cfg yr m st)) = length (st_rows st).
Proof.
  unfold monthsOfYear. induction m as [|m IH]; cbn [Nat.iter nat_rect].
  - apply beginYear_rows_length.
  - rewrite monthStep_rows_length. exact IH.
Qed.

Lemma endYear_rows (cfg : MonteCarloInput) (yr : nat) (st : SimState) :
  st_rows (endYear cfg yr st) = st_rows st.
Proof. reflexivity. Qed.

Lemma endYear_totalPrincipal (cfg : MonteCarloInput) (yr : nat) (st : SimState) :
  st_totalPrincipal (endYear cfg yr st) = st_totalPrincipal st.
Proof. reflexivity. Qed.

Lemma endYear_sorted (cfg : MonteCarloInput) (yr : nat) (st : SimState) :
  st_sorted (endYear cfg yr st) = sortF64 (map value (st_rows st)).
Proof. reflexivity. Qed.

Lemma yearStep_rows (cfg : MonteCarloInput) (yr : nat) (st : SimState) :
  st_rows (yearStep cfg yr st) = st_rows (monthsOfYear cfg yr 12 st).
Proof. unfold yearStep. apply endYear_rows. Qed.

Lemma yearStep_totalPrincipal (cfg : MonteCarloInput) (yr : nat) (st : SimState) :
  st_totalPrincipal (yearStep cfg yr st)
  = st_totalPrincipal (monthsOfYear cfg yr 12 st).
Proof. unfold yearStep. apply endYear_totalPrincipal. Qed.

Lemma yearStep_sorted (cfg : MonteCarloInput) (yr : nat) (st : SimState) :
  st_sorted (yearStep cfg yr st)
  = sortF64 (map value (st_rows (monthsOfYear cfg yr 12 st))).
Proof. unfold yearStep. apply endYear_sorted. Qed.

Lemma initState_rows_length (cfg : MonteCarloInput) :
  length (st_rows (initState cfg)) = NUM_SIMULATIONS.
Proof. cbn [st_rows initState]. apply repeat_length. Qed.

Lemma runYears_rows_length (cfg : MonteCarloInput) (n : nat) :
  length (st_rows (runYears cfg n)) = NUM_SIMULATIONS.
Proof.
  induction n as [|n IH].
  - rewrite runYears_0. apply initState_rows_length.
  - rewrite runYears_S, yearStep_rows, monthsOfYear_rows_length. exact IH.
Qed.

Lemma atMonth_rows_length (cfg : MonteCarloInput) (y m : nat) :
  length (st_rows (atMonth cfg y m)) = NUM_SIMULATIONS.
Proof.
  unfold atMonth. rewrite monthsOfYear_rows_length. apply runYears_rows_length.
Qed.

(** ** Percentile bands *)

Lemma snapshot_percentiles (cfg : MonteCarloInput) (yr : nat)
      (rows : list Path) (tp : R) :
  length rows = NUM_SIMULATIONS ->
  let d := snapshot cfg yr rows (sortF64 (map value rows)) tp in
  p10 d <= p25 d /\ p25 d <= p50 d /\ p50 d <= p75 d /\ p75 d <= p90 d.
Proof.
  intros Hlen d. subst d. cbn [p10 p25 p50 p75 p90 snapshot].
  rewrite pctIndex_10, pctIndex_25, pctIndex_50, pctIndex_75, pctIndex_90.
  assert (L : length (map value rows) = 5000%nat).
  { rewrite length_map. exact Hlen. }
  repeat split; apply js_round_IZR_mono, sortF64_cell_mono; rewrite L;
    split; apply Nat.leb_le; vm_compute; reflexivity.
Qed.

(** C6.  In every yearly record of every run the five percentiles are in
    non-decreasing order. *)
Theorem C6_percentiles_nondecreasing (cfg : MonteCarloInput) :
  Forall (fun d =>
            p10 d <= p25 d /\ p25 d <= p50 d /\ p50 d <= p75 d /\ p75 d <= p90 d)
         (yearlyData (simulateMonteCarlo cfg)).
Proof.
  apply Forall_forall. intros d Hd.
  cbn [yearlyData simulateMonteCarlo] in Hd.
  apply runYears_In in Hd. destruct Hd as [->|(y & _ & ->)].
  - cbn [p10 p25 p50 p75 p90 year0]. lra.
  - apply snapshot_percentiles, atMonth_rows_length.
Qed.

(** ** Terminal histogram *)

Lemma js_ceil_pos (x : R) : 0 < x -> (1 <= js_ceil x)%Z.
Proof.
  intros Hx. unfold js_ceil.
  destruct (js_floor_spec (- x)) as [H1 _]. unfold js_floor in H1.
  assert (A : (Int_part (- x) < 0)%Z) by (apply lt_IZR; lra).
  lia.
Qed.

Lemma js_floor_nonneg (x : R) : 0 <= x -> (0 <= js_floor x)%Z.
Proof.
  intros Hx. destruct (js_floor_spec x) as [_ H2].
  assert (A : (-1 < js_floor x)%Z).
  { apply lt_IZR. replace (IZR (-1)) with (-1) by reflexivity. lra. }
  lia.
Qed.

Lemma incrAt_length (idx : nat) (counts : list nat) :
  length (incrAt idx counts) = length counts.
Proof.
  revert idx. induction counts as [|c r IH]; intros [|k]; cbn [incrAt length];
    try reflexivity.
  rewrite IH. reflexivity.
Qed.

Lemma incrAt_sum (idx : nat) (counts : list nat) :
  (idx < length counts)%nat ->
  list_sum (incrAt idx counts) = S (list_sum counts).
Proof.
  revert idx. induction counts as [|c r IH]; intros [|k] H;
    cbn [length] in H; cbn [incrAt list_sum fold_right]; try lia.
  change (fold_right Nat.add 0%nat (incrAt k r)) with (list_sum (incrAt k r)).
  change (fold_right Nat.add 0%nat r) with (list_sum r).
  rewrite IH by lia. lia.
Qed.

Lemma list_sum_repeat_0 (n : nat) : list_sum (repeat 0%nat n) = 0%nat.
Proof. induction n as [|n IH]; [reflexivity|exact IH]. Qed.

(** The bin index of a positive value is a valid index of [binCounts]. *)
Lemma binIndex_in_range (binWidth : R) (neededBins : Z) (x : R) :
  0 < binWidth -> (1 <= neededBins)%Z -> 0 < x ->
  (0 <= binIndex binWidth neededBins x < neededBins)%Z.
Proof.
  intros Hw Hn Hx. unfold binIndex.
  assert (A : (0 <= js_floor (x / binWidth))%Z).
  { apply js_floor_nonneg. left. apply Rdiv_lt_0_compat; assumption. }
  lia.
Qed.

Lemma fillBins_fold (binWidth : R) (neededBins : Z) (l : list R)
      (counts : list nat) :
  0 < binWidth -> (1 <= neededBins)%Z ->
  length counts = Z.to_nat neededBins ->
  let step := fun counts x =>
                if Rltb 0 x
                then incrAt (Z.to_nat (binIndex binWidth neededBins x)) counts
                else counts in
  length (fold_left step l counts) = Z.to_nat neededBins
  /\ list_sum (fold_left step l counts)
     = (list_sum counts + countIf (fun x => Rltb 0 x) l)%nat.
Proof.
  intros Hw Hn Hlen step. revert counts Hlen.
  induction l as [|x l IH]; intros counts Hlen; cbn [fold_left].
  - unfold countIf. cbn [filter length]. split; [exact Hlen|lia].
  - unfold countIf. cbn [filter]. subst step. cbn beta.
    destruct (Rltb 0 x) eqn:Hx.
    + apply Rltb_true in Hx.
      destruct (binIndex_in_range binWidth neededBins x Hw Hn Hx) as [B1 B2].
      destruct (IH (incrAt (Z.to_nat (binIndex binWidth neededBins x)) counts))
        as [L S0].
      { rewrite incrAt_length. exact Hlen. }
      split; [exact L|].
      rewrite S0, incrAt_sum by (rewrite Hlen; lia).
      unfold countIf. cbn [length]. lia.
    + destruct (IH counts Hlen) as [L S0]. split; [exact L|].
      rewrite S0. reflexivity.
Qed.

Lemma fillBins_spec (binWidth : R) (neededBins : Z) (l : list R) :
  0 < binWidth -> (1 <= neededBins)%Z ->
  length (fillBins binWidth neededBins l) = Z.to_nat neededBins
  /\ list_sum (fillBins binWidth neededBins l)
     = countIf (fun x => Rltb 0 x) l.
Proof.
  intros Hw Hn. unfold fillBins.
  destruct (fillBins_fold binWidth neededBins l
              (repeat 0%nat (Z.to_nat neededBins)) Hw Hn (repeat_length _ _))
    as [L S0].
  split; [exact L|]. rewrite S0, list_sum_repeat_0. reflexivity.
Qed.

Lemma countIf_split (l : list R) :
  (countIf (fun x => Rleb x 0) l + countIf (fun x => Rltb 0 x) l)%nat = length l.
Proof.
  unfold countIf. induction l as [|x l IH]; cbn [filter length]; [reflexivity|].
  unfold Rleb at 1, Rltb at 1.
  destruct (Rle_dec x 0), (Rlt_dec 0 x); cbn [length]; try lra; lia.
Qed.

Lemma list_sum_nth_seq (l : list nat) :
  list_sum (map (fun b => nth b l 0%nat) (seq 0 (length l))) = list_sum l.
Proof.
  f_equal. apply nth_ext with (d := 0%nat) (d' := 0%nat).
  - rewrite length_map, length_seq. reflexivity.
  - intros n Hn. rewrite length_map, length_seq in Hn.
    rewrite (nth_indep _ 0%nat (nth 0 l 0%nat)) by
        (rewrite length_map, length_seq; exact Hn).
    rewrite (map_nth (fun b => nth b l 0%nat)), seq_nth by exact Hn.
    reflexivity.
Qed.

Lemma totalCount_app (a b : list DistributionBin) :
  totalCount (a ++ b) = (totalCount a + totalCount b)%nat.
Proof. unfold totalCount. rewrite map_app, list_sum_app. reflexivity. Qed.

(** The histogram input: zero-filled before the first simulated year,
    afterwards the sorted copy of the path values. *)
Lemma runYears_sorted (cfg : MonteCarloInput) (n : nat) :
  length (st_sorted (runYears cfg n)) = NUM_SIMULATIONS
  /\ StronglySorted Rle (st_sorted (runYears cfg n)).
Proof.
  destruct n as [|n].
  - rewrite runYears_0. cbn [st_sorted initState]. split.
    + apply repeat_length.
    + generalize NUM_SIMULATIONS. intros k. induction k as [|k IH];
        cbn [repeat]; constructor; [exact IH|].
      apply Forall_forall. intros x Hx. apply repeat_spec in Hx. lra.
  - rewrite runYears_S, yearStep_sorted. split.
    + rewrite sortF64_length, length_map, monthsOfYear_rows_length.
      apply runYears_rows_length.
    + apply sortF64_sorted.
Qed.

Lemma runYears_sorted_values (cfg : MonteCarloInput) (n : nat) :
  st_sorted (runYears cfg (S n))
  = sortF64 (map value (st_rows (runYears cfg (S n)))).
Proof. rewrite runYears_S, yearStep_sorted, yearStep_rows. reflexivity. Qed.

Section Histogram.

Variable sorted : list R.
Hypothesis sorted_length : length sorted = NUM_SIMULATIONS.
Hypothesis sorted_asc : StronglySorted Rle sorted.

Local Abbreviation depletedCnt := (countIf (fun x => Rleb x 0) sorted).
Local Abbreviation binWidth :=
  (Rmax (cell sorted (pctIndex (9 / 10))) 1 / IZR NUM_MAIN_BINS).
Local Abbreviation neededBins :=
  (Z.min (js_ceil (cell sorted (NUM_SIMULATIONS - 1) / binWidth))
         (NUM_MAIN_BINS + MAX_TAIL_BINS)).

Lemma binWidth_pos : 0 < binWidth.
Proof.
  unfold NUM_MAIN_BINS.
  pose proof (Rmax_r (cell sorted (pctIndex (9 / 10))) 1). lra.
Qed.

Lemma neededBins_range :
  0 < cell sorted (NUM_SIMULATIONS - 1) -> (1 <= neededBins <= 15)%Z.
Proof.
  intros Hmax.
  pose proof (js_ceil_pos _ (Rdiv_lt_0_compat _ _ Hmax binWidth_pos)).
  unfold NUM_MAIN_BINS, MAX_TAIL_BINS in *. lia.
Qed.

(** When the largest value is not positive, every value is counted as
    depleted. *)
Lemma all_depleted :
  ~ 0 < cell sorted (NUM_SIMULATIONS - 1) -> depletedCnt = NUM_SIMULATIONS.
Proof.
  intros Hmax. transitivity (length sorted);
    [|exact sorted_length].
  unfold countIf. f_equal. apply forallb_filter_id.
  apply forallb_forall. intros x Hx.
  destruct (In_nth _ _ 0 Hx) as (i & Hi & <-).
  pose proof (StronglySorted_cell sorted sorted_asc i (NUM_SIMULATIONS - 1)) as M.
  unfold cell in M, Hmax. unfold Rleb.
  destruct (Rle_dec (nth i sorted 0) 0) as [_|Hn]; [reflexivity|].
  exfalso. apply Hn. rewrite sorted_length in *.
  assert (i <= NUM_SIMULATIONS - 1 < NUM_SIMULATIONS)%nat by lia.
  specialize (M H). lra.
Qed.

Lemma depleted_part_total :
  totalCount
    (if (0 <? depletedCnt)%nat
     then [ {| rangeEnd := 0; count := depletedCnt; isDepleted := true |} ]
     else [])
  = depletedCnt.
Proof.
  destruct (Nat.ltb_spec 0 depletedCnt) as [H|H]; unfold totalCount;
    cbn [map list_sum fold_right count]; lia.
Qed.

Lemma buildDistribution_total :
  totalCount (buildDistribution sorted) = NUM_SIMULATIONS.
Proof.
  unfold buildDistribution.
  destruct (Rltb 0 (cell sorted (NUM_SIMULATIONS - 1))) eqn:Hmax;
    [apply Rltb_true in Hmax | apply Rltb_false in Hmax].
  - destruct (neededBins_range Hmax) as [N1 N2].
    destruct (fillBins_spec binWidth neededBins sorted binWidth_pos N1)
      as [L S0].
    rewrite totalCount_app, depleted_part_total.
    unfold totalCount at 1. rewrite map_map. cbn [count].
    rewrite <- L, list_sum_nth_seq, S0.
    rewrite countIf_split. exact sorted_length.
  - rewrite depleted_part_total. apply all_depleted. exact Hmax.
Qed.

End Histogram.

(** Without a simulated year ([totalYears = 0]) the sorted buffer is still
    zero-filled when the histogram is built: the result is a single depleted
    bin holding all paths, whatever [initialAmount] is. *)
Lemma no_years_histogram (cfg : MonteCarloInput) :
  totalYears cfg = 0%nat ->
  distribution (simulateMonteCarlo cfg)
  = [ {| rangeEnd := 0; count := NUM_SIMULATIONS; isDepleted := true |} ].
Proof.
  intros H0. cbn [distribution simulateMonteCarlo].
  rewrite H0, runYears_0. cbn [st_sorted initState].
  unfold buildDistribution.
  assert (Hmax : cell (repeat 0 NUM_SIMULATIONS) (NUM_SIMULATIONS - 1) = 0).
  { unfold cell. apply nth_repeat. }
  rewrite Hmax.
  replace (Rltb 0 0) with false by (symmetry; apply Rltb_false; lra).
  rewrite countIf_all.
  - rewrite repeat_length. reflexivity.
  - apply Forall_forall. intros x Hx. apply repeat_spec in Hx. subst x.
    apply Rleb_true. lra.
Qed.

(** C5.  On a run without any simulated year the histogram does not show
    the final values.  With [noYears] no year is simulated, every path ends
    with the 1,000,000 it started with and none is at or below 0; yet the
    result holds one depleted bin that counts all 5000 paths, and no bin
    for a positive value.  The buffer the histogram reads is filled only at
    the end of a simulated year. *)
Theorem C5_unsimulated_histogram :
  totalYears noYears = 0%nat
  /\ Forall (fun p => value p = 1000000) (st_rows (finalState noYears))
  /\ countIf (fun p => Rleb (value p) 0) (st_rows (finalState noYears)) = 0%nat
  /\ distribution (simulateMonteCarlo noYears)
     = [ {| rangeEnd := 0; count := NUM_SIMULATIONS; isDepleted := true |} ].
Proof.
  assert (H0 : totalYears noYears = 0%nat) by reflexivity.
  assert (Hrows : Forall (fun p => value p = 1000000)
                         (st_rows (finalState noYears))).
  { unfold finalState. rewrite H0, runYears_0. cbn [st_rows initState].
    apply Forall_forall. intros p Hp. apply repeat_spec in Hp. subst p.
    reflexivity. }
  split; [exact H0|]. split; [exact Hrows|]. split.
  - apply countIf_none. eapply Forall_impl; [|exact Hrows].
    intros p Hp. cbn beta in Hp. rewrite Hp. apply Rleb_false. lra.
  - apply no_years_histogram, H0.
Qed.

(** ** Lifting facts about one path to the buffers *)

Lemma pathLoop_Forall2 (cfg : MonteCarloInput) (isC isW : bool) (mult curW : R)
      (rows : list Path) (s : Z) :
  Forall2 (fun p p' => exists z, p' = pathBody cfg isC isW mult curW z p)
          rows (fst (pathLoop cfg isC isW mult curW s rows)).
Proof.
  revert s. induction rows as [|p rest IH]; intros s; cbn [pathLoop].
  - constructor.
  - unfold pathStep. destruct (Generator.normalRandom s) as [z s1].
    specialize (IH s1).
    destruct (pathLoop cfg isC isW mult curW s1 rest) as [rest' s2].
    cbn [fst] in *. constructor; [exists z; reflexivity | exact IH].
Qed.

Lemma pathLoop_Forall (cfg : MonteCarloInput) (isC isW : bool) (mult curW : R)
      (P Q : Path -> Prop) (rows : list Path) (s : Z) :
  (forall z p, P p -> Q (pathBody cfg isC isW mult curW z p)) ->
  Forall P rows ->
  Forall Q (fst (pathLoop cfg isC isW mult curW s rows)).
Proof.
  intros Hstep Hrows.
  pose proof (pathLoop_Forall2 cfg isC isW mult curW rows s) as F.
  induction F as [|p p' l l' (z & ->) _ IH].
  - constructor.
  - inversion Hrows; subst. constructor; [apply Hstep; assumption | apply IH; assumption].
Qed.

(** The parameters the month loop hands to the loop over the paths. *)
Lemma monthStep_fields (cfg : MonteCarloInput) (yr : nat) (st : SimState) :
  let isC := contributingAt cfg yr in
  let isW := withdrawingAt cfg yr in
  let st' := monthStep cfg yr st in
  st_rows st'
  = fst (pathLoop cfg isC isW (st_rateDeflationMultiplier st')
                  (st_currentMonthlyWithdrawal st') (st_rng st) (st_rows st))
  /\ st_totalPrincipal st'
     = (if isC then st_totalPrincipal st + monthlyContribution cfg
        else st_totalPrincipal st)
  /\ st_currentMonthlyWithdrawal st'
     = (if isW && negb (isRateMode cfg) && inflationAdjusted0 cfg
        then st_currentMonthlyWithdrawal st * monthlyInflationFactor cfg
        else st_currentMonthlyWithdrawal st)
  /\ st_rateDeflationMultiplier st'
     = (if isW && isRateMode cfg && st_rateWithdrawalStarted st
        then st_rateDeflationMultiplier st * monthlyNominalDeflator cfg
        else st_rateDeflationMultiplier st)
  /\ st_rateWithdrawalStarted st'
     = (if isW && isRateMode cfg then true else st_rateWithdrawalStarted st).
Proof.
  intros isC isW st'. subst st' isC isW. unfold monthStep.
  destruct (pathLoop _ _ _ _ _ _ _) as [rows' s'] eqn:E.
  cbn [st_rows st_totalPrincipal st_currentMonthlyWithdrawal
       st_rateDeflationMultiplier st_rateWithdrawalStarted].
  rewrite E. repeat split; reflexivity.
Qed.

(** A property of the rows that every path step re-establishes holds at
    every month of a year in which it holds at the start. *)
Lemma monthStep_rows_Forall (cfg : MonteCarloInput) (yr : nat) (st : SimState)
      (P Q : Path -> Prop) :
  (forall mult curW z p,
      P p ->
      Q (pathBody cfg (contributingAt cfg yr) (withdrawingAt cfg yr)
                  mult curW z p)) ->
  Forall P (st_rows st) ->
  Forall Q (st_rows (monthStep cfg yr st)).
Proof.
  intros Hstep Hrows.
  destruct (monthStep_fields cfg yr st) as (E & _). rewrite E.
  eapply pathLoop_Forall; [|exact Hrows]. intros z p. apply Hstep.
Qed.

(** ** Runs that start from nothing and never contribute *)

Section EmptyPortfolio.

Variable cfg : MonteCarloInput.
Hypothesis no_initial : initialAmount cfg = 0.
Hypothesis no_contribution : contributionYears cfg = 0%nat.

Lemma never_contributing (n : nat) : contributingAt cfg (S n) = false.
Proof. unfold contributingAt. rewrite no_contribution. reflexivity. Qed.

Lemma pathBody_zero (isW : bool) (mult curW z : R) (p : Path) :
  value p = 0 -> value (pathBody cfg false isW mult curW z p) = 0.
Proof.
  intros Hp. unfold pathBody. rewrite Hp, Rmult_0_l.
  unfold Rltb. destruct (Rlt_dec 0 0) as [H|_]; [lra|].
  rewrite andb_false_r. reflexivity.
Qed.

Lemma empty_monthsOfYear (n m : nat) (st : SimState) :
  Forall (fun p => value p = 0) (st_rows st) ->
  st_totalPrincipal st = 0 ->
  Forall (fun p => value p = 0) (st_rows (monthsOfYear cfg (S n) m st))
  /\ st_totalPrincipal (monthsOfYear cfg (S n) m st) = 0.
Proof.
  intros Hrows Htp.
  induction m as [|m [IH1 IH2]].
  - rewrite monthsOfYear_0. split; [|exact Htp].
    unfold beginYear. cbn [st_rows].
    destruct (isRateMode cfg); [|exact Hrows].
    apply Forall_map. eapply Forall_impl; [|exact Hrows].
    intros p Hp. exact Hp.
  - rewrite monthsOfYear_S. split.
    + apply monthStep_rows_Forall with (P := fun p => value p = 0);
        [|exact IH1].
      intros mult curW z p Hp. rewrite never_contributing.
      apply pathBody_zero, Hp.
    + destruct (monthStep_fields cfg (S n) (monthsOfYear cfg (S n) m st))
        as (_ & E & _).
      rewrite E, never_contributing. exact IH2.
Qed.

Lemma empty_runYears (n : nat) :
  Forall (fun p => value p = 0) (st_rows (runYears cfg n))
  /\ st_totalPrincipal (runYears cfg n) = 0.
Proof.
  induction n as [|n [IH1 IH2]].
  - rewrite runYears_0. cbn [st_rows st_totalPrincipal initState].
    split; [|exact no_initial].
    apply Forall_forall. intros p Hp. apply repeat_spec in Hp. subst p.
    exact no_initial.
  - rewrite runYears_S, yearStep_rows, yearStep_totalPrincipal.
    apply empty_monthsOfYear; assumption.
Qed.

End EmptyPortfolio.

(** ** Failure and depletion probabilities *)

Lemma lastDepletionRate_snoc (ys : list MonteCarloYearData)
      (d : MonteCarloYearData) :
  lastDepletionRate (ys ++ [d])
  = match depletionRate d with Some r => r | None => 0 end.
Proof. unfold lastDepletionRate. rewrite rev_unit. reflexivity. Qed.

Lemma runYears_yearlyData_S (cfg : MonteCarloInput) (n : nat) :
  st_yearlyData (runYears cfg (S n))
  = st_yearlyData (runYears cfg n) ++ [yearSnapshot cfg (S n)].
Proof.
  rewrite !runYears_yearlyData, seq_S, map_app, app_comm_cons. reflexivity.
Qed.

Lemma atMonth_S (cfg : MonteCarloInput) (y m : nat) :
  atMonth cfg (S y) m = monthsOfYear cfg (S y) m (runYears cfg y).
Proof. reflexivity. Qed.

Lemma yearStep_eq (cfg : MonteCarloInput) (yr : nat) (st : SimState) :
  yearStep cfg yr st = endYear cfg yr (monthsOfYear cfg yr 12 st).
Proof. reflexivity. Qed.

Lemma yearEnd_S (cfg : MonteCarloInput) (n : nat) :
  yearEnd cfg (S n) = monthsOfYear cfg (S n) 12 (runYears cfg n).
Proof. reflexivity. Qed.

Lemma runYears_rows_yearEnd (cfg : MonteCarloInput) (n : nat) :
  st_rows (runYears cfg (S n)) = st_rows (yearEnd cfg (S n))
  /\ st_totalPrincipal (runYears cfg (S n))
     = st_totalPrincipal (yearEnd cfg (S n)).
Proof.
  rewrite runYears_S, yearStep_rows, yearStep_totalPrincipal, yearEnd_S.
  split; reflexivity.
Qed.

(** The depletion probability of a run whose last year is a withdrawing
    year: the share of final values that are not positive. *)
Lemma depletionProbability_last_withdrawing (cfg : MonteCarloInput) (n : nat) :
  totalYears cfg = S n ->
  withdrawingAt cfg (S n) = true ->
  depletionProbability (simulateMonteCarlo cfg)
  = INR (countIf (fun p => Rleb (value p) 0) (st_rows (finalState cfg)))
    / INR NUM_SIMULATIONS.
Proof.
  intros Hn Hw. cbn [depletionProbability simulateMonteCarlo].
  unfold finalState. rewrite Hn.
  rewrite runYears_yearlyData_S, lastDepletionRate_snoc.
  destruct (runYears_rows_yearEnd cfg n) as [-> _].
  unfold yearSnapshot. cbn [depletionRate snapshot]. rewrite Hw. reflexivity.
Qed.

(** With nothing invested and no contribution phase, a run that ends in a
    withdrawing year reports certain depletion and no failure. *)
Lemma empty_portfolio_probabilities (cfg : MonteCarloInput) (n : nat) :
  initialAmount cfg = 0 ->
  contributionYears cfg = 0%nat ->
  totalYears cfg = S n ->
  withdrawingAt cfg (S n) = true ->
  failureProbability (simulateMonteCarlo cfg) = 0
  /\ depletionProbability (simulateMonteCarlo cfg) = 1.
Proof.
  intros Hi Hc Hn Hw.
  destruct (empty_runYears cfg Hi Hc (totalYears cfg)) as [Hrows Htp].
  split.
  - cbn [failureProbability simulateMonteCarlo]. rewrite Htp.
    rewrite countIf_none.
    + cbn [INR]. unfold Rdiv. apply Rmult_0_l.
    + eapply Forall_impl; [|exact Hrows]. intros p Hp. cbn beta in Hp.
      rewrite Hp. apply Rltb_false. lra.
  - rewrite (depletionProbability_last_withdrawing cfg n Hn Hw).
    unfold finalState. rewrite countIf_all.
    + rewrite runYears_rows_length. apply Rinv_r.
      pose proof NUM_SIMULATIONS_pos. lra.
    + eapply Forall_impl; [|exact Hrows]. intros p Hp. cbn beta in Hp.
      rewrite Hp. apply Rleb_true. lra.
Qed.

(** C1, evaluated on [emptyPortfolio].  Every path stays at 0, so none is
    below the total principal 0 and the failure probability is 0, while the
    last yearly record counts every path as depleted: the depletion
    probability is 1 and exceeds the failure probability. *)
Theorem C1_empty_portfolio :
  failureProbability (simulateMonteCarlo emptyPortfolio) = 0
  /\ depletionProbability (simulateMonteCarlo emptyPortfolio) = 1
  /\ ~ (failureProbability (simulateMonteCarlo emptyPortfolio)
        >= depletionProbability (simulateMonteCarlo emptyPortfolio)).
Proof.
  destruct (empty_portfolio_probabilities emptyPortfolio 9) as [F D];
    try reflexivity.
  rewrite F, D. repeat split. lra.
Qed.

(** Outside that corner the invariant holds: as soon as the principal
    contributed by the end of the run is positive, every depleted path is
    also a path below the principal. *)

Lemma countIf_le {A : Type} (f g : A -> bool) (l : list A) :
  (forall a, f a = true -> g a = true) -> (countIf f l <= countIf g l)%nat.
Proof.
  intros H. unfold countIf. induction l as [|a l IH]; cbn [filter].
  - apply Nat.le_refl.
  - destruct (f a) eqn:E.
    + rewrite (H a E). cbn [length]. lia.
    + destruct (g a); cbn [length]; lia.
Qed.

Lemma monthsOfYear_totalPrincipal_ge (cfg : MonteCarloInput) (yr m : nat)
      (st : SimState) :
  0 <= monthlyContribution cfg ->
  st_totalPrincipal st <= st_totalPrincipal (monthsOfYear cfg yr m st).
Proof.
  intros Hc. induction m as [|m IH].
  - rewrite monthsOfYear_0. apply Rle_refl.
  - rewrite monthsOfYear_S.
    destruct (monthStep_fields cfg yr (monthsOfYear cfg yr m st)) as (_ & E & _).
    rewrite E. destruct (contributingAt cfg yr); lra.
Qed.

Lemma runYears_totalPrincipal_ge (cfg : MonteCarloInput) (n : nat) :
  0 <= monthlyContribution cfg ->
  initialAmount cfg <= st_totalPrincipal (runYears cfg n).
Proof.
  intros Hc. induction n as [|n IH].
  - rewrite runYears_0. apply Rle_refl.
  - rewrite runYears_S, yearStep_totalPrincipal.
    eapply Rle_trans; [exact IH|].
    apply monthsOfYear_totalPrincipal_ge, Hc.
Qed.

Lemma failure_covers_depletion (cfg : MonteCarloInput) :
  0 < initialAmount cfg ->
  0 <= monthlyContribution cfg ->
  failureProbability (simulateMonteCarlo cfg)
  >= depletionProbability (simulateMonteCarlo cfg).
Proof.
  intros Hi Hc.
  pose proof (runYears_totalPrincipal_ge cfg (totalYears cfg) Hc) as Htp.
  pose proof NUM_SIMULATIONS_pos as HN.
  assert (Hnonneg : forall k : nat, 0 <= INR k / INR NUM_SIMULATIONS).
  { intros k. apply Rmult_le_pos; [apply pos_INR|].
    left. apply Rinv_0_lt_compat, HN. }
  destruct (totalYears cfg) as [|n] eqn:Hn.
  - cbn [failureProbability depletionProbability simulateMonteCarlo].
    rewrite Hn, runYears_yearlyData.
    cbn [seq map lastDepletionRate rev app depletionRate year0].
    apply Rle_ge, Hnonneg.
  - destruct (withdrawingAt cfg (S n)) eqn:Hw.
    + rewrite (depletionProbability_last_withdrawing cfg n Hn Hw).
      cbn [failureProbability simulateMonteCarlo].
      unfold finalState. rewrite Hn in *.
      apply Rle_ge. apply Rmult_le_compat_r;
        [left; apply Rinv_0_lt_compat, HN|].
      apply le_INR, countIf_le. intros p Hp.
      apply Rleb_true in Hp. apply Rltb_true. lra.
    + cbn [failureProbability depletionProbability simulateMonteCarlo].
      rewrite Hn, runYears_yearlyData_S, lastDepletionRate_snoc.
      unfold yearSnapshot. cbn [depletionRate snapshot]. rewrite Hw.
      apply Rle_ge, Hnonneg.
Qed.

(** ** Choice of the withdrawal mode *)

Section RateModeIgnoresFixedAmount.

Variable cfg : MonteCarloInput.
Variable w : option R.
Hypothesis rate_mode : isRateMode cfg = true.

Local Abbreviation cfg' := (withMonthlyWithdrawal w cfg).

Lemma pathBody_rate_mode (isC isW : bool) (mult c1 c2 z : R) (p : Path) :
  pathBody cfg' isC isW mult c1 z p = pathBody cfg isC isW mult c2 z p.
Proof.
  unfold pathBody.
  change (isRateMode cfg') with (isRateMode cfg). rewrite rate_mode.
  reflexivity.
Qed.

Lemma pathLoop_rate_mode (isC isW : bool) (mult c1 c2 : R) (s : Z)
      (rows : list Path) :
  pathLoop cfg' isC isW mult c1 s rows = pathLoop cfg isC isW mult c2 s rows.
Proof.
  revert s. induction rows as [|p rest IH]; intros s; cbn [pathLoop].
  - reflexivity.
  - unfold pathStep. destruct (Generator.normalRandom s) as [z s1].
    rewrite (pathBody_rate_mode isC isW mult c1 c2 z p), IH. reflexivity.
Qed.

Lemma monthStep_rate_mode (yr : nat) (a b : SimState) :
  sameButFixedAmount a b ->
  sameButFixedAmount (monthStep cfg' yr a) (monthStep cfg yr b).
Proof.
  intros (E1 & E2 & E3 & E4 & E5 & E6 & E7). unfold monthStep.
  change (contributingAt cfg' yr) with (contributingAt cfg yr).
  change (withdrawingAt cfg' yr) with (withdrawingAt cfg yr).
  change (isRateMode cfg') with (isRateMode cfg).
  change (monthlyNominalDeflator cfg') with (monthlyNominalDeflator cfg).
  change (monthlyContribution cfg') with (monthlyContribution cfg).
  rewrite E1, E2, E3, E4, E5, E6, E7.
  match goal with
  | |- context [pathLoop cfg' ?c ?d ?m ?c1 ?s ?r] =>
      match goal with
      | |- context [pathLoop cfg c d m ?c2 s r] =>
          rewrite (pathLoop_rate_mode c d m c1 c2 s r)
      end
  end.
  destruct (pathLoop cfg _ _ _ _ _ _) as [rows' s'].
  repeat split.
Qed.

Lemma beginYear_rate_mode (a b : SimState) :
  sameButFixedAmount a b ->
  sameButFixedAmount (beginYear cfg' a) (beginYear cfg b).
Proof.
  intros (E1 & E2 & E3 & E4 & E5 & E6 & E7). unfold beginYear.
  change (isRateMode cfg') with (isRateMode cfg).
  repeat split; cbn [st_rng st_rows st_totalPrincipal
                      st_rateDeflationMultiplier st_rateWithdrawalStarted
                      st_sorted st_yearlyData]; try assumption.
  rewrite E2. reflexivity.
Qed.

Lemma monthsOfYear_rate_mode (yr m : nat) (a b : SimState) :
  sameButFixedAmount a b ->
  sameButFixedAmount (monthsOfYear cfg' yr m a) (monthsOfYear cfg yr m b).
Proof.
  intros H. induction m as [|m IH].
  - rewrite !monthsOfYear_0. apply beginYear_rate_mode, H.
  - rewrite !monthsOfYear_S. apply monthStep_rate_mode, IH.
Qed.

Lemma endYear_rate_mode (yr : nat) (a b : SimState) :
  sameButFixedAmount a b ->
  sameButFixedAmount (endYear cfg' yr a) (endYear cfg yr b).
Proof.
  intros (E1 & E2 & E3 & E4 & E5 & E6 & E7). unfold endYear.
  repeat split; cbn [st_rng st_rows st_totalPrincipal
                      st_rateDeflationMultiplier st_rateWithdrawalStarted
                      st_sorted st_yearlyData]; try congruence.
  rewrite E2, E3, E7. reflexivity.
Qed.

Lemma runYears_rate_mode (n : nat) :
  sameButFixedAmount (runYears cfg' n) (runYears cfg n).
Proof.
  induction n as [|n IH].
  - rewrite !runYears_0. repeat split.
  - rewrite !runYears_S. unfold yearStep.
    apply endYear_rate_mode, monthsOfYear_rate_mode, IH.
Qed.

Lemma simulateMonteCarlo_rate_mode :
  simulateMonteCarlo cfg' = simulateMonteCarlo cfg.
Proof.
  unfold simulateMonteCarlo.
  change (totalYears cfg') with (totalYears cfg).
  destruct (runYears_rate_mode (totalYears cfg))
    as (E1 & E2 & E3 & E4 & E5 & E6 & E7).
  rewrite E2, E3, E6, E7. reflexivity.
Qed.

End RateModeIgnoresFixedAmount.

(** C2 as stated fails on [bothModes]: both mode fields are filled in, yet
    the run is not in rate mode, since a rate of 0 does not pass the test
    [annualWithdrawalRate > 0].  A withdrawal is then sized by the fixed
    amount (100000 before the pension offset), not by the lock-in rule, and
    the record of a withdrawing year has no median yearly withdrawal. *)
Lemma C2_counterexample :
  monthlyWithdrawal bothModes = Some 100000
  /\ annualWithdrawalRate bothModes = Some 0
  /\ isRateMode bothModes = false
  /\ st_currentMonthlyWithdrawal (initState bothModes) = 100000
  /\ (forall (isC : bool) (mult curW z : R) (p : Path),
        let g := exp (monthlyDrift bothModes + monthlySigma bothModes * z) in
        let v := if isC then value p * g + monthlyContribution bothModes
                 else value p * g in
        let b := if isC then basis p + monthlyContribution bothModes
                 else basis p in
        0 < v ->
        value (pathBody bothModes isC true mult curW z p)
        = valueAfter (withdrawal bothModes curW v b))
  /\ medianYearlyWithdrawal (yearSnapshot bothModes 1) = None.
Proof.
  assert (Hmode : isRateMode bothModes = false).
  { unfold isRateMode. cbn [annualWithdrawalRate bothModes].
    apply Rltb_false. lra. }
  split; [reflexivity|]. split; [reflexivity|]. split; [exact Hmode|].
  split; [reflexivity|]. split.
  - intros isC mult curW z p g v b Hv.
    destruct (pathBody_withdrawing bothModes isC mult curW z p Hv) as [E _].
    rewrite Hmode in E. exact E.
  - unfold yearSnapshot. cbn [medianYearlyWithdrawal snapshot].
    rewrite Hmode, andb_false_r. reflexivity.
Qed.

(** C2, amended.  When [annualWithdrawalRate] is filled in with a value
    above 0, the run is in rate mode whatever [monthlyWithdrawal] holds: the
    result does not depend on [monthlyWithdrawal], and a withdrawal from a
    path with positive value is sized by the amount locked in for that path
    times the deflation multiplier. *)
Theorem C2_rate_mode_priority (cfg : MonteCarloInput) (r : R) :
  annualWithdrawalRate cfg = Some r ->
  0 < r ->
  isRateMode cfg = true
  /\ (forall w : option R,
        simulateMonteCarlo (withMonthlyWithdrawal w cfg)
        = simulateMonteCarlo cfg)
  /\ (forall (isC : bool) (mult curW z : R) (p : Path),
        let g := exp (monthlyDrift cfg + monthlySigma cfg * z) in
        let v := if isC then value p * g + monthlyContribution cfg
                 else value p * g in
        let b := if isC then basis p + monthlyContribution cfg else basis p in
        let locked := if Req_dec_T (initW p) 0 then v * r / 100 / 12
                      else initW p in
        0 < v ->
        value (pathBody cfg isC true mult curW z p)
        = valueAfter (withdrawal cfg (locked * mult) v b)
        /\ initW (pathBody cfg isC true mult curW z p) = locked).
Proof.
  intros Hr Hpos.
  assert (Hmode : isRateMode cfg = true).
  { unfold isRateMode. rewrite Hr. apply Rltb_true, Hpos. }
  split; [exact Hmode|]. split.
  - intros w. apply simulateMonteCarlo_rate_mode, Hmode.
  - intros isC mult curW z p g v b locked Hv.
    assert (Hl : lockIn cfg v p = locked).
    { unfold lockIn, rate0. rewrite Hr. reflexivity. }
    destruct (pathBody_withdrawing cfg isC mult curW z p Hv) as [E _].
    rewrite Hmode in E. fold g v b in E. rewrite Hl in E.
    split; [exact E|].
    unfold pathBody. fold g.
    replace (Rltb 0 (if isC then value p * g + monthlyContribution cfg
                     else value p * g)) with true
      by (symmetry; apply Rltb_true; exact Hv).
    cbn [andb]. rewrite Hmode. cbn [initW]. destruct isC; exact Hl.
Qed.

(** ** Cost basis *)

(** Without volatility the deviate does not matter. *)
Lemma monthlySigma_no_volatility (cfg : MonteCarloInput) (z : R) :
  volatility cfg = 0 ->
  monthlyDrift cfg + monthlySigma cfg * z = (mu cfg - ri cfg) / 12.
Proof.
  intros Hv. unfold monthlyDrift, monthlySigma, sigma. rewrite Hv.
  unfold Rdiv. rewrite !Rmult_0_l. lra.
Qed.

Lemma exp_neg_bound (x : R) : 0 < x -> exp (- x) < / (1 + x).
Proof.
  intros Hx. rewrite exp_Ropp.
  apply Rinv_lt_contravar.
  - apply Rmult_lt_0_compat; [lra | apply exp_pos].
  - apply exp_ineq1. lra.
Qed.

(** C9 as stated fails on [losingMarket]: after the first simulated month
    every path is worth less than 999200 while its cost basis is still
    1000000, a gap of more than 800 that no rounding accounts for. *)
Lemma C9_counterexample :
  length (st_rows (atMonth losingMarket 1 1)) = NUM_SIMULATIONS
  /\ Forall (fun p => basis p = 1000000 /\ value p < 999200)
            (st_rows (atMonth losingMarket 1 1))
  /\ exists p, In p (st_rows (atMonth losingMarket 1 1))
               /\ value p + 800 < basis p.
Proof.
  assert (Hall : Forall (fun p => basis p = 1000000 /\ value p < 999200)
                        (st_rows (atMonth losingMarket 1 1))).
  { unfold atMonth. cbn [pred]. rewrite runYears_0, monthsOfYear_S, monthsOfYear_0.
    apply monthStep_rows_Forall with (P := fun p => p = initPath losingMarket).
    - intros mult curW z p ->.
      change (contributingAt losingMarket 1) with true.
      change (withdrawingAt losingMarket 1) with false.
      unfold pathBody. cbn [andb].
      rewrite monthlySigma_no_volatility by reflexivity.
      cbn [value basis initPath initialAmount monthlyContribution losingMarket].
      split; [lra|].
      replace ((mu losingMarket - ri losingMarket) / 12) with (- (1 / 1200)).
      + pose proof (exp_neg_bound (1 / 1200)) as B.
        assert (B' : exp (- (1 / 1200)) < 1200 / 1201).
        { eapply Rlt_le_trans; [apply B; lra|].
          right. field. }
        lra.
      + unfold mu, ri, expenseRatio0.
        cbn [annualReturnRate inflationRate expenseRatio losingMarket]. field.
    - unfold beginYear. cbn [st_rows].
      change (isRateMode losingMarket) with false. cbn [initState st_rows].
      apply Forall_forall. intros p Hp. apply repeat_spec in Hp. exact Hp. }
  pose proof (atMonth_rows_length losingMarket 1 1) as Hlen.
  split; [exact Hlen|]. split; [exact Hall|].
  destruct (st_rows (atMonth losingMarket 1 1)) as [|p rest].
  - unfold NUM_SIMULATIONS in Hlen. discriminate Hlen.
  - exists p. split; [left; reflexivity|].
    inversion Hall as [|? ? [Hb Hv] _]; subst. lra.
Qed.

Lemma withdrawal_basis_bounds (cfg : MonteCarloInput) (base v b : R) :
  0 < v -> 0 <= b ->
  0 <= basisAfter (withdrawal cfg base v b) <= b.
Proof.
  intros Hv Hb. unfold withdrawal. cbn [basisAfter].
  set (net := Rmax (base - pension0 cfg) 0).
  assert (Hnet : 0 <= net) by apply Rmax_r.
  assert (Hq : 0 <= net / v).
  { apply Rmult_le_pos; [exact Hnet|]. left. apply Rinv_0_lt_compat, Hv. }
  assert (Hr : 0 <= Rmin (net / v) 1 <= 1).
  { split; [apply Rmin_glb; lra | apply Rmin_r]. }
  split; nra.
Qed.

Lemma pathBody_basis_bounds (cfg : MonteCarloInput) (isC isW : bool)
      (mult curW z tp : R) (p : Path) :
  0 <= monthlyContribution cfg ->
  0 <= basis p <= tp ->
  0 <= basis (pathBody cfg isC isW mult curW z p)
  <= (if isC then tp + monthlyContribution cfg else tp).
Proof.
  intros Hc Hb. unfold pathBody.
  set (v := if isC then _ else _).
  set (b := if isC then basis p + monthlyContribution cfg else basis p).
  assert (Hb2 : 0 <= b <= (if isC then tp + monthlyContribution cfg else tp)).
  { subst b. destruct isC; lra. }
  destruct (isW && Rltb 0 v) eqn:E.
  - apply andb_true_iff in E. destruct E as [_ Hv]. apply Rltb_true in Hv.
    destruct (isRateMode cfg); cbn [basis].
    + pose proof (withdrawal_basis_bounds cfg (lockIn cfg v p * mult) v b Hv
                                          (proj1 Hb2)). lra.
    + pose proof (withdrawal_basis_bounds cfg curW v b Hv (proj1 Hb2)). lra.
  - cbn [basis]. exact Hb2.
Qed.

Lemma monthStep_basisWithinPrincipal (cfg : MonteCarloInput) (yr : nat)
      (st : SimState) :
  0 <= monthlyContribution cfg ->
  basisWithinPrincipal st -> basisWithinPrincipal (monthStep cfg yr st).
Proof.
  intros Hc H. unfold basisWithinPrincipal in *.
  destruct (monthStep_fields cfg yr st) as (_ & E & _). rewrite E.
  apply monthStep_rows_Forall
    with (P := fun p => 0 <= basis p <= st_totalPrincipal st); [|exact H].
  intros mult curW z p Hp. apply pathBody_basis_bounds; assumption.
Qed.

Lemma beginYear_basisWithinPrincipal (cfg : MonteCarloInput) (st : SimState) :
  basisWithinPrincipal st -> basisWithinPrincipal (beginYear cfg st).
Proof.
  unfold basisWithinPrincipal, beginYear. cbn [st_rows st_totalPrincipal].
  intros H. destruct (isRateMode cfg); [|exact H].
  apply Forall_map. eapply Forall_impl; [|exact H]. intros p Hp. exact Hp.
Qed.

Lemma monthsOfYear_basisWithinPrincipal (cfg : MonteCarloInput) (yr m : nat)
      (st : SimState) :
  0 <= monthlyContribution cfg ->
  basisWithinPrincipal st -> basisWithinPrincipal (monthsOfYear cfg yr m st).
Proof.
  intros Hc H. induction m as [|m IH].
  - rewrite monthsOfYear_0. apply beginYear_basisWithinPrincipal, H.
  - rewrite monthsOfYear_S. apply monthStep_basisWithinPrincipal; assumption.
Qed.

Lemma runYears_basisWithinPrincipal (cfg : MonteCarloInput) (n : nat) :
  0 <= initialAmount cfg ->
  0 <= monthlyContribution cfg ->
  basisWithinPrincipal (runYears cfg n).
Proof.
  intros Hi Hc. induction n as [|n IH].
  - rewrite runYears_0. unfold basisWithinPrincipal.
    cbn [st_rows st_totalPrincipal initState].
    apply Forall_forall. intros p Hp. apply repeat_spec in Hp. subst p.
    cbn [basis initPath]. lra.
  - rewrite runYears_S. unfold basisWithinPrincipal.
    rewrite yearStep_rows, yearStep_totalPrincipal.
    apply monthsOfYear_basisWithinPrincipal; assumption.
Qed.

(** C9, amended.  For non-negative [initialAmount] and
    [monthlyContribution], at the end of every month of every simulated
    year the cost basis of every path is at least 0 and at most the
    principal contributed so far.  It may exceed the value of the path; a
    withdrawal from such a path has gain ratio 0 and pays no tax. *)
Theorem C9_cost_basis_bounds (cfg : MonteCarloInput) :
  0 <= initialAmount cfg ->
  0 <= monthlyContribution cfg ->
  (forall (y m : nat) (p : Path),
      In p (st_rows (atMonth cfg (S y) m)) ->
      0 <= basis p <= st_totalPrincipal (atMonth cfg (S y) m))
  /\ (forall base v b : R,
        v <= b ->
        gainRatio (withdrawal cfg base v b) = 0
        /\ taxOnWithdrawal (withdrawal cfg base v b) = 0).
Proof.
  intros Hi Hc. split.
  - intros y m p Hp.
    pose proof (monthsOfYear_basisWithinPrincipal cfg (S y) m (runYears cfg y) Hc
                  (runYears_basisWithinPrincipal cfg y Hi Hc)) as H.
    unfold basisWithinPrincipal in H. rewrite Forall_forall in H.
    apply H. exact Hp.
  - intros base v b Hvb. unfold withdrawal. cbn [gainRatio taxOnWithdrawal].
    destruct (Rlt_dec b v) as [Hlt|_]; [lra|].
    split; [reflexivity|]. rewrite Rmult_0_r, Rmult_0_l. reflexivity.
Qed.

(** ** Rate mode under inflation and without volatility *)

Lemma Rpower_twelfth (x : R) : 0 < x -> Rpower x (1 / 12) ^ 12 = x.
Proof.
  intros Hx.
  rewrite <- (Rpower_pow 12 (Rpower x (1 / 12))) by apply exp_pos.
  rewrite Rpower_mult.
  replace (1 / 12 * INR 12) with 1.
  - apply Rpower_1, Hx.
  - replace (INR 12) with 12 by (simpl; lra). field.
Qed.

Lemma pow_le_1 (d : R) (n : nat) : 0 <= d <= 1 -> 0 <= d ^ n <= 1.
Proof.
  intros Hd. induction n as [|n IH]; cbn [pow]; [lra|]. nra.
Qed.

Lemma pow_antitone (d : R) (n m : nat) :
  0 <= d <= 1 -> (n <= m)%nat -> d ^ m <= d ^ n.
Proof.
  intros Hd Hnm. replace m with (n + (m - n))%nat by lia.
  rewrite pow_add. pose proof (pow_le_1 d n Hd). pose proof (pow_le_1 d (m - n) Hd).
  nra.
Qed.

(** As [monthStep_rows_Forall], for the multiplier the month really uses. *)
Lemma monthStep_rows_Forall_at (cfg : MonteCarloInput) (yr : nat)
      (st : SimState) (P Q : Path -> Prop) :
  (forall curW z p,
      P p ->
      Q (pathBody cfg (contributingAt cfg yr) (withdrawingAt cfg yr)
                  (st_rateDeflationMultiplier (monthStep cfg yr st))
                  curW z p)) ->
  Forall P (st_rows st) ->
  Forall Q (st_rows (monthStep cfg yr st)).
Proof.
  intros Hstep Hrows.
  destruct (monthStep_fields cfg yr st) as (E & _). rewrite E.
  eapply pathLoop_Forall; [|exact Hrows]. intros z p. apply Hstep.
Qed.

Lemma sorted_cell_In (l : list R) (i : nat) :
  (i < length l)%nat -> In (cell (sortF64 l) i) l.
Proof.
  intros Hi. apply (Permutation_in _ (sortF64_perm l)).
  unfold cell. apply nth_In. rewrite sortF64_length. exact Hi.
Qed.

Lemma endYear_clock (cfg : MonteCarloInput) (yr k : nat) (st : SimState) :
  rateClock cfg k st -> rateClock cfg k (endYear cfg yr st).
Proof. intros H. exact H. Qed.

Lemma beginYear_clock (cfg : MonteCarloInput) (k : nat) (st : SimState) :
  rateClock cfg k st -> rateClock cfg k (beginYear cfg st).
Proof. intros H. exact H. Qed.

(** With no volatility the deviates have no effect. *)

Section NoVolatility.

Variable cfg : MonteCarloInput.
Hypothesis no_volatility : volatility cfg = 0.

Lemma pathBody_no_volatility (isC isW : bool) (mult curW z : R) (p : Path) :
  pathBody cfg isC isW mult curW z p = pathBody cfg isC isW mult curW 0 p.
Proof.
  unfold pathBody.
  rewrite !(monthlySigma_no_volatility cfg) by exact no_volatility.
  reflexivity.
Qed.

(** All paths hold the same row. *)
Lemma uniform_pathLoop (isC isW : bool) (mult curW : R) (s : Z)
      (rows : list Path) (p0 : Path) :
  Forall (fun p => p = p0) rows ->
  Forall (fun p => p = pathBody cfg isC isW mult curW 0 p0)
         (fst (pathLoop cfg isC isW mult curW s rows)).
Proof.
  intros H. eapply pathLoop_Forall; [|exact H].
  intros z p ->. apply pathBody_no_volatility.
Qed.

Lemma uniform_monthsOfYear (yr m : nat) (st : SimState) :
  (exists p0, Forall (fun p => p = p0) (st_rows st)) ->
  exists p1, Forall (fun p => p = p1) (st_rows (monthsOfYear cfg yr m st)).
Proof.
  intros [p0 H0]. induction m as [|m [p1 IH]].
  - rewrite monthsOfYear_0. unfold beginYear. cbn [st_rows].
    destruct (isRateMode cfg); [|exists p0; exact H0].
    exists (clearYearly p0). apply Forall_map.
    eapply Forall_impl; [|exact H0]. intros p ->. reflexivity.
  - rewrite monthsOfYear_S.
    destruct (monthStep_fields cfg yr (monthsOfYear cfg yr m st)) as (E & _).
    rewrite E. eexists. apply uniform_pathLoop. exact IH.
Qed.

Lemma uniform_runYears (n : nat) :
  exists p0, Forall (fun p => p = p0) (st_rows (runYears cfg n)).
Proof.
  induction n as [|n IH].
  - rewrite runYears_0. exists (initPath cfg). cbn [st_rows initState].
    apply Forall_forall. intros p Hp. apply repeat_spec in Hp. exact Hp.
  - rewrite runYears_S, yearStep_rows. apply uniform_monthsOfYear, IH.
Qed.

End NoVolatility.

Section DeflatingRateWithdrawal.

Variable cfg : MonteCarloInput.
Hypothesis rate4 : annualWithdrawalRate cfg = Some 4.
Hypothesis inflation3 : inflationRate cfg = 3.
Hypothesis no_volatility : volatility cfg = 0.
Hypothesis no_contribution_phase : contributionYears cfg = 0%nat.
Hypothesis immediate : withdrawalStartYear cfg = 0%nat.
Hypothesis twenty_years : withdrawalYears cfg = 20%nat.

Local Abbreviation d := (monthlyNominalDeflator cfg).
Local Abbreviation g := (steadyGrowth cfg).
Local Abbreviation w0 := (steadyLockIn cfg).
Local Abbreviation pens := (pension0 cfg).

Lemma scenario_rate_mode : isRateMode cfg = true.
Proof. unfold isRateMode. rewrite rate4. apply Rltb_true. lra. Qed.

Lemma scenario_deflator : 0 < d <= 1 /\ d ^ 12 = 100 / 103.
Proof.
  unfold monthlyNominalDeflator. rewrite scenario_rate_mode.
  unfold ri. rewrite inflation3.
  replace (Rltb 0 (3 / 100)) with true by (symmetry; apply Rltb_true; lra).
  cbn [andb].
  set (D := Rpower (1 + 3 / 100) (1 / 12)).
  assert (HD12 : D ^ 12 = 1 + 3 / 100) by (apply Rpower_twelfth; lra).
  assert (HDpos : 0 < D) by apply exp_pos.
  assert (HD1 : 1 <= D).
  { destruct (Rle_lt_dec 1 D) as [H|H]; [exact H|]. exfalso.
    pose proof (pow_le_1 D 12 (conj (Rlt_le _ _ HDpos) (Rlt_le _ _ H))). lra. }
  split.
  - split.
    + apply Rdiv_lt_0_compat; lra.
    + apply Rmult_le_reg_r with D; [exact HDpos|].
      unfold Rdiv. rewrite Rmult_assoc, Rinv_l by lra. lra.
  - unfold Rdiv at 1. rewrite Rmult_1_l, pow_inv, HD12. field.
Qed.

Lemma scenario_phases (y : nat) :
  (y < 20)%nat ->
  contributingAt cfg (S y) = false /\ withdrawingAt cfg (S y) = true.
Proof.
  intros Hy. unfold contributingAt, withdrawingAt.
  rewrite no_contribution_phase, immediate, twenty_years. split.
  - reflexivity.
  - apply andb_true_iff. split; [apply Nat.ltb_lt | apply Nat.leb_le]; lia.
Qed.

Lemma scenario_body (mult curW z : R) (p : Path) :
  pathBody cfg false true mult curW z p
  = if Rltb 0 (value p * g)
    then
      let iw := lockIn cfg (value p * g) p in
      let w := withdrawal cfg (iw * mult) (value p * g) (basis p) in
      {| value := valueAfter w; basis := basisAfter w;
         yearlyW := yearlyW p + netWithdrawal w; initW := iw |}
    else
      {| value := value p * g; basis := basis p;
         yearlyW := yearlyW p; initW := initW p |}.
Proof.
  unfold pathBody. rewrite monthlySigma_no_volatility by exact no_volatility.
  fold (steadyGrowth cfg). cbn [andb].
  rewrite scenario_rate_mode. reflexivity.
Qed.

(** A path at 0 stays at 0 and withdraws nothing. *)
Lemma scenario_dead_step (mult curW z : R) (p : Path) :
  value p = 0 ->
  let p' := pathBody cfg false true mult curW z p in
  value p' = 0 /\ yearlyW p' = yearlyW p /\ initW p' = initW p.
Proof.
  intros Hp p'. subst p'. rewrite scenario_body. rewrite Hp, Rmult_0_l.
  replace (Rltb 0 0) with false by (symmetry; apply Rltb_false; lra).
  cbn [value yearlyW initW]. repeat split.
Qed.

Lemma scenario_dead_year (y m : nat) :
  (y < 20)%nat ->
  Forall (fun p => value p = 0) (st_rows (runYears cfg y)) ->
  Forall (fun p => value p = 0 /\ yearlyW p = 0)
         (st_rows (atMonth cfg (S y) m)).
Proof.
  intros Hy Hrows. destruct (scenario_phases y Hy) as [Hc Hw].
  rewrite atMonth_S. induction m as [|m IH].
  - rewrite monthsOfYear_0. unfold beginYear. cbn [st_rows].
    rewrite scenario_rate_mode. apply Forall_map.
    eapply Forall_impl; [|exact Hrows]. intros p Hp. cbn beta in Hp.
    cbn [value yearlyW clearYearly]. split; [exact Hp | reflexivity].
  - rewrite monthsOfYear_S.
    eapply monthStep_rows_Forall; [|exact IH].
    intros mult curW z p [Hv Hyw]. rewrite Hc, Hw.
    destruct (scenario_dead_step mult curW z p Hv) as (A & B & _).
    split; [exact A | rewrite B; exact Hyw].
Qed.

Lemma scenario_dead_runYears (y k : nat) :
  (y + k <= 20)%nat ->
  Forall (fun p => value p = 0) (st_rows (runYears cfg y)) ->
  Forall (fun p => value p = 0) (st_rows (runYears cfg (y + k))).
Proof.
  intros Hk Hrows. induction k as [|k IH].
  - rewrite Nat.add_0_r. exact Hrows.
  - replace (y + S k)%nat with (S (y + k)) by lia.
    pose proof (scenario_dead_year (y + k) 12 ltac:(lia) (IH ltac:(lia))) as H.
    rewrite atMonth_S in H.
    rewrite runYears_S, yearStep_rows.
    eapply Forall_impl; [|exact H]. intros p [A _]. exact A.
Qed.

(** The clock advances by one in every withdrawing month. *)
Lemma scenario_clock_start (st : SimState) :
  st_rateWithdrawalStarted st = false ->
  st_rateDeflationMultiplier st = 1 ->
  rateClock cfg 1 (monthStep cfg 1 st)
  /\ st_rateDeflationMultiplier (monthStep cfg 1 st) = 1.
Proof.
  intros Hs Hm.
  destruct (monthStep_fields cfg 1 st) as (_ & _ & _ & E4 & E5).
  destruct (scenario_phases 0) as [_ Hw]; [lia|].
  rewrite Hw, scenario_rate_mode, Hs in E4, E5. cbn [andb] in E4, E5.
  unfold rateClock. rewrite E4, E5, Hm. repeat split.
Qed.

Lemma scenario_clock_tick (y k : nat) (st : SimState) :
  (y < 20)%nat -> (1 <= k)%nat ->
  rateClock cfg k st ->
  rateClock cfg (S k) (monthStep cfg (S y) st)
  /\ st_rateDeflationMultiplier (monthStep cfg (S y) st) = d ^ k.
Proof.
  intros Hy Hk [Hs Hm].
  destruct (monthStep_fields cfg (S y) st) as (_ & _ & _ & E4 & E5).
  destruct (scenario_phases y Hy) as [_ Hw].
  rewrite Hw, scenario_rate_mode, Hs in E4, E5. cbn [andb] in E4, E5.
  assert (E : st_rateDeflationMultiplier (monthStep cfg (S y) st) = d ^ k).
  { rewrite E4, Hm. replace k with (S (k - 1)) at 2 by lia.
    cbn [pow]. ring. }
  unfold rateClock. rewrite E5. cbn [Nat.sub]. rewrite Nat.sub_0_r.
  repeat split; exact E.
Qed.

Lemma scenario_first_year_start :
  st_rateWithdrawalStarted (beginYear cfg (initState cfg)) = false
  /\ st_rateDeflationMultiplier (beginYear cfg (initState cfg)) = 1
  /\ Forall (fun p => p = initPath cfg)
            (st_rows (beginYear cfg (initState cfg))).
Proof.
  split; [reflexivity|]. split; [reflexivity|].
  unfold beginYear. cbn [st_rows initState]. rewrite scenario_rate_mode.
  apply Forall_map, Forall_forall. intros p Hp.
  apply repeat_spec in Hp. subst p. reflexivity.
Qed.

Lemma scenario_median (y : nat) :
  (y < 20)%nat ->
  medianYearlyWithdrawal (yearSnapshot cfg (S y))
  = Some (IZR (js_round
                 (cell (sortF64 (map yearlyW (st_rows (atMonth cfg (S y) 12))))
                       (pctIndex (5 / 10))))).
Proof.
  intros Hy. destruct (scenario_phases y Hy) as [_ Hw].
  unfold yearSnapshot, yearEnd. cbn [medianYearlyWithdrawal snapshot].
  rewrite Hw, scenario_rate_mode. cbn [andb]. reflexivity.
Qed.

Lemma scenario_median_index (y : nat) :
  (pctIndex (5 / 10)
   < length (map yearlyW (st_rows (atMonth cfg (S y) 12))))%nat.
Proof.
  rewrite length_map, atMonth_rows_length, pctIndex_50.
  apply Nat.ltb_lt. vm_compute. reflexivity.
Qed.

(** Once every path is at 0 the year's median withdrawal is 0. *)
Lemma scenario_dead_median (y : nat) :
  (y < 20)%nat ->
  Forall (fun p => value p = 0) (st_rows (runYears cfg y)) ->
  medianYearlyWithdrawal (yearSnapshot cfg (S y)) = Some 0.
Proof.
  intros Hy Hrows. rewrite (scenario_median y Hy).
  pose proof (sorted_cell_In _ _ (scenario_median_index y)) as Hin.
  apply in_map_iff in Hin. destruct Hin as (p & E & Hp).
  pose proof (scenario_dead_year y 12 Hy Hrows) as Hdead.
  rewrite Forall_forall in Hdead. destruct (Hdead p Hp) as [_ Hyw].
  rewrite <- E, Hyw, (js_round_IZR 0). reflexivity.
Qed.

(** *** With enough invested *)

Hypothesis pension_nonneg : 0 <= pens.
Hypothesis enough : pens + 1 / 2 <= w0 * (100 / 103).

Lemma scenario_lockIn : w0 = initialAmount cfg * g / 300 /\ 1 / 2 < w0.
Proof.
  split; [|lra]. unfold steadyLockIn, rate0. rewrite rate4. field.
Qed.

Lemma scenario_locked (v : R) (p : Path) : initW p = w0 -> lockIn cfg v p = w0.
Proof.
  intros Hp. unfold lockIn. rewrite Hp.
  destruct scenario_lockIn as [_ Hpos].
  destruct (Req_dec_T w0 0) as [E|_]; [lra|reflexivity].
Qed.

Lemma scenario_valueAfter_nonneg (base v b : R) :
  0 <= valueAfter (withdrawal cfg base v b).
Proof.
  unfold withdrawal. cbn [valueAfter]. destruct (Rlt_dec _ 0); lra.
Qed.

(** The first withdrawing month locks in [w0] on every path. *)
Lemma scenario_first_step (curW z : R) :
  let p' := pathBody cfg false true 1 curW z (initPath cfg) in
  initW p' = w0 /\ yearlyW p' = w0 - pens /\ 0 <= value p'.
Proof.
  intros p'. subst p'. rewrite scenario_body.
  cbn [value basis yearlyW initW initPath].
  destruct scenario_lockIn as [Hw0 Hpos].
  assert (Hv : 0 < initialAmount cfg * g) by lra.
  replace (Rltb 0 (initialAmount cfg * g)) with true
    by (symmetry; apply Rltb_true; exact Hv).
  assert (Hl : lockIn cfg (initialAmount cfg * g) (initPath cfg) = w0).
  { unfold lockIn. cbn [initW initPath].
    destruct (Req_dec_T 0 0) as [_|N]; [|contradiction].
    unfold steadyLockIn. reflexivity. }
  cbn zeta. cbn [value basis yearlyW initW]. rewrite Hl, Rmult_1_r.
  split; [reflexivity|]. split.
  - unfold withdrawal. cbn [netWithdrawal]. rewrite Rmax_left by lra. lra.
  - apply scenario_valueAfter_nonneg.
Qed.

(** A later withdrawing month on a path that still holds something. *)
Lemma scenario_alive_step (mult curW z : R) (p : Path) :
  initW p = w0 -> 0 < value p -> pens <= w0 * mult ->
  let p' := pathBody cfg false true mult curW z p in
  initW p' = w0
  /\ yearlyW p' = yearlyW p + (w0 * mult - pens)
  /\ 0 <= value p'.
Proof.
  intros Hi Hv Hm p'. subst p'. rewrite scenario_body.
  assert (Hvg : 0 < value p * g)
    by (apply Rmult_lt_0_compat; [exact Hv | apply exp_pos]).
  replace (Rltb 0 (value p * g)) with true
    by (symmetry; apply Rltb_true; exact Hvg).
  cbn zeta. cbn [value basis yearlyW initW].
  rewrite (scenario_locked _ p Hi).
  split; [reflexivity|]. split.
  - unfold withdrawal. cbn [netWithdrawal]. rewrite Rmax_left by lra.
    reflexivity.
  - apply scenario_valueAfter_nonneg.
Qed.

(** Any withdrawing month after the lock-in withdraws at most the deflated
    amount less the pension. *)
Lemma scenario_any_step (mult curW z : R) (p : Path) :
  initW p = w0 -> 0 <= value p ->
  let p' := pathBody cfg false true mult curW z p in
  initW p' = w0
  /\ 0 <= value p'
  /\ yearlyW p' <= yearlyW p + Rmax (w0 * mult - pens) 0.
Proof.
  intros Hi Hv p'. subst p'. rewrite scenario_body.
  destruct (Rltb 0 (value p * g)) eqn:E.
  - cbn zeta. cbn [value yearlyW initW]. rewrite (scenario_locked _ p Hi).
    split; [reflexivity|]. split; [apply scenario_valueAfter_nonneg|].
    unfold withdrawal. cbn [netWithdrawal]. apply Rle_refl.
  - cbn [value yearlyW initW].
    split; [exact Hi|]. split.
    + apply Rmult_le_pos; [exact Hv | left; apply exp_pos].
    + pose proof (Rmax_r (w0 * mult - pens) 0). lra.
Qed.

(** The first year: a path withdraws in each month until it is empty. *)
Lemma scenario_year1 (m : nat) :
  (m < 12)%nat ->
  rateClock cfg (S m) (atMonth cfg 1 (S m))
  /\ Forall (fun p =>
               initW p = w0
               /\ 0 <= value p
               /\ w0 - pens <= yearlyW p
               /\ (0 < value p ->
                   INR (S m) * (w0 * d ^ 11 - pens) <= yearlyW p))
            (st_rows (atMonth cfg 1 (S m))).
Proof.
  destruct scenario_deflator as [Hd Hd12].
  destruct scenario_lockIn as [Hw0 Hpos].
  destruct (scenario_phases 0) as [Hc Hw]; [lia|].
  assert (Hd01 : 0 <= d <= 1) by lra.
  assert (H11 : 100 / 103 <= d ^ 11).
  { rewrite <- Hd12. apply pow_antitone; [exact Hd01|lia]. }
  pose proof (pow_le_1 d 11 Hd01) as H11'.
  assert (Hw11 : w0 * (100 / 103) <= w0 * d ^ 11 <= w0) by nra.
  induction m as [|m IH]; intros Hm.
  - unfold atMonth. cbn [pred].
    rewrite runYears_0, monthsOfYear_S, monthsOfYear_0.
    destruct scenario_first_year_start as (Hs & Hmul & Hrows).
    destruct (scenario_clock_start _ Hs Hmul) as [Hclock Hmul'].
    split; [exact Hclock|].
    apply monthStep_rows_Forall_at with (P := fun p => p = initPath cfg);
      [|exact Hrows].
    intros curW z p ->. rewrite Hc, Hw, Hmul'.
    destruct (scenario_first_step curW z) as (A & B & C).
    cbn [INR]. repeat split; try assumption; try lra.
  - destruct IH as [Hclock Hrows]; [lia|].
    unfold atMonth in *. cbn [pred] in *.
    rewrite monthsOfYear_S.
    set (st := monthsOfYear cfg 1 (S m) (runYears cfg 0)) in *.
    destruct (scenario_clock_tick 0 (S m) st) as [Hclock' Hmul'];
      [lia|lia|exact Hclock|].
    split; [exact Hclock'|].
    eapply monthStep_rows_Forall_at; [|exact Hrows].
    intros curW z p (A & B & C & D). rewrite Hc, Hw, Hmul'.
    pose proof (pow_antitone d (S m) 11 Hd01 ltac:(lia)) as Hp2.
    assert (Hwm : w0 * d ^ 11 <= w0 * d ^ S m) by nra.
    destruct (Rlt_dec 0 (value p)) as [Halive|Hdead].
    + destruct (scenario_alive_step (d ^ S m) curW z p A Halive ltac:(lra))
        as (A' & B' & C').
      specialize (D Halive).
      rewrite (S_INR (S m)), Rmult_plus_distr_r, Rmult_1_l.
      repeat split; try assumption; lra.
    + assert (V0 : value p = 0) by lra.
      destruct (scenario_dead_step (d ^ S m) curW z p V0) as (A' & B' & C').
      repeat split; try lra; congruence.
Qed.

(** A later year: a month withdraws at most the locked amount deflated to
    the start of that year, less the pension. *)
Lemma scenario_later_year (y m : nat) :
  (1 <= y < 20)%nat ->
  rateClock cfg (12 * y) (runYears cfg y) ->
  Forall (fun p => initW p = w0 /\ 0 <= value p) (st_rows (runYears cfg y)) ->
  rateClock cfg (12 * y + m) (atMonth cfg (S y) m)
  /\ Forall (fun p =>
               initW p = w0
               /\ 0 <= value p
               /\ yearlyW p <= INR m * Rmax (w0 * d ^ (12 * y) - pens) 0)
            (st_rows (atMonth cfg (S y) m)).
Proof.
  intros Hy Hclock Hrows.
  destruct scenario_deflator as [Hd Hd12].
  destruct scenario_lockIn as [Hw0 Hpos].
  destruct (scenario_phases y) as [Hc Hw]; [lia|].
  assert (Hd01 : 0 <= d <= 1) by lra.
  unfold atMonth. cbn [pred].
  induction m as [|m [IHc IHr]].
  - rewrite monthsOfYear_0, Nat.add_0_r. split.
    + apply beginYear_clock, Hclock.
    + unfold beginYear. cbn [st_rows]. rewrite scenario_rate_mode.
      apply Forall_map. eapply Forall_impl; [|exact Hrows].
      intros p [Hp Hv]. cbn [initW value yearlyW clearYearly INR].
      repeat split; try assumption. lra.
  - rewrite monthsOfYear_S.
    set (st := monthsOfYear cfg (S y) m (runYears cfg y)) in *.
    destruct (scenario_clock_tick y (12 * y + m) st) as [Hclock' Hmul'];
      [lia|lia|exact IHc|].
    split.
    + replace (12 * y + S m)%nat with (S (12 * y + m)) by lia. exact Hclock'.
    + eapply monthStep_rows_Forall_at; [|exact IHr].
      intros curW z p (A & B & C). rewrite Hc, Hw, Hmul'.
      pose proof (pow_antitone d (12 * y) (12 * y + m) Hd01 ltac:(lia)) as Hp2.
      destruct (scenario_any_step (d ^ (12 * y + m)) curW z p A B)
        as (A' & B' & C').
      assert (Hmono : Rmax (w0 * d ^ (12 * y + m) - pens) 0
                      <= Rmax (w0 * d ^ (12 * y) - pens) 0).
      { apply Rle_max_compat_r. nra. }
      rewrite S_INR, Rmult_plus_distr_r, Rmult_1_l.
      repeat split; try assumption. lra.
Qed.

(** After every year the clock has ticked twelve more times and every path
    still holds the amount locked in first. *)
Lemma scenario_runYears (y : nat) :
  (y < 20)%nat ->
  rateClock cfg (12 * S y) (runYears cfg (S y))
  /\ Forall (fun p => initW p = w0 /\ 0 <= value p)
            (st_rows (runYears cfg (S y))).
Proof.
  induction y as [|y IH]; intros Hy.
  - destruct (scenario_year1 11) as [Hclock Hrows]; [lia|].
    rewrite atMonth_S in Hclock, Hrows.
    change (12 * 1)%nat with 12%nat.
    rewrite runYears_S, yearStep_eq. split.
    + apply endYear_clock. exact Hclock.
    + rewrite endYear_rows. eapply Forall_impl; [|exact Hrows].
      intros p (A & B & _). split; assumption.
  - destruct IH as [Hclock Hrows]; [lia|].
    destruct (scenario_later_year (S y) 12) as [Hclock' Hrows'];
      [lia|exact Hclock|exact Hrows|].
    rewrite atMonth_S in Hclock', Hrows'.
    rewrite runYears_S, yearStep_eq. split.
    + apply endYear_clock.
      replace (12 * S (S y))%nat with (12 * S y + 12)%nat by lia.
      exact Hclock'.
    + rewrite endYear_rows. eapply Forall_impl; [|exact Hrows'].
      intros p (A & B & _). split; assumption.
Qed.

(** The median of the last year is below the median of the first year by
    more than one unit when the paths outlive the first year, and is 0
    against at least 1 when they do not; either way the rounded medians
    differ. *)
Lemma scenario_medians :
  exists first last : R,
    medianYearlyWithdrawal (yearSnapshot cfg 1) = Some first
    /\ medianYearlyWithdrawal (yearSnapshot cfg 20) = Some last
    /\ last < first.
Proof.
  destruct scenario_deflator as [Hd Hd12].
  destruct scenario_lockIn as [Hw0 Hpos].
  assert (Hd01 : 0 <= d <= 1) by lra.
  eexists. eexists.
  split; [apply scenario_median; lia|].
  split; [apply scenario_median; lia|].
  (* first year *)
  destruct (scenario_year1 11) as [_ Hfirst]; [lia|].
  pose proof (sorted_cell_In _ _ (scenario_median_index 0)) as Hin1.
  apply in_map_iff in Hin1. destruct Hin1 as (p1 & E1 & Hp1).
  rewrite Forall_forall in Hfirst.
  destruct (Hfirst p1 Hp1) as (_ & V1 & L0 & L1).
  (* last year *)
  destruct (scenario_runYears 18) as [Hclock Hrows]; [lia|].
  destruct (scenario_later_year 19 12) as [_ Hlast];
    [lia|exact Hclock|exact Hrows|].
  pose proof (sorted_cell_In _ _ (scenario_median_index 19)) as Hin2.
  apply in_map_iff in Hin2. destruct Hin2 as (p2 & E2 & Hp2).
  rewrite Forall_forall in Hlast.
  destruct (Hlast p2 Hp2) as (_ & _ & U2).
  rewrite <- E1, <- E2.
  destruct (Rlt_dec 0 (value p1)) as [Halive|Hdead].
  - (* twelve withdrawals of at least [w0 * d ^ 11 - pens] against twelve
       of at most [w0 * d ^ 228 - pens] *)
    specialize (L1 Halive).
    apply IZR_lt, js_round_gap.
    assert (H11 : 100 / 103 <= d ^ 11).
    { rewrite <- Hd12. apply pow_antitone; [exact Hd01|lia]. }
    assert (H19 : (100 / 103) ^ 19 <= 58 / 100) by (cbn [pow]; lra).
    assert (H228 : d ^ (12 * 19) <= 58 / 100).
    { rewrite pow_mult, Hd12. exact H19. }
    assert (H12 : INR 12 = 12) by (simpl; lra).
    rewrite H12 in L1, U2.
    assert (HA : w0 * (100 / 103) <= w0 * d ^ 11) by nra.
    assert (HB : w0 * d ^ (12 * 19) <= w0 * (58 / 100)) by nra.
    set (A := w0 * d ^ 11) in *. set (B := w0 * d ^ (12 * 19)) in *.
    unfold Rmax in U2. destruct (Rle_dec (B - pens) 0); lra.
  - (* the paths are empty after the first year: nothing is withdrawn in
       the last year, and at least [w0 - pens] was in the first *)
    assert (V0 : value p1 = 0) by lra.
    destruct (uniform_runYears cfg no_volatility 1) as [q Hq].
    rewrite runYears_S, yearStep_rows in Hq.
    rewrite atMonth_S in Hp1.
    rewrite Forall_forall in Hq.
    assert (Hdead1 : Forall (fun p => value p = 0) (st_rows (runYears cfg 1))).
    { rewrite runYears_S, yearStep_rows. apply Forall_forall.
      intros p Hp. rewrite (Hq p Hp), <- (Hq p1 Hp1). exact V0. }
    pose proof (scenario_dead_runYears 1 18 ltac:(lia) Hdead1) as Hdead19.
    change (1 + 18)%nat with 19%nat in Hdead19.
    pose proof (scenario_dead_year 19 12 ltac:(lia) Hdead19) as Hdead20.
    rewrite Forall_forall in Hdead20.
    destruct (Hdead20 p2 Hp2) as [_ Y2].
    rewrite Y2, (js_round_IZR 0).
    apply IZR_lt.
    assert (M : (js_round (1 / 2) <= js_round (yearlyW p1))%Z)
      by (apply js_round_mono; lra).
    assert (R1 : js_round (1 / 2) = 1%Z).
    { apply js_floor_unique. lra. }
    lia.
Qed.

End DeflatingRateWithdrawal.

(** The claim as it is written leaves the amount invested open: with the
    six listed values and nothing invested, every path is at 0 from the
    start, nothing is ever withdrawn, and the medians of the first and of
    the last withdrawing year are both 0. *)
Lemma C8_counterexample :
  annualWithdrawalRate unfundedWithdrawal = Some 4
  /\ inflationRate unfundedWithdrawal = 3
  /\ volatility unfundedWithdrawal = 0
  /\ contributionYears unfundedWithdrawal = 0%nat
  /\ withdrawalStartYear unfundedWithdrawal = 0%nat
  /\ withdrawalYears unfundedWithdrawal = 20%nat
  /\ exists dFirst dLast : MonteCarloYearData,
       nth_error (yearlyData (simulateMonteCarlo unfundedWithdrawal)) 1
       = Some dFirst
       /\ nth_error (yearlyData (simulateMonteCarlo unfundedWithdrawal)) 20
          = Some dLast
       /\ isWithdrawing dFirst = true
       /\ isWithdrawing dLast = true
       /\ medianYearlyWithdrawal dFirst = Some 0
       /\ medianYearlyWithdrawal dLast = Some 0
       /\ ~ (exists first last : R,
                medianYearlyWithdrawal dFirst = Some first
                /\ medianYearlyWithdrawal dLast = Some last
                /\ last < first).
Proof.
  repeat (split; [reflexivity|]).
  assert (Ht : totalYears unfundedWithdrawal = 20%nat) by reflexivity.
  assert (Hdead0 : Forall (fun p => value p = 0)
                          (st_rows (runYears unfundedWithdrawal 0))).
  { rewrite runYears_0. cbn [st_rows initState].
    apply Forall_forall. intros p Hp. apply repeat_spec in Hp. subst p.
    reflexivity. }
  assert (Hdead19 : Forall (fun p => value p = 0)
                           (st_rows (runYears unfundedWithdrawal 19))).
  { apply (scenario_dead_runYears unfundedWithdrawal) with (y := 0%nat)
                                                            (k := 19%nat);
      try reflexivity; [lia | exact Hdead0]. }
  assert (M1 : medianYearlyWithdrawal (yearSnapshot unfundedWithdrawal 1)
               = Some 0).
  { apply (scenario_dead_median unfundedWithdrawal); try reflexivity;
      [lia | exact Hdead0]. }
  assert (M20 : medianYearlyWithdrawal (yearSnapshot unfundedWithdrawal 20)
                = Some 0).
  { apply (scenario_dead_median unfundedWithdrawal); try reflexivity;
      [lia | exact Hdead19]. }
  exists (yearSnapshot unfundedWithdrawal 1),
         (yearSnapshot unfundedWithdrawal 20).
  cbn [yearlyData simulateMonteCarlo].
  split; [apply runYears_nth; rewrite Ht; lia|].
  split; [apply runYears_nth; rewrite Ht; lia|].
  split; [reflexivity|]. split; [reflexivity|].
  split; [exact M1|]. split; [exact M20|].
  intros (first & last & E1 & E2 & Hlt).
  rewrite M1 in E1. rewrite M20 in E2.
  injection E1 as <-. injection E2 as <-. lra.
Qed.

(** C8.  For [annualWithdrawalRate = 4], [inflationRate = 3],
    [volatility = 0], [contributionYears = 0], [withdrawalStartYear = 0] and
    [withdrawalYears = 20], whatever the return, the expense ratio and the
    tax mode are, provided the pension is not negative and the monthly
    amount locked in at the first withdrawal,
    [initialAmount * exp monthlyDrift * 4 / 100 / 12], still exceeds the
    pension by at least one half after a year of deflation (a factor
    [100 / 103]): the withdrawing years are the years 1 to 20, and the median
    yearly withdrawal reported for year 20 is strictly below the one
    reported for year 1. *)
Theorem C8_median_withdrawal_decreases (cfg : MonteCarloInput) :
  annualWithdrawalRate cfg = Some 4 ->
  inflationRate cfg = 3 ->
  volatility cfg = 0 ->
  contributionYears cfg = 0%nat ->
  withdrawalStartYear cfg = 0%nat ->
  withdrawalYears cfg = 20%nat ->
  0 <= pension0 cfg ->
  pension0 cfg + 1 / 2
  <= initialAmount cfg * exp (monthlyDrift cfg) * 4 / 100 / 12 * (100 / 103) ->
  (forall (y : nat) (dy : MonteCarloYearData),
      nth_error (yearlyData (simulateMonteCarlo cfg)) y = Some dy ->
      (isWithdrawing dy = true <-> (1 <= y <= 20)%nat))
  /\ exists (dFirst dLast : MonteCarloYearData) (first last : R),
       nth_error (yearlyData (simulateMonteCarlo cfg)) 1 = Some dFirst
       /\ nth_error (yearlyData (simulateMonteCarlo cfg)) 20 = Some dLast
       /\ medianYearlyWithdrawal dFirst = Some first
       /\ medianYearlyWithdrawal dLast = Some last
       /\ last < first.
Proof.
  intros Hr Hi Hv Hc Hs Hw Hp He.
  assert (Htot : totalYears cfg = 20%nat).
  { unfold totalYears. rewrite Hc, Hs, Hw. reflexivity. }
  assert (He' : pension0 cfg + 1 / 2 <= steadyLockIn cfg * (100 / 103)).
  { unfold steadyLockIn, steadyGrowth, rate0. rewrite Hr.
    replace ((mu cfg - ri cfg) / 12) with (monthlyDrift cfg).
    - lra.
    - unfold monthlyDrift, sigma. rewrite Hv. lra. }
  split.
  - intros y dy Hy. cbn [yearlyData simulateMonteCarlo] in Hy.
    assert (Hlen : (y < 21)%nat).
    { assert (Hn : nth_error (st_yearlyData (runYears cfg (totalYears cfg))) y
                   <> None) by congruence.
      apply nth_error_Some in Hn.
      rewrite runYears_length, Htot in Hn. exact Hn. }
    destruct y as [|y].
    + rewrite runYears_head in Hy. injection Hy as <-.
      cbn [isWithdrawing year0]. split; [discriminate|lia].
    + rewrite runYears_nth in Hy by (rewrite Htot; lia).
      injection Hy as <-. unfold yearSnapshot.
      cbn [isWithdrawing snapshot]. unfold withdrawingAt.
      rewrite Hs, Hw, andb_true_iff, Nat.ltb_lt, Nat.leb_le. lia.
  - destruct (scenario_medians cfg Hr Hi Hv Hc Hs Hw Hp He')
      as (first & last & E1 & E2 & Hlt).
    exists (yearSnapshot cfg 1), (yearSnapshot cfg 20), first, last.
    cbn [yearlyData simulateMonteCarlo].
    rewrite !runYears_nth by (rewrite Htot; lia).
    repeat split; assumption.
Qed.

(** * Instances on the sample inputs *)

Lemma C3_withdrawal_step_witness :
  let cfg := deflatingWithdrawal in
  let path := {| value := 2000000; basis := 1000000;
                 yearlyW := 0; initW := 0 |} in
  let v := value path * exp (monthlyDrift cfg + monthlySigma cfg * 0) in
  let b := basis path in
  let w := if isRateMode cfg then lockIn cfg v path * 1 else 100000 in
  let p := match monthlyPensionIncome cfg with Some x => x | None => 0 end in
  let net := Rmax (w - p) 0 in
  0 < v
  /\ basis (pathBody cfg false true 1 100000 0 path)
     = b * (1 - Rmin (net / v) 1).
Proof.
  intros cfg path v b w p net.
  assert (Hv : 0 < v).
  { apply Rmult_lt_0_compat; [cbn [value path]; lra | apply exp_pos]. }
  split; [exact Hv|].
  exact (proj1 (proj2 (proj2
           (C3_withdrawal_step cfg false 1 100000 0 path Hv)))).
Defined.

Lemma C4_phase_schedule_witness :
  (1 <= 20 <= totalYears deflatingWithdrawal)%nat
  /\ exists d,
       nth_error (yearlyData (simulateMonteCarlo deflatingWithdrawal)) 20
       = Some d
       /\ year d = 20%nat.
Proof.
  assert (H : (1 <= 20 <= totalYears deflatingWithdrawal)%nat).
  { unfold totalYears.
    cbn [contributionYears withdrawalStartYear withdrawalYears
         deflatingWithdrawal Nat.add Nat.max]. lia. }
  split; [exact H|].
  apply (proj1 (proj2 (proj2 (C4_phase_schedule deflatingWithdrawal)))).
  apply H.
Defined.

Lemma C7_no_withdrawal_years_witness :
  withdrawalYears losingMarket = 0%nat
  /\ depletionProbability (simulateMonteCarlo losingMarket) = 0
  /\ Forall (fun d => depletionRate d = None)
            (yearlyData (simulateMonteCarlo losingMarket)).
Proof.
  split; [reflexivity|].
  apply (C7_no_withdrawal_years losingMarket). reflexivity.
Defined.

Lemma C2_rate_mode_priority_witness :
  annualWithdrawalRate deflatingWithdrawal = Some 4
  /\ 0 < 4
  /\ isRateMode deflatingWithdrawal = true
  /\ simulateMonteCarlo (withMonthlyWithdrawal (Some 100000) deflatingWithdrawal)
     = simulateMonteCarlo deflatingWithdrawal.
Proof.
  split; [reflexivity|]. split; [lra|].
  destruct (C2_rate_mode_priority deflatingWithdrawal 4) as (A & B & _).
  - reflexivity.
  - lra.
  - split; [exact A | apply B].
Defined.

Lemma C9_cost_basis_bounds_witness :
  0 <= initialAmount losingMarket
  /\ 0 <= monthlyContribution losingMarket
  /\ forall p : Path,
       In p (st_rows (atMonth losingMarket 1 1)) ->
       0 <= basis p <= st_totalPrincipal (atMonth losingMarket 1 1).
Proof.
  assert (Hi : 0 <= initialAmount losingMarket)
    by (cbn [initialAmount losingMarket]; lra).
  assert (Hc : 0 <= monthlyContribution losingMarket)
    by (cbn [monthlyContribution losingMarket]; lra).
  split; [exact Hi|]. split; [exact Hc|].
  intros p. apply (proj1 (C9_cost_basis_bounds losingMarket Hi Hc) 0%nat 1%nat p).
Defined.

Lemma C8_median_withdrawal_decreases_witness :
  annualWithdrawalRate deflatingWithdrawal = Some 4
  /\ inflationRate deflatingWithdrawal = 3
  /\ volatility deflatingWithdrawal = 0
  /\ 0 <= pension0 deflatingWithdrawal
  /\ pension0 deflatingWithdrawal + 1 / 2
     <= initialAmount deflatingWithdrawal
        * exp (monthlyDrift deflatingWithdrawal) * 4 / 100 / 12 * (100 / 103)
  /\ exists (dFirst dLast : MonteCarloYearData) (first last : R),
       nth_error (yearlyData (simulateMonteCarlo deflatingWithdrawal)) 1
       = Some dFirst
       /\ nth_error (yearlyData (simulateMonteCarlo deflatingWithdrawal)) 20
          = Some dLast
       /\ medianYearlyWithdrawal dFirst = Some first
       /\ medianYearlyWithdrawal dLast = Some last
       /\ last < first.
Proof.
  assert (Hp : 0 <= pension0 deflatingWithdrawal).
  { unfold pension0. cbn [monthlyPensionIncome deflatingWithdrawal]. lra. }
  assert (Hg : 1 <= exp (monthlyDrift deflatingWithdrawal)).
  { pose proof (exp_ineq1_le (monthlyDrift deflatingWithdrawal)) as H.
    assert (0 <= monthlyDrift deflatingWithdrawal); [|lra].
    unfold monthlyDrift, mu, ri, sigma, expenseRatio0.
    cbn [annualReturnRate expenseRatio inflationRate volatility
         deflatingWithdrawal]. lra. }
  assert (He : pension0 deflatingWithdrawal + 1 / 2
               <= initialAmount deflatingWithdrawal
                  * exp (monthlyDrift deflatingWithdrawal)
                  * 4 / 100 / 12 * (100 / 103)).
  { unfold pension0.
    cbn [monthlyPensionIncome initialAmount deflatingWithdrawal]. lra. }
  split; [reflexivity|]. split; [reflexivity|]. split; [reflexivity|].
  split; [exact Hp|]. split; [exact He|].
  apply (C8_median_withdrawal_decreases deflatingWithdrawal);
    try reflexivity; assumption.
Defined.

(** * Further properties of the engine *)

(** ** Generator *)

(** X1.  Every call of the [mulberry32] closure returns a number that is at
    least 0 and strictly below 1, whatever the state of the closure is. *)
Theorem X1_uniform_in_unit_interval (s : Z) :
  0 <= fst (Generator.rng s) < 1.
Proof. apply rng_range. Qed.

(** A draw that is not 0 is at least [2^-32], hence above the replacement
    value [1e-10]. *)
Lemma rng_zero_or_large (s : Z) :
  fst (Generator.rng s) = 0 \/ 1 / 4294967296 <= fst (Generator.rng s).
Proof.
  unfold Generator.rng.
  pose proof (mulberry32_bits_range s) as [H0 _].
  destruct (Generator.mulberry32_bits s) as [s' bits]. cbn [fst snd] in *.
  destruct (Z.eq_dec bits 0) as [->|Hne].
  - left. unfold Rdiv. apply Rmult_0_l.
  - right. assert (H1 : (1 <= bits)%Z) by lia. apply IZR_le in H1.
    unfold Rdiv. apply Rmult_le_compat_r; [|exact H1].
    left. apply Rinv_0_lt_compat. lra.
Qed.

Lemma ln_10_le_4 : ln 10 <= 4.
Proof.
  assert (H2 : 2 <= exp 1) by (pose proof (exp_ineq1_le 1); lra).
  assert (H4 : 10 <= exp 4).
  { replace 4 with (1 + 1 + (1 + 1)) by lra. rewrite !exp_plus.
    assert (H22 : 4 <= exp 1 * exp 1) by nra. nra. }
  rewrite <- (ln_exp 4).
  destruct (Rle_lt_or_eq_dec _ _ H4) as [Hlt|Heq].
  - left. apply ln_increasing; lra.
  - rewrite Heq. apply Rle_refl.
Qed.

Lemma ln_lower_bound (u : R) :
  1 / 10000000000 <= u -> - 40 <= ln u.
Proof.
  intros Hu.
  assert (Hl : ln (1 / 10000000000) = - (10 * ln 10)).
  { replace (1 / 10000000000) with (/ 10 ^ 10) by (cbn [pow]; field).
    rewrite ln_Rinv by (apply pow_lt; lra).
    rewrite ln_pow by lra.
    replace (INR 10) with 10 by (simpl; lra). reflexivity. }
  pose proof ln_10_le_4 as H4.
  destruct (Rle_lt_or_eq_dec _ _ Hu) as [Hlt|Heq].
  - apply ln_increasing in Hlt; lra.
  - rewrite <- Heq. lra.
Qed.

Lemma normalRandom_bound (s : Z) : Rabs (fst (Generator.normalRandom s)) <= 9.
Proof.
  unfold Generator.normalRandom.
  pose proof (rng_range s) as [U0 U1].
  pose proof (rng_zero_or_large s) as Uz.
  destruct (Generator.rng s) as [u1 s1]. cbn [fst] in U0, U1, Uz.
  destruct (Generator.rng s1) as [u2 s2]. cbn [fst].
  set (u := if Req_dec_T u1 0 then 1 / 10000000000 else u1).
  assert (Hu : 1 / 10000000000 <= u < 1).
  { subst u. destruct (Req_dec_T u1 0) as [E|N]; [lra|].
    destruct Uz as [E|L]; [contradiction|lra]. }
  assert (Hln : - 40 <= ln u < 0).
  { split; [apply ln_lower_bound; lra|].
    rewrite <- ln_1. apply ln_increasing; lra. }
  rewrite Rabs_mult.
  assert (Hs : 0 <= sqrt (-2 * ln u) <= 9).
  { split; [apply sqrt_pos|].
    replace 9 with (sqrt (9 * 9)) by (apply sqrt_square; lra).
    apply sqrt_le_1_alt. lra. }
  rewrite (Rabs_pos_eq _ (proj1 Hs)).
  pose proof (COS_bound (2 * PI * u2)) as [C0 C1].
  assert (Hc : 0 <= Rabs (cos (2 * PI * u2)) <= 1).
  { split; [apply Rabs_pos|]. apply Rabs_le. lra. }
  nra.
Qed.

(** X2.  Every Gaussian deviate produced by the Box-Muller transform has
    magnitude at most 9: the first uniform draw, with 0 replaced by [1e-10],
    stays in [1e-10, 1), so the logarithm is negative and bounded below. *)
Theorem X2_normal_deviate_bounded (s : Z) :
  - 9 <= fst (Generator.normalRandom s) <= 9.
Proof.
  pose proof (normalRandom_bound s) as H.
  unfold Rabs in H.
  destruct (Rcase_abs (fst (Generator.normalRandom s))); lra.
Qed.

(** ** Invariants of the paths *)

(** A property of a path that holds at the start, survives the yearly reset
    and every path step, holds for every path at every month of the run. *)
Lemma rows_invariant (cfg : MonteCarloInput) (P : Path -> Prop) :
  P (initPath cfg) ->
  (forall p, P p -> P (clearYearly p)) ->
  (forall yr mult curW z p,
      P p ->
      P (pathBody cfg (contributingAt cfg yr) (withdrawingAt cfg yr)
                  mult curW z p)) ->
  (forall n, Forall P (st_rows (runYears cfg n)))
  /\ (forall y m, Forall P (st_rows (atMonth cfg (S y) m))).
Proof.
  intros Hinit Hclear Hstep.
  assert (Hmonths : forall yr m st,
             Forall P (st_rows st) ->
             Forall P (st_rows (monthsOfYear cfg yr m st))).
  { intros yr m st Hst. induction m as [|m IH].
    - rewrite monthsOfYear_0. unfold beginYear. cbn [st_rows].
      destruct (isRateMode cfg); [|exact Hst].
      apply Forall_map. eapply Forall_impl; [|exact Hst]. exact Hclear.
    - rewrite monthsOfYear_S.
      eapply monthStep_rows_Forall; [|exact IH].
      intros mult curW z p. apply Hstep. }
  assert (Hyears : forall n, Forall P (st_rows (runYears cfg n))).
  { induction n as [|n IH].
    - rewrite runYears_0. cbn [st_rows initState].
      apply Forall_forall. intros p Hp. apply repeat_spec in Hp. subst p.
      exact Hinit.
    - rewrite runYears_S, yearStep_rows. apply Hmonths, IH. }
  split; [exact Hyears|].
  intros y m. rewrite atMonth_S. apply Hmonths, Hyears.
Qed.

Lemma taxRate_range (cfg : MonteCarloInput) : 0 <= taxRate cfg <= 1.
Proof.
  unfold taxRate, TAX_RATE. destruct (taxFree cfg) as [[|]|]; lra.
Qed.

Lemma withdrawal_gainRatio_range (cfg : MonteCarloInput) (base v b : R) :
  0 < v -> 0 <= b -> 0 <= gainRatio (withdrawal cfg base v b) <= 1.
Proof.
  intros Hv Hb. unfold withdrawal. cbn [gainRatio].
  destruct (Rlt_dec b v) as [Hlt|_]; [|lra]. split.
  - apply Rmult_le_pos; [lra|]. left. apply Rinv_0_lt_compat, Hv.
  - apply Rmult_le_reg_r with v; [exact Hv|].
    unfold Rdiv. rewrite Rmult_assoc, Rinv_l by lra. lra.
Qed.

Lemma withdrawal_value_bounds (cfg : MonteCarloInput) (base v b : R) :
  0 < v -> 0 <= b -> 0 <= valueAfter (withdrawal cfg base v b) <= v.
Proof.
  intros Hv Hb.
  pose proof (withdrawal_gainRatio_range cfg base v b Hv Hb) as Hg.
  pose proof (taxRate_range cfg) as Ht.
  unfold withdrawal in *. cbn [gainRatio valueAfter] in *.
  set (net := Rmax (base - pension0 cfg) 0) in *.
  assert (Hnet : 0 <= net) by apply Rmax_r.
  set (gr := if Rlt_dec b v then (v - b) / v else 0) in *.
  assert (Htax : 0 <= net * gr * taxRate cfg).
  { apply Rmult_le_pos; [apply Rmult_le_pos|]; lra. }
  destruct (Rlt_dec (v - net - net * gr * taxRate cfg) 0); lra.
Qed.

(** X4.  A withdrawal from a path with positive value [v] and non-negative
    cost basis [b] never raises the value or the cost basis and leaves both
    at least 0; a net withdrawal of [v] or more empties the path and clears
    its cost basis; and when the pension covers the base need, nothing is
    withdrawn, no tax is due and value and cost basis are unchanged. *)
Theorem X4_withdrawal_bounds (cfg : MonteCarloInput) (base v b : R) :
  0 < v -> 0 <= b ->
  let w := withdrawal cfg base v b in
  0 <= valueAfter w <= v
  /\ 0 <= basisAfter w <= b
  /\ (v <= netWithdrawal w -> valueAfter w = 0 /\ basisAfter w = 0)
  /\ (base <= pension0 cfg ->
      netWithdrawal w = 0 /\ taxOnWithdrawal w = 0
      /\ valueAfter w = v /\ basisAfter w = b).
Proof.
  intros Hv Hb w. subst w.
  split; [apply withdrawal_value_bounds; assumption|].
  split; [apply withdrawal_basis_bounds; assumption|].
  pose proof (withdrawal_gainRatio_range cfg base v b Hv Hb) as Hg.
  pose proof (taxRate_range cfg) as Ht.
  unfold withdrawal in *.
  cbn [gainRatio netWithdrawal taxOnWithdrawal valueAfter basisAfter] in *.
  set (net := Rmax (base - pension0 cfg) 0) in *.
  set (gr := if Rlt_dec b v then (v - b) / v else 0) in *.
  split.
  - intros Hfull.
    assert (Htax : 0 <= net * gr * taxRate cfg).
    { apply Rmult_le_pos; [apply Rmult_le_pos|]; lra. }
    assert (Hq : 1 <= net / v).
    { apply Rmult_le_reg_r with v; [exact Hv|].
      unfold Rdiv. rewrite Rmult_assoc, Rinv_l by lra. lra. }
    rewrite (Rmin_right (net / v) 1 Hq). split; [|ring].
    destruct (Rlt_dec (v - net - net * gr * taxRate cfg) 0) as [_|Hn];
      [reflexivity|lra].
  - intros Hp.
    assert (Hnet : net = 0) by (subst net; apply Rmax_right; lra).
    rewrite Hnet. unfold Rdiv. rewrite !Rmult_0_l.
    rewrite (Rmin_left 0 1) by lra.
    split; [reflexivity|]. split; [reflexivity|]. split; [|ring].
    destruct (Rlt_dec (v - 0 - 0) 0) as [Hn|_]; lra.
Qed.

Lemma pathBody_value_nonneg (cfg : MonteCarloInput) (isC isW : bool)
      (mult curW z : R) (p : Path) :
  0 <= monthlyContribution cfg ->
  0 <= value p /\ 0 <= basis p ->
  0 <= value (pathBody cfg isC isW mult curW z p)
  /\ 0 <= basis (pathBody cfg isC isW mult curW z p).
Proof.
  intros Hc [Hv Hb]. unfold pathBody.
  set (g := exp _). assert (Hg : 0 < g) by apply exp_pos.
  set (v := if isC then _ else _).
  set (b := if isC then basis p + monthlyContribution cfg else basis p).
  assert (Hv2 : 0 <= v) by (subst v; destruct isC; nra).
  assert (Hb2 : 0 <= b) by (subst b; destruct isC; lra).
  destruct (isW && Rltb 0 v) eqn:E.
  - apply andb_true_iff in E. destruct E as [_ Hpos]. apply Rltb_true in Hpos.
    destruct (isRateMode cfg); cbn [value basis]; split;
      first [ apply withdrawal_value_bounds; assumption
            | apply withdrawal_basis_bounds; assumption ].
  - cbn [value basis]. split; assumption.
Qed.

Lemma values_nonneg (cfg : MonteCarloInput) :
  0 <= initialAmount cfg ->
  0 <= monthlyContribution cfg ->
  (forall n,
      Forall (fun p => 0 <= value p /\ 0 <= basis p) (st_rows (runYears cfg n)))
  /\ (forall y m,
         Forall (fun p => 0 <= value p /\ 0 <= basis p)
                (st_rows (atMonth cfg (S y) m))).
Proof.
  intros Hi Hc. apply rows_invariant.
  - cbn [value basis initPath]. split; exact Hi.
  - intros p Hp. exact Hp.
  - intros yr mult curW z p Hp. apply pathBody_value_nonneg; assumption.
Qed.

(** X3.  For non-negative [initialAmount] and [monthlyContribution], no path
    value is ever negative: at the end of every simulated month every path
    has a value of at least 0, and the lowest reported percentile [p10] of
    every yearly record is at least 0. *)
Theorem X3_values_never_negative (cfg : MonteCarloInput) :
  0 <= initialAmount cfg ->
  0 <= monthlyContribution cfg ->
  (forall (y m : nat) (p : Path),
      In p (st_rows (atMonth cfg (S y) m)) -> 0 <= value p)
  /\ Forall (fun d => 0 <= p10 d) (yearlyData (simulateMonteCarlo cfg)).
Proof.
  intros Hi Hc. destruct (values_nonneg cfg Hi Hc) as [_ Hm]. split.
  - intros y m p Hp. specialize (Hm y m). rewrite Forall_forall in Hm.
    apply (Hm p Hp).
  - apply Forall_forall. intros d Hd.
    cbn [yearlyData simulateMonteCarlo] in Hd. apply runYears_In in Hd.
    destruct Hd as [->|(y & Hy & ->)]; [exact Hi|].
    destruct y as [|y]; [lia|].
    unfold yearSnapshot, yearEnd. cbn [p10 snapshot]. rewrite pctIndex_10.
    apply (IZR_le 0). apply js_floor_nonneg.
    assert (0 <= cell (sortF64 (map value (st_rows (atMonth cfg (S y) 12))))
                      500); [|lra].
    pose proof (sorted_cell_In (map value (st_rows (atMonth cfg (S y) 12)))
                               500) as Hin.
    rewrite length_map, atMonth_rows_length in Hin.
    specialize (Hin ltac:(apply Nat.ltb_lt; vm_compute; reflexivity)).
    apply in_map_iff in Hin. destruct Hin as (p & <- & Hp).
    specialize (Hm y 12%nat). rewrite Forall_forall in Hm. apply (Hm p Hp).
Qed.

(** ** Yearly records *)

(** X5.  In every yearly record, [depletionRate] is present exactly when the
    record is flagged withdrawing, and [medianYearlyWithdrawal] is present
    exactly when the record is flagged withdrawing and the run is in rate
    mode; in particular a run in fixed-amount mode never reports a median
    yearly withdrawal. *)
Theorem X5_optional_fields (cfg : MonteCarloInput) :
  Forall (fun d =>
            (depletionRate d <> None <-> isWithdrawing d = true)
            /\ (medianYearlyWithdrawal d <> None
                <-> isWithdrawing d = true /\ isRateMode cfg = true))
         (yearlyData (simulateMonteCarlo cfg)).
Proof.
  apply Forall_forall. intros d Hd.
  cbn [yearlyData simulateMonteCarlo] in Hd. apply runYears_In in Hd.
  destruct Hd as [->|(y & _ & ->)].
  - cbn [depletionRate medianYearlyWithdrawal isWithdrawing year0].
    split; split; intros H; try congruence. destruct H. discriminate.
  - unfold yearSnapshot.
    cbn [depletionRate medianYearlyWithdrawal isWithdrawing snapshot].
    destruct (withdrawingAt cfg y), (isRateMode cfg); cbn [andb];
      split; split; intros H; try congruence;
      try (split; reflexivity); try (destruct H; discriminate).
Qed.

Lemma countIf_le_length {A : Type} (f : A -> bool) (l : list A) :
  (countIf f l <= length l)%nat.
Proof. unfold countIf. apply filter_length_le. Qed.

Lemma share_in_unit_interval {A : Type} (f : A -> bool) (l : list A) :
  length l = NUM_SIMULATIONS ->
  0 <= INR (countIf f l) / INR NUM_SIMULATIONS <= 1.
Proof.
  intros Hl. pose proof NUM_SIMULATIONS_pos as HN.
  pose proof (countIf_le_length f l) as Hc. rewrite Hl in Hc.
  apply le_INR in Hc. pose proof (pos_INR (countIf f l)) as H0.
  split.
  - apply Rmult_le_pos; [exact H0|]. left. apply Rinv_0_lt_compat, HN.
  - apply Rmult_le_reg_r with (INR NUM_SIMULATIONS); [exact HN|].
    unfold Rdiv. rewrite Rmult_assoc, Rinv_l by lra. lra.
Qed.

Lemma lastDepletionRate_range (ys : list MonteCarloYearData) :
  Forall (fun d => forall r, depletionRate d = Some r -> 0 <= r <= 1) ys ->
  0 <= lastDepletionRate ys <= 1.
Proof.
  intros H. unfold lastDepletionRate.
  destruct (rev ys) as [|d r] eqn:E; [lra|].
  assert (Hd : In d ys) by (apply in_rev; rewrite E; left; reflexivity).
  rewrite Forall_forall in H. specialize (H d Hd).
  destruct (depletionRate d) as [x|]; [apply H; reflexivity | lra].
Qed.

Lemma snapshot_depletionRate_range (cfg : MonteCarloInput) (yr : nat)
      (rows : list Path) (sorted : list R) (tp : R) :
  length rows = NUM_SIMULATIONS ->
  forall r, depletionRate (snapshot cfg yr rows sorted tp) = Some r ->
            0 <= r <= 1.
Proof.
  intros Hl r Hr. cbn [depletionRate snapshot] in Hr.
  destruct (withdrawingAt cfg yr); [|discriminate].
  injection Hr as <-. apply share_in_unit_interval, Hl.
Qed.

(** X6.  The failure probability, the depletion probability and the
    depletion rate of every yearly record are shares of the 5000 paths:
    each lies between 0 and 1. *)
Theorem X6_probabilities_in_unit_interval (cfg : MonteCarloInput) :
  0 <= failureProbability (simulateMonteCarlo cfg) <= 1
  /\ 0 <= depletionProbability (simulateMonteCarlo cfg) <= 1
  /\ Forall (fun d => forall r, depletionRate d = Some r -> 0 <= r <= 1)
            (yearlyData (simulateMonteCarlo cfg)).
Proof.
  assert (Hall : Forall (fun d => forall r,
                             depletionRate d = Some r -> 0 <= r <= 1)
                        (yearlyData (simulateMonteCarlo cfg))).
  { apply Forall_forall. intros d Hd r Hr.
    cbn [yearlyData simulateMonteCarlo] in Hd. apply runYears_In in Hd.
    destruct Hd as [->|(y & _ & ->)]; [discriminate|].
    revert r Hr. apply snapshot_depletionRate_range, atMonth_rows_length. }
  split; [|split; [|exact Hall]].
  - cbn [failureProbability simulateMonteCarlo].
    apply share_in_unit_interval, runYears_rows_length.
  - cbn [depletionProbability simulateMonteCarlo].
    apply lastDepletionRate_range. exact Hall.
Qed.

(** X8.  In every yearly record the reported principal does not exceed the
    reported median [p50]. *)
Theorem X8_principal_at_most_median (cfg : MonteCarloInput) :
  Forall (fun d => principal d <= p50 d) (yearlyData (simulateMonteCarlo cfg)).
Proof.
  apply Forall_forall. intros d Hd.
  cbn [yearlyData simulateMonteCarlo] in Hd. apply runYears_In in Hd.
  destruct Hd as [->|(y & _ & ->)].
  - cbn [principal p50 year0]. apply Rle_refl.
  - unfold yearSnapshot. cbn [principal p50 snapshot].
    apply js_round_IZR_mono, Rmin_r.
Qed.

(** ** Principal *)

Lemma monthsOfYear_totalPrincipal (cfg : MonteCarloInput) (yr m : nat)
      (st : SimState) :
  st_totalPrincipal (monthsOfYear cfg yr m st)
  = st_totalPrincipal st
    + (if contributingAt cfg yr then INR m * monthlyContribution cfg else 0).
Proof.
  induction m as [|m IH].
  - rewrite monthsOfYear_0. cbn [st_totalPrincipal beginYear INR].
    destruct (contributingAt cfg yr); lra.
  - rewrite monthsOfYear_S.
    destruct (monthStep_fields cfg yr (monthsOfYear cfg yr m st)) as (_ & E & _).
    rewrite E, IH, S_INR. destruct (contributingAt cfg yr); lra.
Qed.

Lemma runYears_totalPrincipal (cfg : MonteCarloInput) (n : nat) :
  st_totalPrincipal (runYears cfg n)
  = initialAmount cfg
    + 12 * INR (Nat.min n (contributionYears cfg)) * monthlyContribution cfg.
Proof.
  induction n as [|n IH].
  - rewrite runYears_0. cbn [st_totalPrincipal initState Nat.min INR]. lra.
  - rewrite runYears_S, yearStep_totalPrincipal, monthsOfYear_totalPrincipal, IH.
    replace (INR 12) with 12 by (simpl; lra).
    unfold contributingAt.
    destruct (Nat.leb_spec (S n) (contributionYears cfg)) as [Hle|Hgt].
    + rewrite (Nat.min_l (S n)) by lia. rewrite (Nat.min_l n) by lia.
      rewrite S_INR. lra.
    + rewrite (Nat.min_r (S n)) by lia. rewrite (Nat.min_r n) by lia. lra.
Qed.

(** X9.  The principal the run ends with is [initialAmount] plus twelve
    contributions for each of the [contributionYears] years, whatever the
    withdrawal phase is; the failure probability is the share of the paths
    whose final value is strictly below that amount. *)
Theorem X9_final_principal (cfg : MonteCarloInput) :
  let total := initialAmount cfg
               + 12 * INR (contributionYears cfg) * monthlyContribution cfg in
  st_totalPrincipal (finalState cfg) = total
  /\ failureProbability (simulateMonteCarlo cfg)
     = INR (countIf (fun p => Rltb (value p) total) (st_rows (finalState cfg)))
       / INR NUM_SIMULATIONS.
Proof.
  intros total.
  assert (E : st_totalPrincipal (finalState cfg) = total).
  { unfold finalState. rewrite runYears_totalPrincipal.
    rewrite Nat.min_r by (unfold totalYears; lia). reflexivity. }
  split; [exact E|].
  cbn [failureProbability simulateMonteCarlo].
  fold (finalState cfg). rewrite E. reflexivity.
Qed.

(** ** Runs without a simulated year *)

(** X10.  When [contributionYears], [withdrawalStartYear] and
    [withdrawalYears] are all 0 no year is simulated: the result holds the
    record of year 0 alone, both probabilities are 0, and the histogram is a
    single depleted bin with all 5000 paths, whatever [initialAmount] is. *)
Theorem X10_no_simulated_year (cfg : MonteCarloInput) :
  contributionYears cfg = 0%nat ->
  withdrawalStartYear cfg = 0%nat ->
  withdrawalYears cfg = 0%nat ->
  yearlyData (simulateMonteCarlo cfg) = [year0 cfg]
  /\ failureProbability (simulateMonteCarlo cfg) = 0
  /\ depletionProbability (simulateMonteCarlo cfg) = 0
  /\ distribution (simulateMonteCarlo cfg)
     = [ {| rangeEnd := 0; count := NUM_SIMULATIONS; isDepleted := true |} ].
Proof.
  intros Hc Hs Hw.
  assert (H0 : totalYears cfg = 0%nat).
  { unfold totalYears. rewrite Hc, Hs, Hw. reflexivity. }
  split; [|split; [|split]].
  - cbn [yearlyData simulateMonteCarlo]. rewrite H0, runYears_yearlyData.
    reflexivity.
  - cbn [failureProbability simulateMonteCarlo]. rewrite H0, runYears_0.
    cbn [st_rows st_totalPrincipal initState].
    rewrite countIf_none.
    + cbn [INR]. unfold Rdiv. apply Rmult_0_l.
    + apply Forall_forall. intros p Hp. apply repeat_spec in Hp. subst p.
      cbn [value initPath]. apply Rltb_false. lra.
  - cbn [depletionProbability simulateMonteCarlo].
    rewrite H0, runYears_yearlyData. reflexivity.
  - apply no_years_histogram, H0.
Qed.

Lemma X10_no_simulated_year_witness :
  contributionYears noYears = 0%nat
  /\ initialAmount noYears = 1000000
  /\ yearlyData (simulateMonteCarlo noYears) = [year0 noYears]
  /\ distribution (simulateMonteCarlo noYears)
     = [ {| rangeEnd := 0; count := NUM_SIMULATIONS; isDepleted := true |} ].
Proof.
  split; [reflexivity|]. split; [reflexivity|].
  destruct (X10_no_simulated_year noYears) as (A & _ & _ & D);
    try reflexivity.
  split; [exact A | exact D].
Defined.

(** ** Runs without volatility *)

(** Every cell of the sorted copy of a constant buffer holds the constant. *)
Lemma uniform_sorted_cell (rows : list Path) (p0 : Path) (i : nat) :
  Forall (fun p => p = p0) rows ->
  (i < length rows)%nat ->
  cell (sortF64 (map value rows)) i = value p0.
Proof.
  intros H Hi.
  pose proof (sorted_cell_In (map value rows) i) as Hin.
  rewrite length_map in Hin. specialize (Hin Hi).
  apply in_map_iff in Hin. destruct Hin as (p & <- & Hp).
  rewrite Forall_forall in H. rewrite (H p Hp). reflexivity.
Qed.

Lemma uniform_snapshot (cfg : MonteCarloInput) (yr : nat) (rows : list Path)
      (tp : R) :
  length rows = NUM_SIMULATIONS ->
  (exists p0, Forall (fun p => p = p0) rows) ->
  let d := snapshot cfg yr rows (sortF64 (map value rows)) tp in
  p10 d = p25 d /\ p25 d = p50 d /\ p50 d = p75 d /\ p75 d = p90 d.
Proof.
  intros Hl [p0 H0] d. subst d. cbn [p10 p25 p50 p75 p90 snapshot].
  rewrite pctIndex_10, pctIndex_25, pctIndex_50, pctIndex_75, pctIndex_90.
  rewrite !(uniform_sorted_cell rows p0) by
      (try exact H0; rewrite Hl; apply Nat.ltb_lt; vm_compute; reflexivity).
  repeat split.
Qed.

(** X7.  With [volatility = 0] the deviates have no effect: all paths stay
    identical, and in every yearly record the five percentiles coincide. *)
Theorem X7_no_volatility_no_spread (cfg : MonteCarloInput) :
  volatility cfg = 0 ->
  Forall (fun d =>
            p10 d = p25 d /\ p25 d = p50 d /\ p50 d = p75 d /\ p75 d = p90 d)
         (yearlyData (simulateMonteCarlo cfg)).
Proof.
  intros Hv. apply Forall_forall. intros d Hd.
  cbn [yearlyData simulateMonteCarlo] in Hd. apply runYears_In in Hd.
  destruct Hd as [->|(y & _ & ->)].
  - cbn [p10 p25 p50 p75 p90 year0]. repeat split.
  - apply uniform_snapshot; [apply atMonth_rows_length|].
    apply uniform_monthsOfYear; [exact Hv|]. apply uniform_runYears, Hv.
Qed.

Lemma X7_no_volatility_no_spread_witness :
  volatility losingMarket = 0
  /\ Forall (fun d =>
               p10 d = p25 d /\ p25 d = p50 d /\ p50 d = p75 d
               /\ p75 d = p90 d)
            (yearlyData (simulateMonteCarlo losingMarket)).
Proof.
  split; [reflexivity|].
  apply (X7_no_volatility_no_spread losingMarket). reflexivity.
Defined.

(** ** Range ends of the histogram *)

(** The bins that are not the depleted bin, in order: bin [b] ends at
    [(b + 1) * binWidth], rounded. *)
Lemma buildDistribution_nondepleted (sorted : list R) :
  let binWidth := Rmax (cell sorted (pctIndex (9 / 10))) 1 / 10 in
  exists (n : nat) (cnt : nat -> nat),
    filter (fun b => negb (isDepleted b)) (buildDistribution sorted)
    = map (fun b =>
             {| rangeEnd := IZR (js_round (INR (b + 1) * binWidth));
                count := cnt b;
                isDepleted := false |})
          (seq 0 n).
Proof.
  intros binWidth. unfold buildDistribution.
  change (IZR NUM_MAIN_BINS) with 10. fold binWidth.
  set (dc := countIf (fun x => Rleb x 0) sorted).
  assert (Hdep : filter (fun b => negb (isDepleted b))
                        (if (0 <? dc)%nat
                         then [ {| rangeEnd := 0; count := dc;
                                   isDepleted := true |} ]
                         else []) = []).
  { destruct (0 <? dc)%nat; reflexivity. }
  destruct (Rltb 0 (cell sorted (NUM_SIMULATIONS - 1))).
  - set (nb := Z.min _ _).
    exists (Z.to_nat nb),
           (fun b => nth b (fillBins binWidth nb sorted) 0%nat).
    rewrite filter_app, Hdep. cbn [app].
    apply forallb_filter_id. apply forallb_forall.
    intros b Hb. apply in_map_iff in Hb. destruct Hb as (k & <- & _).
    reflexivity.
  - exists 0%nat, (fun _ => 0%nat). rewrite Hdep. reflexivity.
Qed.

Lemma rangeEnd_monotone (binWidth : R) (i j : nat) :
  0 < binWidth -> (i < j)%nat ->
  IZR (js_round (INR (i + 1) * binWidth))
  <= IZR (js_round (INR (j + 1) * binWidth))
  /\ (1 <= binWidth ->
      IZR (js_round (INR (i + 1) * binWidth))
      < IZR (js_round (INR (j + 1) * binWidth))).
Proof.
  intros Hw Hij.
  assert (Hstep : INR (i + 1) + 1 <= INR (j + 1)).
  { rewrite <- S_INR. apply le_INR. lia. }
  pose proof (pos_INR (i + 1)) as Hi.
  split.
  - apply js_round_IZR_mono. nra.
  - intros H1. apply IZR_lt, js_round_gap. nra.
Qed.

Lemma StronglySorted_map_seq (R0 : R -> R -> Prop) (f : nat -> R) (a n : nat) :
  (forall i j, (i < j)%nat -> R0 (f i) (f j)) ->
  StronglySorted R0 (map f (seq a n)).
Proof.
  intros H. revert a. induction n as [|n IH]; intros a; cbn [seq map].
  - constructor.
  - constructor; [apply IH|].
    apply Forall_forall. intros x Hx. apply in_map_iff in Hx.
    destruct Hx as (k & <- & Hk). apply in_seq in Hk. apply H. lia.
Qed.

Lemma nondepleted_rangeEnds (sorted : list R) :
  let binWidth := Rmax (cell sorted (pctIndex (9 / 10))) 1 / 10 in
  exists n : nat,
    map rangeEnd
        (filter (fun b => negb (isDepleted b)) (buildDistribution sorted))
    = map (fun b => IZR (js_round (INR (b + 1) * binWidth))) (seq 0 n).
Proof.
  intros binWidth.
  destruct (buildDistribution_nondepleted sorted) as (n & cnt & E).
  exists n. rewrite E, map_map. reflexivity.
Qed.

(** X11.  Listed in order, the bins other than the depleted bin have range
    ends that never decrease, and that strictly increase as soon as the 90th
    percentile of the final values is at least 10 (bin width at least 1). *)
Theorem X11_range_ends_increase (cfg : MonteCarloInput) :
  let sorted := st_sorted (finalState cfg) in
  let ends := map rangeEnd
                  (filter (fun b => negb (isDepleted b))
                          (distribution (simulateMonteCarlo cfg))) in
  StronglySorted Rle ends
  /\ (10 <= cell sorted (pctIndex (9 / 10)) -> StronglySorted Rlt ends).
Proof.
  intros sorted ends. subst ends.
  cbn [distribution simulateMonteCarlo].
  fold (finalState cfg). fold sorted.
  destruct (nondepleted_rangeEnds sorted) as (n & ->).
  set (p90Val := cell sorted (pctIndex (9 / 10))).
  assert (Hw : 0 < Rmax p90Val 1 / 10).
  { pose proof (Rmax_r p90Val 1). lra. }
  split.
  - apply StronglySorted_map_seq. intros i j Hij.
    apply (rangeEnd_monotone _ i j Hw Hij).
  - intros H10. apply StronglySorted_map_seq. intros i j Hij.
    apply (rangeEnd_monotone _ i j Hw Hij).
    pose proof (Rmax_l p90Val 1). lra.
Qed.

(** On [flatMarket] nothing ever changes: every path keeps its initial
    row. *)
Lemma flatMarket_rows (n : nat) :
  Forall (fun p => p = initPath flatMarket) (st_rows (runYears flatMarket n)).
Proof.
  apply (rows_invariant flatMarket (fun p => p = initPath flatMarket)).
  - reflexivity.
  - intros p ->. reflexivity.
  - intros yr mult curW z p ->.
    assert (Hw : withdrawingAt flatMarket yr = false).
    { unfold withdrawingAt.
      cbn [withdrawalStartYear withdrawalYears flatMarket].
      destruct (Nat.ltb_spec 5 yr); destruct (Nat.leb_spec yr (5 + 0));
        cbn [andb]; try reflexivity. lia. }
    rewrite Hw. unfold pathBody. cbn [andb].
    rewrite monthlySigma_no_volatility by reflexivity.
    replace ((mu flatMarket - ri flatMarket) / 12) with 0.
    + rewrite exp_0.
      cbn [value basis yearlyW initW initPath initialAmount
           monthlyContribution flatMarket].
      unfold initPath. cbn [initialAmount flatMarket].
      destruct (contributingAt flatMarket yr); f_equal; lra.
    + unfold mu, ri, expenseRatio0.
      cbn [annualReturnRate inflationRate expenseRatio flatMarket]. lra.
Qed.

Lemma flatMarket_p90 :
  cell (st_sorted (finalState flatMarket)) (pctIndex (9 / 10)) = 1000000.
Proof.
  unfold finalState.
  change (totalYears flatMarket) with 5%nat.
  rewrite runYears_sorted_values, pctIndex_90.
  rewrite (uniform_sorted_cell _ (initPath flatMarket)).
  - reflexivity.
  - apply flatMarket_rows.
  - rewrite runYears_rows_length. apply Nat.ltb_lt. vm_compute. reflexivity.
Qed.

Lemma X11_range_ends_increase_witness :
  10 <= cell (st_sorted (finalState flatMarket)) (pctIndex (9 / 10))
  /\ StronglySorted Rlt
       (map rangeEnd
            (filter (fun b => negb (isDepleted b))
                    (distribution (simulateMonteCarlo flatMarket)))).
Proof.
  assert (H : 10 <= cell (st_sorted (finalState flatMarket))
                         (pctIndex (9 / 10))).
  { rewrite flatMarket_p90. lra. }
  split; [exact H|].
  apply (proj2 (X11_range_ends_increase flatMarket)). exact H.
Defined.

(** ** Depletion is final once contributions have ended *)

Lemma Forall2_compose {A : Type} (R0 : A -> A -> Prop) (l1 l2 l3 : list A) :
  (forall a b c, R0 a b -> R0 b c -> R0 a c) ->
  Forall2 R0 l1 l2 -> Forall2 R0 l2 l3 -> Forall2 R0 l1 l3.
Proof.
  intros Ht H12. revert l3. induction H12 as [|a b l1 l2 Hab _ IH];
    intros l3 H23; inversion H23; subst; constructor.
  - eapply Ht; eassumption.
  - apply IH. assumption.
Qed.

Lemma Forall2_same {A : Type} (R0 : A -> A -> Prop) (l : list A) :
  (forall a, R0 a a) -> Forall2 R0 l l.
Proof. intros Hr. induction l; constructor; auto. Qed.

Lemma Forall2_map_r {A : Type} (R0 : A -> A -> Prop) (f : A -> A) (l : list A) :
  (forall a, R0 a (f a)) -> Forall2 R0 l (map f l).
Proof. intros Hr. induction l; cbn [map]; constructor; auto. Qed.

Lemma staysDepleted_trans (a b c : Path) :
  staysDepleted a b -> staysDepleted b c -> staysDepleted a c.
Proof. unfold staysDepleted. auto. Qed.

Lemma monthStep_staysDepleted (cfg : MonteCarloInput) (yr : nat)
      (st : SimState) :
  contributingAt cfg yr = false ->
  Forall2 staysDepleted (st_rows st) (st_rows (monthStep cfg yr st)).
Proof.
  intros Hc. destruct (monthStep_fields cfg yr st) as (E & _).
  rewrite E, Hc.
  eapply Forall2_impl; [|apply pathLoop_Forall2].
  intros p q (z & ->) Hp. apply pathBody_zero, Hp.
Qed.

Lemma monthsOfYear_staysDepleted (cfg : MonteCarloInput) (yr m : nat)
      (st : SimState) :
  contributingAt cfg yr = false ->
  Forall2 staysDepleted (st_rows st) (st_rows (monthsOfYear cfg yr m st)).
Proof.
  intros Hc. induction m as [|m IH].
  - rewrite monthsOfYear_0. unfold beginYear. cbn [st_rows].
    destruct (isRateMode cfg).
    + apply Forall2_map_r. intros p Hp. exact Hp.
    + apply Forall2_same. intros p Hp. exact Hp.
  - rewrite monthsOfYear_S.
    eapply Forall2_compose; [exact staysDepleted_trans | exact IH |].
    apply monthStep_staysDepleted, Hc.
Qed.

Lemma runYears_staysDepleted (cfg : MonteCarloInput) (y k : nat) :
  (contributionYears cfg <= y)%nat ->
  Forall2 staysDepleted (st_rows (runYears cfg y))
          (st_rows (runYears cfg (y + k))).
Proof.
  intros Hy. induction k as [|k IH].
  - rewrite Nat.add_0_r. apply Forall2_same. intros p Hp. exact Hp.
  - replace (y + S k)%nat with (S (y + k)) by lia.
    rewrite runYears_S, yearStep_rows.
    eapply Forall2_compose; [exact staysDepleted_trans | exact IH |].
    apply monthsOfYear_staysDepleted.
    unfold contributingAt. apply Nat.leb_gt. lia.
Qed.

Lemma depleted_count_grows (l l' : list Path) :
  Forall (fun p => 0 <= value p) l ->
  Forall2 staysDepleted l l' ->
  (countIf (fun p => Rleb (value p) 0) l
   <= countIf (fun p => Rleb (value p) 0) l')%nat.
Proof.
  intros Hpos H2. unfold countIf.
  induction H2 as [|p q l l' Hpq _ IH]; cbn [filter]; [lia|].
  inversion Hpos as [|? ? Hp Hl]; subst. specialize (IH Hl).
  destruct (Rleb (value p) 0) eqn:Ep.
  - apply Rleb_true in Ep.
    assert (Hq : Rleb (value q) 0 = true).
    { apply Rleb_true. rewrite Hpq; lra. }
    rewrite Hq. cbn [length]. lia.
  - destruct (Rleb (value q) 0); cbn [length]; lia.
Qed.

Lemma snapshot_depletionRate_value (cfg : MonteCarloInput) (yr : nat)
      (rows : list Path) (sorted : list R) (tp r : R) :
  depletionRate (snapshot cfg yr rows sorted tp) = Some r ->
  r = INR (countIf (fun p => Rleb (value p) 0) rows) / INR NUM_SIMULATIONS.
Proof.
  cbn [depletionRate snapshot].
  destruct (withdrawingAt cfg yr); [|discriminate].
  intros H. injection H as <-. reflexivity.
Qed.

Lemma yearSnapshot_depletionRate (cfg : MonteCarloInput) (y : nat) (r : R) :
  depletionRate (yearSnapshot cfg (S y)) = Some r ->
  r = INR (countIf (fun p => Rleb (value p) 0) (st_rows (runYears cfg (S y))))
      / INR NUM_SIMULATIONS.
Proof.
  destruct (runYears_rows_yearEnd cfg y) as [-> _].
  apply snapshot_depletionRate_value.
Qed.

(** X12.  For non-negative [initialAmount] and [monthlyContribution], once
    the contribution years are over a depleted path stays depleted: the
    depletion rates reported from year [contributionYears] on never
    decrease from one record to a later one. *)
Theorem X12_depletion_rate_monotone (cfg : MonteCarloInput) :
  0 <= initialAmount cfg ->
  0 <= monthlyContribution cfg ->
  forall (y y' : nat) (d d' : MonteCarloYearData) (r r' : R),
    (contributionYears cfg <= y)%nat ->
    (y <= y')%nat ->
    nth_error (yearlyData (simulateMonteCarlo cfg)) y = Some d ->
    nth_error (yearlyData (simulateMonteCarlo cfg)) y' = Some d' ->
    depletionRate d = Some r ->
    depletionRate d' = Some r' ->
    r <= r'.
Proof.
  intros Hi Hc y y' d d' r r' Hy Hyy Hd Hd' Hr Hr'.
  cbn [yearlyData simulateMonteCarlo] in Hd, Hd'.
  assert (Hlen : forall k e,
             nth_error (st_yearlyData (runYears cfg (totalYears cfg))) k
             = Some e -> (k <= totalYears cfg)%nat).
  { intros k e He.
    assert (Hn : nth_error (st_yearlyData (runYears cfg (totalYears cfg))) k
                 <> None) by congruence.
    apply nth_error_Some in Hn. rewrite runYears_length in Hn. lia. }
  pose proof (Hlen _ _ Hd) as Ly. pose proof (Hlen _ _ Hd') as Ly'.
  destruct y as [|y].
  { rewrite runYears_head in Hd. injection Hd as <-. discriminate Hr. }
  destruct y' as [|y']; [lia|].
  rewrite runYears_nth in Hd by lia. rewrite runYears_nth in Hd' by lia.
  injection Hd as <-. injection Hd' as <-.
  apply yearSnapshot_depletionRate in Hr, Hr'. subst r r'.
  apply Rmult_le_compat_r.
  - left. apply Rinv_0_lt_compat, NUM_SIMULATIONS_pos.
  - apply le_INR, depleted_count_grows.
    + destruct (values_nonneg cfg Hi Hc) as [Hn _].
      eapply Forall_impl; [|apply Hn]. intros p [Hp _]. exact Hp.
    + replace (S y') with (S y + (y' - y))%nat by lia.
      apply runYears_staysDepleted. exact Hy.
Qed.

Lemma snapshot_depletionRate_some (cfg : MonteCarloInput) (yr : nat)
      (rows : list Path) (sorted : list R) (tp : R) :
  withdrawingAt cfg yr = true ->
  depletionRate (snapshot cfg yr rows sorted tp)
  = Some (INR (countIf (fun p => Rleb (value p) 0) rows)
          / INR NUM_SIMULATIONS).
Proof. intros Hw. cbn [depletionRate snapshot]. rewrite Hw. reflexivity. Qed.

Lemma X12_depletion_rate_monotone_witness :
  0 <= initialAmount deflatingWithdrawal
  /\ (contributionYears deflatingWithdrawal <= 1)%nat
  /\ exists r r' : R,
       depletionRate (yearSnapshot deflatingWithdrawal 1) = Some r
       /\ depletionRate (yearSnapshot deflatingWithdrawal 20) = Some r'
       /\ r <= r'.
Proof.
  assert (Hi : 0 <= initialAmount deflatingWithdrawal)
    by (cbn [initialAmount deflatingWithdrawal]; lra).
  assert (Hc : 0 <= monthlyContribution deflatingWithdrawal)
    by (cbn [monthlyContribution deflatingWithdrawal]; lra).
  assert (Hy : (contributionYears deflatingWithdrawal <= 1)%nat)
    by (cbn [contributionYears deflatingWithdrawal]; lia).
  assert (Ht : totalYears deflatingWithdrawal = 20%nat) by reflexivity.
  split; [exact Hi|]. split; [exact Hy|].
  eexists. eexists.
  split; [apply snapshot_depletionRate_some; reflexivity|].
  split; [apply snapshot_depletionRate_some; reflexivity|].
  apply (X12_depletion_rate_monotone deflatingWithdrawal Hi Hc 1 20
           (yearSnapshot deflatingWithdrawal 1)
           (yearSnapshot deflatingWithdrawal 20)).
  - exact Hy.
  - lia.
  - cbn [yearlyData simulateMonteCarlo]. apply runYears_nth. rewrite Ht. lia.
  - cbn [yearlyData simulateMonteCarlo]. apply runYears_nth. rewrite Ht. lia.
  - apply snapshot_depletionRate_some. reflexivity.
  - apply snapshot_depletionRate_some. reflexivity.
Defined.

Lemma X3_values_never_negative_witness :
  0 <= initialAmount deflatingWithdrawal
  /\ 0 <= monthlyContribution deflatingWithdrawal
  /\ Forall (fun d => 0 <= p10 d)
            (yearlyData (simulateMonteCarlo deflatingWithdrawal)).
Proof.
  assert (Hi : 0 <= initialAmount deflatingWithdrawal)
    by (cbn [initialAmount deflatingWithdrawal]; lra).
  assert (Hc : 0 <= monthlyContribution deflatingWithdrawal)
    by (cbn [monthlyContribution deflatingWithdrawal]; lra).
  split; [exact Hi|]. split; [exact Hc|].
  apply (proj2 (X3_values_never_negative deflatingWithdrawal Hi Hc)).
Defined.

Lemma X4_withdrawal_bounds_witness :
  0 < 2000000
  /\ 0 <= 1000000
  /\ 0 <= valueAfter (withdrawal deflatingWithdrawal 100000 2000000 1000000)
     <= 2000000
  /\ 0 <= basisAfter (withdrawal deflatingWithdrawal 100000 2000000 1000000)
     <= 1000000.
Proof.
  assert (Hv : 0 < 2000000) by lra.
  assert (Hb : 0 <= 1000000) by lra.
  split; [exact Hv|]. split; [exact Hb|].
  destruct (X4_withdrawal_bounds deflatingWithdrawal 100000 2000000 1000000
                                 Hv Hb) as (A & B & _).
  split; [exact A | exact B].
Defined.

(** ** Where a final value lands in the histogram *)

Lemma incrAt_nth (idx k : nat) (counts : list nat) :
  (idx < length counts)%nat ->
  nth k (incrAt idx counts) 0%nat
  = (nth k counts 0%nat + if (idx =? k)%nat then 1 else 0)%nat.
Proof.
  revert idx k. induction counts as [|c r IH]; intros idx k H;
    cbn [length] in H; [lia|].
  destruct idx as [|i], k as [|k]; cbn [incrAt nth Nat.eqb]; try lia.
  apply IH. lia.
Qed.

Lemma fillBins_fold_nth (binWidth : R) (neededBins : Z) (l : list R)
      (k : nat) :
  0 < binWidth -> (1 <= neededBins)%Z ->
  forall counts : list nat,
    length counts = Z.to_nat neededBins ->
    nth k (fold_left
             (fun counts x =>
                if Rltb 0 x
                then incrAt (Z.to_nat (binIndex binWidth neededBins x)) counts
                else counts)
             l counts) 0%nat
    = (nth k counts 0%nat
       + countIf (fun x =>
                    Rltb 0 x
                    && (Z.to_nat (binIndex binWidth neededBins x) =? k)%nat)
                 l)%nat.
Proof.
  intros Hw Hn. induction l as [|x l IH]; intros counts Hlen;
    cbn [fold_left]; unfold countIf; cbn [filter].
  - cbn [length]. lia.
  - destruct (Rltb 0 x) eqn:Hx; cbn [andb].
    + apply Rltb_true in Hx.
      destruct (binIndex_in_range binWidth neededBins x Hw Hn Hx) as [B1 B2].
      rewrite IH by (rewrite incrAt_length; exact Hlen).
      rewrite incrAt_nth by (rewrite Hlen; lia).
      unfold countIf.
      destruct (Z.to_nat (binIndex binWidth neededBins x) =? k)%nat;
        cbn [length]; lia.
    + rewrite IH by exact Hlen. reflexivity.
Qed.

Lemma fillBins_nth (binWidth : R) (neededBins : Z) (l : list R) (k : nat) :
  0 < binWidth -> (1 <= neededBins)%Z ->
  nth k (fillBins binWidth neededBins l) 0%nat
  = countIf (fun x =>
               Rltb 0 x
               && (Z.to_nat (binIndex binWidth neededBins x) =? k)%nat)
            l.
Proof.
  intros Hw Hn. unfold fillBins.
  rewrite (fillBins_fold_nth binWidth neededBins l k Hw Hn)
    by apply repeat_length.
  rewrite nth_repeat. reflexivity.
Qed.

Lemma countIf_ext_in {A : Type} (f g : A -> bool) (l : list A) :
  (forall a, In a l -> f a = g a) -> countIf f l = countIf g l.
Proof.
  unfold countIf. intros H. f_equal. apply filter_ext_in, H.
Qed.

Lemma countIf_perm {A : Type} (f : A -> bool) (l l' : list A) :
  Permutation l l' -> countIf f l = countIf f l'.
Proof.
  unfold countIf. induction 1 as [|a l l' _ IH|a b l|l l' l'' _ IH1 _ IH2];
    cbn [filter].
  - reflexivity.
  - destruct (f a); cbn [length]; lia.
  - destruct (f a), (f b); reflexivity.
  - lia.
Qed.

(** The index [Math.min(Math.floor(x / binWidth), neededBins - 1)] read as a
    range: bin [k] takes the positive values from [k * binWidth] up to, but
    not including, [(k + 1) * binWidth], and the last bin every value from
    its lower end on. *)
Lemma binIndex_range (binWidth : R) (neededBins : Z) (x : R) (k : nat) :
  0 < binWidth -> (1 <= neededBins)%Z -> 0 < x ->
  (k < Z.to_nat neededBins)%nat ->
  (Z.to_nat (binIndex binWidth neededBins x) =? k)%nat
  = Rleb (INR k * binWidth) x
    && (Rltb x (INR (k + 1) * binWidth)
        || (k + 1 =? Z.to_nat neededBins)%nat).
Proof.
  intros Hw Hn Hx Hk.
  destruct (js_floor_spec (x / binWidth)) as [F1 F2].
  assert (F0 : (0 <= js_floor (x / binWidth))%Z).
  { apply js_floor_nonneg. left. apply Rdiv_lt_0_compat; assumption. }
  assert (Ex : x = x / binWidth * binWidth) by (field; lra).
  set (q := x / binWidth) in *. set (i := js_floor q) in *.
  assert (A : INR k * binWidth <= x <-> (Z.of_nat k <= i)%Z).
  { rewrite INR_IZR_INZ. split.
    - intros H. assert (IZR (Z.of_nat k) <= q) by nra.
      assert (Z.of_nat k < i + 1)%Z by (apply lt_IZR; rewrite plus_IZR; lra).
      lia.
    - intros H. apply IZR_le in H. nra. }
  assert (B : x < INR (k + 1) * binWidth <-> (i <= Z.of_nat k)%Z).
  { rewrite plus_INR. change (INR 1) with 1. rewrite INR_IZR_INZ.
    split.
    - intros H. assert (q < IZR (Z.of_nat k) + 1) by nra.
      assert (i < Z.of_nat k + 1)%Z by (apply lt_IZR; rewrite plus_IZR; lra).
      lia.
    - intros H. apply IZR_le in H. nra. }
  apply Bool.eq_iff_eq_true.
  rewrite Nat.eqb_eq, andb_true_iff, orb_true_iff, Rleb_true, Rltb_true,
    Nat.eqb_eq, A, B.
  unfold binIndex. fold q. fold i. lia.
Qed.

(** The histogram of a buffer of 5000 final values, bin by bin. *)
Lemma buildDistribution_layout (finals : list R) :
  length finals = NUM_SIMULATIONS ->
  let sorted := sortF64 finals in
  let maxVal := cell sorted (NUM_SIMULATIONS - 1) in
  let binWidth := Rmax (cell sorted (pctIndex (9 / 10))) 1 / 10 in
  let neededBins := Z.to_nat (Z.min (js_ceil (maxVal / binWidth)) 15) in
  let depletedCnt := countIf (fun x => Rleb x 0) finals in
  let lands := fun (k : nat) (x : R) =>
                 Rltb 0 x
                 && (Rleb (INR k * binWidth) x
                     && (Rltb x (INR (k + 1) * binWidth)
                         || (k + 1 =? neededBins)%nat)) in
  buildDistribution sorted
  = (if (0 <? depletedCnt)%nat
     then [ {| rangeEnd := 0; count := depletedCnt; isDepleted := true |} ]
     else [])
    ++ (if Rltb 0 maxVal
        then map (fun k =>
                    {| rangeEnd := IZR (js_round (INR (k + 1) * binWidth));
                       count := countIf (lands k) finals;
                       isDepleted := false |})
                 (seq 0 neededBins)
        else []).
Proof.
  intros Hlen sorted maxVal binWidth neededBins depletedCnt lands.
  pose proof (sortF64_perm finals) as Hperm. fold sorted in Hperm.
  assert (Hslen : length sorted = NUM_SIMULATIONS)
    by (unfold sorted; rewrite sortF64_length; exact Hlen).
  unfold buildDistribution.
  change (IZR NUM_MAIN_BINS) with 10. fold maxVal. fold binWidth.
  change (NUM_MAIN_BINS + MAX_TAIL_BINS)%Z with 15%Z.
  rewrite (countIf_perm (fun x => Rleb x 0) sorted finals Hperm).
  fold depletedCnt.
  destruct (Rltb 0 maxVal) eqn:Hmax; [|rewrite app_nil_r; reflexivity].
  apply Rltb_true in Hmax.
  pose proof (binWidth_pos sorted) as Hw.
  change (IZR NUM_MAIN_BINS) with 10 in Hw. fold binWidth in Hw.
  destruct (neededBins_range sorted Hslen Hmax) as [N1 _].
  change (IZR NUM_MAIN_BINS) with 10 in N1. fold maxVal binWidth in N1.
  change (NUM_MAIN_BINS + MAX_TAIL_BINS)%Z with 15%Z in N1.
  f_equal. fold neededBins. apply map_ext_in. intros k Hk.
  apply in_seq in Hk. f_equal.
  rewrite (fillBins_nth _ _ sorted k Hw N1).
  rewrite (countIf_perm _ sorted finals Hperm).
  apply countIf_ext_in. intros x _. unfold lands.
  destruct (Rltb 0 x) eqn:Hx; cbn [andb]; [|reflexivity].
  apply Rltb_true in Hx.
  apply binIndex_range; [exact Hw | exact N1 | exact Hx |].
  fold neededBins. lia.
Qed.

(** X21.  After at least one simulated year the histogram is the histogram
    of the final path values.  With [maxVal] the largest final value and
    [binWidth = max p90 1 / 10]: one depleted bin of range end 0 counts the
    final values that are not positive and is left out when there is none;
    when [maxVal] is positive it is followed by
    [min (ceil (maxVal / binWidth)) 15] bins, at least 10 of them when
    [p90 >= 1]; bin [k] has range end [round ((k + 1) * binWidth)] and counts
    the positive final values from [k * binWidth] up to, but not including,
    [(k + 1) * binWidth], the last bin counting every value from its lower
    end on.  Every positive final value is counted in exactly one of these
    bins. *)
Theorem X21_histogram_layout (cfg : MonteCarloInput) :
  (1 <= totalYears cfg)%nat ->
  let finals := map value (st_rows (finalState cfg)) in
  let sorted := sortF64 finals in
  let maxVal := cell sorted (NUM_SIMULATIONS - 1) in
  let p90Val := cell sorted (pctIndex (9 / 10)) in
  let binWidth := Rmax p90Val 1 / 10 in
  let neededBins := Z.to_nat (Z.min (js_ceil (maxVal / binWidth)) 15) in
  let depletedCnt := countIf (fun x => Rleb x 0) finals in
  let lands := fun (k : nat) (x : R) =>
                 Rltb 0 x
                 && (Rleb (INR k * binWidth) x
                     && (Rltb x (INR (k + 1) * binWidth)
                         || (k + 1 =? neededBins)%nat)) in
  Forall (fun x => x <= maxVal) finals
  /\ distribution (simulateMonteCarlo cfg)
     = (if (0 <? depletedCnt)%nat
        then [ {| rangeEnd := 0; count := depletedCnt; isDepleted := true |} ]
        else [])
       ++ (if Rltb 0 maxVal
           then map (fun k =>
                       {| rangeEnd := IZR (js_round (INR (k + 1) * binWidth));
                          count := countIf (lands k) finals;
                          isDepleted := false |})
                    (seq 0 neededBins)
           else [])
  /\ (0 < maxVal -> (1 <= neededBins <= 15)%nat)
  /\ (1 <= p90Val -> (10 <= neededBins)%nat)
  /\ (forall x : R,
         In x finals -> 0 < x ->
         exists k : nat,
           (k < neededBins)%nat
           /\ forall j : nat,
                (j < neededBins)%nat -> (lands j x = true <-> j = k)).
Proof.
  intros Hy finals sorted maxVal p90Val binWidth neededBins depletedCnt lands.
  assert (Hlen : length finals = NUM_SIMULATIONS).
  { unfold finals, finalState. rewrite length_map. apply runYears_rows_length. }
  assert (Hslen : length sorted = NUM_SIMULATIONS)
    by (unfold sorted; rewrite sortF64_length; exact Hlen).
  assert (Hsorted : st_sorted (finalState cfg) = sorted).
  { unfold sorted, finals, finalState.
    destruct (totalYears cfg) as [|n]; [lia|]. apply runYears_sorted_values. }
  pose proof (binWidth_pos sorted) as Hw.
  change (IZR NUM_MAIN_BINS) with 10 in Hw. fold p90Val binWidth in Hw.
  assert (Hmaxall : Forall (fun x => x <= maxVal) finals).
  { apply Forall_forall. intros x Hx.
    apply (Permutation_in _ (Permutation_sym (sortF64_perm finals))) in Hx.
    fold sorted in Hx.
    destruct (In_nth _ _ 0 Hx) as (i & Hi & <-).
    apply (StronglySorted_cell sorted (sortF64_sorted finals) i
                               (NUM_SIMULATIONS - 1)).
    rewrite Hslen in *. unfold NUM_SIMULATIONS in *. lia. }
  assert (Hnb : 0 < maxVal -> (1 <= neededBins <= 15)%nat).
  { intros Hmax.
    destruct (neededBins_range sorted Hslen Hmax) as [N1 N2].
    change (IZR NUM_MAIN_BINS) with 10 in N1, N2.
    fold maxVal p90Val binWidth in N1, N2.
    change (NUM_MAIN_BINS + MAX_TAIL_BINS)%Z with 15%Z in N1, N2.
    unfold neededBins. lia. }
  split; [exact Hmaxall|]. split; [|split; [exact Hnb|split]].
  - cbn [distribution simulateMonteCarlo]. fold (finalState cfg).
    rewrite Hsorted. apply buildDistribution_layout, Hlen.
  - intros Hp90.
    assert (Hpm : p90Val <= maxVal).
    { apply (StronglySorted_cell sorted (sortF64_sorted finals)).
      rewrite Hslen, pctIndex_90. unfold NUM_SIMULATIONS. lia. }
    assert (Hbw : binWidth = p90Val / 10).
    { unfold binWidth. rewrite Rmax_left by exact Hp90. reflexivity. }
    assert (Hq : 10 <= maxVal / binWidth).
    { apply (Rmult_le_reg_r binWidth); [exact Hw|].
      unfold Rdiv at 1. rewrite Rmult_assoc, Rinv_l by lra. lra. }
    assert (Hc : (10 <= js_ceil (maxVal / binWidth))%Z).
    { unfold js_ceil.
      destruct (js_floor_spec (- (maxVal / binWidth))) as [F1 _].
      unfold js_floor in F1.
      assert (Int_part (- (maxVal / binWidth)) < -9)%Z
        by (apply lt_IZR; replace (IZR (-9)) with (-9) by reflexivity; lra).
      lia. }
    unfold neededBins. lia.
  - intros x Hx Hpos.
    assert (Hmax : 0 < maxVal).
    { rewrite Forall_forall in Hmaxall. specialize (Hmaxall x Hx). lra. }
    destruct (neededBins_range sorted Hslen Hmax) as [N1 _].
    change (IZR NUM_MAIN_BINS) with 10 in N1.
    fold maxVal p90Val binWidth in N1.
    change (NUM_MAIN_BINS + MAX_TAIL_BINS)%Z with 15%Z in N1.
    set (nbZ := Z.min (js_ceil (maxVal / binWidth)) 15) in *.
    destruct (binIndex_in_range binWidth nbZ x Hw N1 Hpos) as [B1 B2].
    exists (Z.to_nat (binIndex binWidth nbZ x)).
    split; [unfold neededBins; lia|].
    intros j Hj. unfold lands, neededBins in *.
    replace (Rltb 0 x) with true by (symmetry; apply Rltb_true; exact Hpos).
    cbn [andb].
    rewrite <- (binIndex_range binWidth nbZ x j Hw N1 Hpos Hj).
    rewrite Nat.eqb_eq. split; intros E; symmetry; exact E.
Qed.

Lemma X21_histogram_layout_witness :
  (1 <= totalYears deflatingWithdrawal)%nat
  /\ Forall (fun x =>
               x <= cell (sortF64 (map value
                                       (st_rows (finalState deflatingWithdrawal))))
                         (NUM_SIMULATIONS - 1))
            (map value (st_rows (finalState deflatingWithdrawal))).
Proof.
  assert (H : (1 <= totalYears deflatingWithdrawal)%nat).
  { unfold totalYears.
    cbn [contributionYears withdrawalStartYear withdrawalYears
         deflatingWithdrawal Nat.add Nat.max]. lia. }
  split; [exact H|].
  exact (proj1 (X21_histogram_layout deflatingWithdrawal H)).
Defined.

(** * The timeline of the simulator view *)

Section TimelineFacts.

Import Timeline.

Variables cY wS wY : nat.

Local Abbreviation phase := (phaseAt cY wS wY).
Local Abbreviation uniform :=
  (fun s : Segment =>
     forall y : nat, (start s <= y < end_ s)%nat -> phase y = type s).

Lemma PhaseType_eqb_eq (a b : PhaseType) : PhaseType_eqb a b = true <-> a = b.
Proof. destruct a, b; cbn; split; congruence. Qed.

Lemma PhaseType_eqb_neq (a b : PhaseType) : PhaseType_eqb a b = false <-> a <> b.
Proof. destruct a, b; cbn; split; congruence. Qed.

(** One iteration of the loop keeps the segments a gap-free cover made of
    maximal runs of one phase. *)
Lemma pushYear_invariant (segments : list Segment) :
  forall a n : nat,
    tiles a segments n ->
    Forall uniform segments ->
    alternating segments ->
    tiles a (pushYear segments (phase n) n) (n + 1)
    /\ Forall uniform (pushYear segments (phase n) n)
    /\ alternating (pushYear segments (phase n) n)
    /\ (forall s0 r0, segments = s0 :: r0 ->
        exists s1 r1,
          pushYear segments (phase n) n = s1 :: r1 /\ type s1 = type s0).
Proof.
  induction segments as [|s rest IH]; intros a n Ht Hu Ha.
  - cbn in Ht. subst a. cbn. repeat split; try lia.
    + constructor; [|constructor]. cbn. intros y Hy.
      replace y with n by lia. reflexivity.
    + intros s0 r0 H. discriminate H.
  - destruct rest as [|s' rest'].
    + cbn in Ht. destruct Ht as (Hs & Hlt & He). subst a n.
      pose proof (Forall_inv Hu) as Hus. cbn beta in Hus.
      cbn [pushYear].
      destruct (PhaseType_eqb (type s) (phase (end_ s))) eqn:E.
      * apply PhaseType_eqb_eq in E. cbn. repeat split; try lia.
        -- constructor; [|constructor]. cbn. intros y Hy.
           destruct (Nat.eq_dec y (end_ s)) as [->|Hne];
             [symmetry; exact E | apply Hus; lia].
        -- intros s0 r0 H. injection H as <- <-.
           eexists. eexists. split; reflexivity.
      * apply PhaseType_eqb_neq in E. cbn. repeat split; try lia.
        -- constructor; [exact Hus|]. constructor; [|constructor].
           cbn. intros y Hy. replace y with (end_ s) by lia. reflexivity.
        -- exact E.
        -- intros s0 r0 H. injection H as <- <-.
           eexists. eexists. split; reflexivity.
    + destruct Ht as (Hs & Hlt & Ht).
      pose proof (Forall_inv Hu) as Hus. pose proof (Forall_inv_tail Hu) as Hur.
      destruct Ha as (Hne & Ha).
      destruct (IH (end_ s) n Ht Hur Ha) as (T & U & A & Hd).
      destruct (Hd s' rest' eq_refl) as (s1 & r1 & E1 & Ety).
      change (pushYear (s :: s' :: rest') (phase n) n)
        with (s :: pushYear (s' :: rest') (phase n) n).
      split; [|split; [|split]].
      * cbn [tiles]. auto.
      * constructor; assumption.
      * cbn [alternating]. rewrite E1 in A |- *. rewrite Ety.
        split; [exact Hne | exact A].
      * intros s0 r0 H. injection H as <- <-.
        eexists. eexists. split; reflexivity.
Qed.

Lemma segmentsUpTo_S (n : nat) :
  segmentsUpTo cY wS wY (S n) = pushYear (segmentsUpTo cY wS wY n) (phase n) n.
Proof.
  unfold segmentsUpTo. rewrite seq_S, fold_left_app. reflexivity.
Qed.

Lemma segmentsUpTo_invariant (n : nat) :
  tiles 0 (segmentsUpTo cY wS wY n) n
  /\ Forall uniform (segmentsUpTo cY wS wY n)
  /\ alternating (segmentsUpTo cY wS wY n).
Proof.
  induction n as [|n (T & U & A)].
  - cbn. auto.
  - rewrite segmentsUpTo_S.
    destruct (pushYear_invariant _ 0%nat n T U A) as (T' & U' & A' & _).
    replace (S n) with (n + 1)%nat by lia. auto.
Qed.

End TimelineFacts.

Lemma tiles_cover (segments : list Timeline.Segment) :
  forall a n y : nat,
    Timeline.tiles a segments n -> (a <= y < n)%nat ->
    exists s, In s segments
              /\ (Timeline.start s <= y < Timeline.end_ s)%nat.
Proof.
  induction segments as [|s rest IH]; intros a n y Ht Hy.
  - cbn in Ht. lia.
  - destruct Ht as (Hs & Hlt & Ht).
    destruct (Nat.lt_ge_cases y (Timeline.end_ s)) as [Hin|Hout].
    + exists s. split; [left; reflexivity | lia].
    + destruct (IH _ _ y Ht (conj Hout (proj2 Hy))) as (s' & Hs' & Hy').
      exists s'. split; [right; exact Hs' | exact Hy'].
Qed.

Lemma tiles_le (segments : list Timeline.Segment) :
  forall a n : nat, Timeline.tiles a segments n -> (a <= n)%nat.
Proof.
  induction segments as [|s rest IH]; intros a n Ht.
  - cbn in Ht. lia.
  - destruct Ht as (Hs & Hlt & Ht). apply IH in Ht. lia.
Qed.

Lemma tiles_total (segments : list Timeline.Segment) :
  forall a n : nat,
    Timeline.tiles a segments n ->
    (list_sum (map (fun s => Timeline.end_ s - Timeline.start s) segments)
     = n - a)%nat.
Proof.
  induction segments as [|s rest IH]; intros a n Ht.
  - cbn in *. lia.
  - destruct Ht as (Hs & Hlt & Ht). specialize (IH _ _ Ht).
    unfold list_sum in *. cbn [map fold_right].
    rewrite IH. apply tiles_le in Ht. lia.
Qed.

(** Two segments of a gap-free cover that share a slot are at the same
    position. *)
Lemma tiles_disjoint (segments : list Timeline.Segment) :
  forall (a n i j : nat) (s t : Timeline.Segment) (y : nat),
    Timeline.tiles a segments n ->
    nth_error segments i = Some s -> nth_error segments j = Some t ->
    (Timeline.start s <= y < Timeline.end_ s)%nat ->
    (Timeline.start t <= y < Timeline.end_ t)%nat ->
    i = j.
Proof.
  assert (Hlow : forall segs a n k s,
             Timeline.tiles a segs n -> nth_error segs k = Some s ->
             (a <= Timeline.start s)%nat).
  { induction segs as [|s0 rest IH]; intros a n k s Ht Hk.
    - destruct k; discriminate Hk.
    - destruct Ht as (Hs & Hlt & Ht). destruct k as [|k]; cbn in Hk.
      + injection Hk as <-. lia.
      + apply (IH _ _ _ _ Ht) in Hk. lia. }
  induction segments as [|s0 rest IH]; intros a n i j s t y Ht Hi Hj Hs Hy.
  - destruct i; discriminate Hi.
  - destruct Ht as (Hs0 & Hlt & Ht).
    destruct i as [|i], j as [|j]; cbn in Hi, Hj.
    + reflexivity.
    + injection Hi as <-. apply (Hlow _ _ _ _ _ Ht) in Hj. lia.
    + injection Hj as <-. apply (Hlow _ _ _ _ _ Ht) in Hi. lia.
    + f_equal. exact (IH _ _ _ _ _ _ y Ht Hi Hj Hs Hy).
Qed.

Lemma tiles_nonempty (segments : list Timeline.Segment) :
  forall (a n i : nat) (s : Timeline.Segment),
    Timeline.tiles a segments n -> nth_error segments i = Some s ->
    (Timeline.start s < Timeline.end_ s)%nat.
Proof.
  induction segments as [|s0 rest IH]; intros a n i s Ht Hi.
  - destruct i; discriminate Hi.
  - destruct Ht as (Hs & Hlt & Ht). destruct i as [|i]; cbn in Hi.
    + injection Hi as <-. exact Hlt.
    + exact (IH _ _ _ _ Ht Hi).
Qed.

(** X13.  The segments of the timeline cover the slots [0 .. totalYears)
    without gap or overlap: the first starts at 0, each starts where the one
    before ends, none is empty, the last ends at [totalYears]; so every slot
    lies in a segment, in only one, no two segments start at the same slot
    (the view keys them by type and start), the lengths add up to
    [totalYears], and there is no segment exactly when [totalYears] is 0. *)
Theorem X13_timeline_tiles (cY wS wY : nat) :
  let totalYears := Nat.max cY (wS + wY) in
  let segments := Timeline.buildTimelineSegments cY wS wY in
  Timeline.tiles 0 segments totalYears
  /\ (forall y : nat,
         (y < totalYears)%nat ->
         exists s, In s segments
                   /\ (Timeline.start s <= y < Timeline.end_ s)%nat)
  /\ (forall (i j : nat) (s t : Timeline.Segment) (y : nat),
         nth_error segments i = Some s -> nth_error segments j = Some t ->
         (Timeline.start s <= y < Timeline.end_ s)%nat ->
         (Timeline.start t <= y < Timeline.end_ t)%nat ->
         i = j)
  /\ (forall (i j : nat) (s t : Timeline.Segment),
         nth_error segments i = Some s -> nth_error segments j = Some t ->
         Timeline.start s = Timeline.start t ->
         i = j)
  /\ list_sum (map (fun s => Timeline.end_ s - Timeline.start s)%nat segments)
     = totalYears
  /\ (segments = [] <-> totalYears = 0%nat).
Proof.
  intros totalYears segments.
  assert (T : Timeline.tiles 0 segments totalYears)
    by apply (segmentsUpTo_invariant cY wS wY totalYears).
  split; [exact T|]. split; [|split; [|split; [|split]]].
  - intros y Hy. apply (tiles_cover segments 0%nat totalYears y T). lia.
  - intros i j s t y. apply (tiles_disjoint segments 0%nat totalYears), T.
  - intros i j s t Hi Hj E.
    pose proof (tiles_nonempty _ _ _ _ _ T Hi) as Ni.
    pose proof (tiles_nonempty _ _ _ _ _ T Hj) as Nj.
    apply (tiles_disjoint segments 0%nat totalYears i j s t
                          (Timeline.start s) T Hi Hj); lia.
  - rewrite (tiles_total _ _ _ T). lia.
  - split.
    + intros E. rewrite E in T. cbn in T. lia.
    + intros E. destruct segments as [|s rest]; [reflexivity|].
      destruct T as (Hs & Hlt & T). apply tiles_le in T. lia.
Qed.

(** X14.  Every segment of the timeline is a maximal run of one phase: each
    slot of the segment has the segment's type, and two neighbouring
    segments have different types. *)
Theorem X14_timeline_runs (cY wS wY : nat) :
  let segments := Timeline.buildTimelineSegments cY wS wY in
  (forall (s : Timeline.Segment) (y : nat),
      In s segments ->
      (Timeline.start s <= y < Timeline.end_ s)%nat ->
      Timeline.type s = Timeline.phaseAt cY wS wY y)
  /\ (forall (i : nat) (s t : Timeline.Segment),
         nth_error segments i = Some s ->
         nth_error segments (S i) = Some t ->
         Timeline.type s <> Timeline.type t).
Proof.
  intros segments.
  destruct (segmentsUpTo_invariant cY wS wY (Nat.max cY (wS + wY)))
    as (_ & U & A).
  fold (Timeline.buildTimelineSegments cY wS wY) in U, A.
  fold segments in U, A. clearbody segments.
  split.
  - intros s y Hs Hy. rewrite Forall_forall in U.
    symmetry. exact (U s Hs y Hy).
  - clear U. induction segments as [|s0 rest IH]; intros i s t Hi Hj.
    + destruct i; discriminate Hi.
    + destruct rest as [|s1 rest']; [destruct i; discriminate Hj|].
      destruct A as (Hne & A).
      destruct i as [|i].
      * cbn in Hi, Hj. injection Hi as <-. injection Hj as <-. exact Hne.
      * exact (IH A i s t Hi Hj).
Qed.

(** The phase changes only at the end of the contributions, at the start of
    the withdrawals or at their end. *)
Lemma phaseAt_change (cY wS wY k : nat) :
  Timeline.phaseAt cY wS wY k <> Timeline.phaseAt cY wS wY (S k) ->
  S k = cY \/ S k = wS \/ S k = (wS + wY)%nat.
Proof.
  unfold Timeline.phaseAt.
  destruct (Nat.ltb_spec k cY), (Nat.ltb_spec (S k) cY),
    (Nat.ltb_spec 0 wY), (Nat.leb_spec wS k), (Nat.leb_spec wS (S k)),
    (Nat.ltb_spec k (wS + wY)), (Nat.ltb_spec (S k) (wS + wY));
    cbn; intros Hne; try congruence; lia.
Qed.

(** X15.  The timeline has at most three segments. *)
Theorem X15_timeline_at_most_three (cY wS wY : nat) :
  (length (Timeline.buildTimelineSegments cY wS wY) <= 3)%nat.
Proof.
  destruct (segmentsUpTo_invariant cY wS wY (Nat.max cY (wS + wY)))
    as (T & U & A).
  fold (Timeline.buildTimelineSegments cY wS wY) in T, U, A.
  destruct (Timeline.buildTimelineSegments cY wS wY)
    as [|s0 [|s1 [|s2 [|s3 rest]]]]; cbn [length]; try lia.
  exfalso.
  destruct T as (S0 & L0 & S1 & L1 & S2 & L2 & S3 & L3 & T).
  apply tiles_le in T.
  destruct A as (N0 & N1 & N2 & _).
  pose proof (Forall_inv U) as U0. apply Forall_inv_tail in U.
  pose proof (Forall_inv U) as U1. apply Forall_inv_tail in U.
  pose proof (Forall_inv U) as U2. apply Forall_inv_tail in U.
  pose proof (Forall_inv U) as U3. cbn beta in U0, U1, U2, U3.
  assert (B : forall s t : Timeline.Segment,
             (forall y, (Timeline.start s <= y < Timeline.end_ s)%nat ->
                        Timeline.phaseAt cY wS wY y = Timeline.type s) ->
             (forall y, (Timeline.start t <= y < Timeline.end_ t)%nat ->
                        Timeline.phaseAt cY wS wY y = Timeline.type t) ->
             (Timeline.start s < Timeline.end_ s)%nat ->
             (Timeline.start t < Timeline.end_ t)%nat ->
             Timeline.start t = Timeline.end_ s ->
             Timeline.type s <> Timeline.type t ->
             Timeline.start t = cY \/ Timeline.start t = wS
             \/ Timeline.start t = (wS + wY)%nat).
  { intros s t Us Ut Ls Lt E N.
    destruct (Timeline.start t) as [|k] eqn:Ek; [lia|].
    apply phaseAt_change.
    rewrite (Us k) by lia. rewrite (Ut (S k)) by lia. exact N. }
  pose proof (B s0 s1 U0 U1 L0 L1 S1 N0) as B1.
  pose proof (B s1 s2 U1 U2 L1 L2 S2 N1) as B2.
  pose proof (B s2 s3 U2 U3 L2 L3 S3 N2) as B3.
  lia.
Qed.

(** X16.  The timeline agrees with the engine: slot [y] of the timeline
    stands for the simulated year [y + 1], and the segment that holds the
    slot is typed by the two flags of that year's record: overlap when both
    are set, contribution or withdrawal when one is, idle when none is. *)
Theorem X16_timeline_matches_engine (cfg : MonteCarloInput) (y : nat) :
  (y < totalYears cfg)%nat ->
  exists d : MonteCarloYearData,
    nth_error (yearlyData (simulateMonteCarlo cfg)) (S y) = Some d
    /\ year d = S y
    /\ forall s : Timeline.Segment,
         In s (Timeline.buildTimelineSegments
                 (contributionYears cfg) (withdrawalStartYear cfg)
                 (withdrawalYears cfg)) ->
         (Timeline.start s <= y < Timeline.end_ s)%nat ->
         Timeline.type s
         = match isContributing d, isWithdrawing d with
           | true, true => Timeline.overlap
           | true, false => Timeline.contribution
           | false, true => Timeline.withdrawal
           | false, false => Timeline.idle
           end.
Proof.
  intros Hy. exists (yearSnapshot cfg (S y)).
  split; [cbn [yearlyData simulateMonteCarlo]; apply runYears_nth; lia|].
  split; [reflexivity|].
  intros s Hs Hin.
  destruct (segmentsUpTo_invariant
              (contributionYears cfg) (withdrawalStartYear cfg)
              (withdrawalYears cfg)
              (Nat.max (contributionYears cfg)
                       (withdrawalStartYear cfg + withdrawalYears cfg)))
    as (_ & U & _).
  rewrite Forall_forall in U. rewrite <- (U s Hs y Hin).
  cbn [isContributing isWithdrawing yearSnapshot snapshot].
  unfold contributingAt, withdrawingAt, Timeline.phaseAt.
  destruct (Nat.ltb_spec y (contributionYears cfg)),
    (Nat.leb_spec (S y) (contributionYears cfg)),
    (Nat.ltb_spec 0 (withdrawalYears cfg)),
    (Nat.leb_spec (withdrawalStartYear cfg) y),
    (Nat.ltb_spec (withdrawalStartYear cfg) (S y)),
    (Nat.ltb_spec y (withdrawalStartYear cfg + withdrawalYears cfg)),
    (Nat.leb_spec (S y) (withdrawalStartYear cfg + withdrawalYears cfg));
    cbn; try reflexivity; lia.
Qed.

Lemma X16_timeline_matches_engine_witness :
  (0 < totalYears deflatingWithdrawal)%nat
  /\ exists d : MonteCarloYearData,
       nth_error (yearlyData (simulateMonteCarlo deflatingWithdrawal)) 1
       = Some d
       /\ year d = 1%nat.
Proof.
  assert (Hy : (0 < totalYears deflatingWithdrawal)%nat)
    by (replace (totalYears deflatingWithdrawal) with 20%nat by reflexivity;
        lia).
  split; [exact Hy|].
  destruct (X16_timeline_matches_engine deflatingWithdrawal 0%nat Hy)
    as (d & Hd & Hyr & _).
  exists d. split; [exact Hd | exact Hyr].
Defined.

Example timeline_three_segments :
  Timeline.buildTimelineSegments 10 5 3
  = [ {| Timeline.type := Timeline.contribution;
         Timeline.start := 0; Timeline.end_ := 5 |};
      {| Timeline.type := Timeline.overlap;
         Timeline.start := 5; Timeline.end_ := 8 |};
      {| Timeline.type := Timeline.contribution;
         Timeline.start := 8; Timeline.end_ := 10 |} ].
Proof. reflexivity. Qed.

(** * The draggable timeline bar *)

Lemma ratio_range (x : R) : 0 <= Rmax 0 (Rmin 1 x) <= 1.
Proof.
  unfold Rmax, Rmin.
  destruct (Rle_dec 1 x); destruct (Rle_dec 0 _); lra.
Qed.

Lemma ratio_mono (x y : R) :
  x <= y -> Rmax 0 (Rmin 1 x) <= Rmax 0 (Rmin 1 y).
Proof.
  intros H. unfold Rmax, Rmin.
  destruct (Rle_dec 1 x); destruct (Rle_dec 1 y);
    repeat match goal with |- context [Rle_dec ?a ?b] => destruct (Rle_dec a b) end;
    lra.
Qed.

Lemma getYearFromClientX_range (bar : option TimelineBar.Rect) (clientX : R) :
  (0 <= TimelineBar.getYearFromClientX bar clientX <= TimelineBar.displayMax)%Z.
Proof.
  unfold TimelineBar.getYearFromClientX, TimelineBar.displayMax.
  destruct bar as [rect|]; [|lia].
  cbv zeta.
  pose proof (ratio_range ((clientX - TimelineBar.left rect)
                           / TimelineBar.width rect)) as [H0 H1].
  split.
  - rewrite <- (js_round_IZR 0) at 1. apply js_round_mono. lra.
  - rewrite <- (js_round_IZR 70) at 2. apply js_round_mono. lra.
Qed.

(** X17.  On a mounted bar of positive width the pointer is mapped to a
    whole year between 0 and [displayMax] (70): 0 at or left of the bar's
    left edge, 70 at or right of its right edge, non-decreasing in the
    pointer position, and inside the bar less than one year away from 70
    times the fraction of the width the pointer has passed. *)
Theorem X17_pointer_year (rect : TimelineBar.Rect) (clientX : R) :
  0 < TimelineBar.width rect ->
  let year := TimelineBar.getYearFromClientX (Some rect) in
  let l := TimelineBar.left rect in
  let w := TimelineBar.width rect in
  (0 <= year clientX <= 70)%Z
  /\ (clientX <= l -> year clientX = 0%Z)
  /\ (l + w <= clientX -> year clientX = 70%Z)
  /\ (forall clientX' : R, clientX <= clientX' ->
                           (year clientX <= year clientX')%Z)
  /\ (l <= clientX <= l + w ->
      IZR (year clientX) - 1
      < 70 * ((clientX - l) / w)
      < IZR (year clientX) + 1).
Proof.
  intros Hw year l w. fold w in Hw.
  assert (Hdiv : forall a b : R, a <= b -> a / w <= b / w).
  { intros a b Hab. unfold Rdiv. apply Rmult_le_compat_r; [|exact Hab].
    apply Rlt_le, Rinv_0_lt_compat, Hw. }
  split; [apply (getYearFromClientX_range (Some rect) clientX)|].
  split; [|split; [|split]].
  - intros Hx. unfold year, TimelineBar.getYearFromClientX. cbv zeta.
    fold l w.
    assert (E : (clientX - l) / w <= 0).
    { replace 0 with (0 / w) by (unfold Rdiv; ring). apply Hdiv. lra. }
    unfold Rmin. destruct (Rle_dec 1 _); [lra|].
    unfold Rmax. destruct (Rle_dec 0 _) as [G|G].
    + replace ((clientX - l) / w) with 0 by lra.
      rewrite Rmult_0_l. apply (js_round_IZR 0).
    + rewrite Rmult_0_l. apply (js_round_IZR 0).
  - intros Hx. unfold year, TimelineBar.getYearFromClientX. cbv zeta.
    fold l w.
    assert (E : 1 <= (clientX - l) / w).
    { replace 1 with (w / w) by (field; lra). apply Hdiv. lra. }
    unfold Rmin. destruct (Rle_dec 1 _); [|lra].
    unfold Rmax. destruct (Rle_dec 0 1); [|lra].
    rewrite Rmult_1_l. apply (js_round_IZR 70).
  - intros x' Hx. unfold year, TimelineBar.getYearFromClientX. cbv zeta.
    fold l w. apply js_round_mono.
    apply Rmult_le_compat_r; [unfold TimelineBar.displayMax; lra|].
    apply ratio_mono, Hdiv. lra.
  - intros [Hl Hr]. unfold year, TimelineBar.getYearFromClientX. cbv zeta.
    fold l w.
    assert (E0 : 0 <= (clientX - l) / w).
    { replace 0 with (0 / w) by (unfold Rdiv; ring). apply Hdiv. lra. }
    assert (E1 : (clientX - l) / w <= 1).
    { replace 1 with (w / w) by (field; lra). apply Hdiv. lra. }
    replace (Rmax 0 (Rmin 1 ((clientX - l) / w))) with ((clientX - l) / w).
    + unfold TimelineBar.displayMax.
      destruct (js_floor_spec ((clientX - l) / w * 70 + 1 / 2)) as [F1 F2].
      unfold js_round. unfold js_floor in F1, F2. lra.
    + unfold Rmin. destruct (Rle_dec 1 _).
      * unfold Rmax. destruct (Rle_dec 0 1); lra.
      * unfold Rmax. destruct (Rle_dec 0 _); lra.
Qed.

Lemma X17_pointer_year_witness :
  0 < TimelineBar.width {| TimelineBar.left := 100; TimelineBar.width := 700 |}
  /\ (0 <= TimelineBar.getYearFromClientX
             (Some {| TimelineBar.left := 100; TimelineBar.width := 700 |})
             400
      <= 70)%Z.
Proof.
  assert (Hw : 0 < TimelineBar.width
                     {| TimelineBar.left := 100; TimelineBar.width := 700 |})
    by (cbn; lra).
  split; [exact Hw|].
  exact (proj1 (X17_pointer_year
                  {| TimelineBar.left := 100; TimelineBar.width := 700 |}
                  400 Hw)).
Defined.

(** X18.  A move of the pointer while a handle is dragged, whatever the
    pointer position, on a bar that is not mounted or has a positive width:
    the contribution
    handle lands on the pointer's year; the start of the withdrawals lands
    on it too, capped at 65; the length of the withdrawals becomes the
    distance from their start to the pointer's year, but at least 5; the two
    other years are left as they are.  So dragging keeps the contribution
    years within 0..70, the start of the withdrawals within 0..65 and their
    length within 5..70. *)
Theorem X18_drag_results (bar : option TimelineBar.Rect)
        (h : TimelineBar.DragHandle) (clientX : R) (st : TimelineBar.Years) :
  (forall rect : TimelineBar.Rect,
      bar = Some rect -> 0 < TimelineBar.width rect) ->
  let year := TimelineBar.getYearFromClientX bar clientX in
  let st' := TimelineBar.handlePointerMove bar (Some h) clientX st in
  match h with
  | TimelineBar.contribution =>
      TimelineBar.contributionYears st' = year
      /\ TimelineBar.withdrawalStartYear st' = TimelineBar.withdrawalStartYear st
      /\ TimelineBar.withdrawalYears st' = TimelineBar.withdrawalYears st
  | TimelineBar.withdrawalStart =>
      TimelineBar.contributionYears st' = TimelineBar.contributionYears st
      /\ TimelineBar.withdrawalStartYear st' = Z.min 65 year
      /\ TimelineBar.withdrawalYears st' = TimelineBar.withdrawalYears st
  | TimelineBar.withdrawalEnd =>
      TimelineBar.contributionYears st' = TimelineBar.contributionYears st
      /\ TimelineBar.withdrawalStartYear st' = TimelineBar.withdrawalStartYear st
      /\ TimelineBar.withdrawalYears st'
         = Z.max 5 (year - TimelineBar.withdrawalStartYear st)
  end
  /\ ((0 <= TimelineBar.contributionYears st <= 70)%Z ->
      (0 <= TimelineBar.withdrawalStartYear st <= 65)%Z ->
      (5 <= TimelineBar.withdrawalYears st <= 70)%Z ->
      (0 <= TimelineBar.contributionYears st' <= 70)%Z
      /\ (0 <= TimelineBar.withdrawalStartYear st' <= 65)%Z
      /\ (5 <= TimelineBar.withdrawalYears st' <= 70)%Z).
Proof.
  intros _ year st'.
  pose proof (getYearFromClientX_range bar clientX) as Hy.
  fold year in Hy. unfold TimelineBar.displayMax in Hy.
  subst st'. unfold TimelineBar.handlePointerMove. fold year.
  unfold TimelineBar.displayMax.
  destruct h; cbn [TimelineBar.contributionYears
                     TimelineBar.withdrawalStartYear
                     TimelineBar.withdrawalYears]; lia.
Qed.

(** X19.  The handle taken by a press on the bar is one of the three
    handles, and none of the three is closer to the pointer's year. *)
Theorem X19_closest_handle (st : TimelineBar.Years) (year : Z) :
  In (TimelineBar.closestHandle st year) (TimelineBar.handles st)
  /\ forall h : TimelineBar.DragHandle * Z,
       In h (TimelineBar.handles st) ->
       (Z.abs (year - snd (TimelineBar.closestHandle st year))
        <= Z.abs (year - snd h))%Z.
Proof.
  unfold TimelineBar.closestHandle, TimelineBar.handles.
  cbn [fold_left snd].
  rewrite Z.ltb_irrefl. cbn [snd].
  destruct (Z.abs (year - TimelineBar.withdrawalStartYear st)
            <? Z.abs (year - TimelineBar.contributionYears st))%Z eqn:E1;
    cbn [snd];
    match goal with
    | |- context [(?a <? ?b)%Z] => destruct (a <? b)%Z eqn:E2
    end;
    rewrite ?Z.ltb_lt, ?Z.ltb_ge in E1, E2;
    (split;
     [cbn [In]; auto
     |intros h [<-|[<-|[<-|[]]]]; cbn [snd]; lia]).
Qed.

Lemma X18_drag_results_witness :
  let bar := Some {| TimelineBar.left := 100; TimelineBar.width := 700 |} in
  let st := {| TimelineBar.contributionYears := 30;
               TimelineBar.withdrawalStartYear := 30;
               TimelineBar.withdrawalYears := 30 |} in
  let st' := TimelineBar.handlePointerMove
               bar (Some TimelineBar.withdrawalEnd) 400 st in
  (forall rect : TimelineBar.Rect,
      bar = Some rect -> 0 < TimelineBar.width rect)
  /\ (0 <= TimelineBar.contributionYears st' <= 70)%Z
  /\ (0 <= TimelineBar.withdrawalStartYear st' <= 65)%Z
  /\ (5 <= TimelineBar.withdrawalYears st' <= 70)%Z.
Proof.
  intros bar st st'.
  assert (Hbar : forall rect : TimelineBar.Rect,
             bar = Some rect -> 0 < TimelineBar.width rect).
  { intros rect E. injection E as <-. cbn. lra. }
  split; [exact Hbar|].
  apply (proj2 (X18_drag_results bar TimelineBar.withdrawalEnd 400 st Hbar));
    cbn; lia.
Defined.

(** * The histogram of the simulator view *)

Lemma bins_totalCount (d : list DistributionBin) :
  totalCount (HistogramView.bins d) = totalCount d.
Proof.
  unfold HistogramView.bins, totalCount.
  induction d as [|b d IH]; [reflexivity|].
  cbn [filter map]. destruct (Nat.ltb_spec 0 (count b)) as [H|H].
  - cbn [map]. unfold list_sum in *. cbn [fold_right]. rewrite IH. reflexivity.
  - unfold list_sum in *. cbn [fold_right]. rewrite IH. lia.
Qed.

Lemma bins_counts_positive (d : list DistributionBin) :
  Forall (fun b => (1 <= count b)%nat) (HistogramView.bins d).
Proof.
  apply Forall_forall. intros b Hb.
  apply filter_In in Hb. destruct Hb as [_ Hb].
  apply Nat.ltb_lt in Hb. lia.
Qed.

Lemma bins_length (d : list DistributionBin) :
  (length (HistogramView.bins d) <= length d)%nat.
Proof.
  unfold HistogramView.bins. induction d as [|b d IH]; [cbn; lia|].
  cbn [filter]. destruct (0 <? count b)%nat; cbn [length]; lia.
Qed.

Lemma fold_max_bounds (l : list nat) :
  forall m0 : nat,
    (m0 <= fold_left Nat.max l m0)%nat
    /\ Forall (fun c => (c <= fold_left Nat.max l m0)%nat) l
    /\ (list_sum l <= length l * fold_left Nat.max l m0)%nat.
Proof.
  induction l as [|c l IH]; intros m0.
  - cbn. split; [lia|]. split; [constructor | lia].
  - cbn [fold_left length].
    destruct (IH (Nat.max m0 c)) as (A & B & C).
    split; [lia|]. split.
    + constructor; [lia | exact B].
    + unfold list_sum in *. cbn [fold_right]. lia.
Qed.

Lemma maxCount_bounds (bs : list DistributionBin) :
  bs <> [] ->
  exists m : nat,
    HistogramView.maxCount bs = Some m
    /\ Forall (fun b => (count b <= m)%nat) bs
    /\ (totalCount bs <= length bs * m)%nat.
Proof.
  destruct bs as [|b rest]; [congruence|]. intros _.
  eexists. split; [reflexivity|].
  destruct (fold_max_bounds (map count rest) (count b)) as (A & B & C).
  split.
  - constructor; [exact A|].
    apply Forall_forall. intros x Hx. rewrite Forall_forall in B.
    apply B, in_map, Hx.
  - unfold totalCount. cbn [map length].
    rewrite length_map in C.
    unfold list_sum in *. cbn [fold_right]. lia.
Qed.

Lemma searchActive_range (bs : list DistributionBin) (selectedVal : R) :
  forall (prev : option DistributionBin) (idx : Z),
    HistogramView.searchActive bs prev idx selectedVal = (-1)%Z
    \/ (idx <= HistogramView.searchActive bs prev idx selectedVal
        < idx + Z.of_nat (length bs))%Z.
Proof.
  induction bs as [|b rest IH]; intros prev idx.
  - left. reflexivity.
  - cbn [HistogramView.searchActive length].
    destruct (isDepleted b && Rleb selectedVal 0); [right; lia|].
    destruct (negb (isDepleted b) && _); [right; lia|].
    destruct (IH (Some b) (idx + 1)%Z) as [E|E]; [left; exact E | right; lia].
Qed.

Lemma activeBinIdx_range (bs : list DistributionBin) (selectedVal : R) :
  bs <> [] ->
  (0 <= HistogramView.activeBinIdx bs selectedVal < Z.of_nat (length bs))%Z.
Proof.
  intros Hne. unfold HistogramView.activeBinIdx. cbv zeta.
  assert (Hlen : (0 < length bs)%nat)
    by (destruct bs; [congruence | cbn; lia]).
  destruct (searchActive_range bs selectedVal None 0%Z) as [E|E].
  - rewrite E. cbn [Z.eqb Pos.eqb andb].
    destruct (Nat.ltb_spec 0 (length bs)); lia.
  - destruct (Z.eqb_spec (HistogramView.searchActive bs None 0 selectedVal)
                         (-1)%Z) as [E'|_]; [lia|].
    cbn [andb]. lia.
Qed.

Lemma buildDistribution_length (sorted : list R) :
  (length (buildDistribution sorted) <= 16)%nat.
Proof.
  unfold buildDistribution.
  set (dc := countIf (fun x => Rleb x 0) sorted).
  assert (Hd : (length (if (0 <? dc)%nat
                        then [ {| rangeEnd := 0; count := dc;
                                  isDepleted := true |} ]
                        else []) <= 1)%nat)
    by (destruct (0 <? dc)%nat; cbn; lia).
  destruct (Rltb 0 (cell sorted (NUM_SIMULATIONS - 1))).
  - rewrite length_app, length_map, length_seq.
    unfold NUM_MAIN_BINS, MAX_TAIL_BINS in *. lia.
  - lia.
Qed.

(** What the view shows of any histogram of 5000 paths in at most 16 bins. *)
Lemma displayed_histogram (d : list DistributionBin) (selectedVal : R) :
  totalCount d = NUM_SIMULATIONS ->
  (length d <= 16)%nat ->
  let bins := HistogramView.bins d in
  bins <> []
  /\ totalCount bins = NUM_SIMULATIONS
  /\ (exists m : nat,
         HistogramView.maxCount bins = Some m
         /\ (313 <= m <= NUM_SIMULATIONS)%nat
         /\ Forall (fun b => (1 <= count b <= m)%nat) bins)
  /\ Forall (fun b =>
               0 < HistogramView.barWidth (HistogramView.maxCount bins) b <= 100
               /\ 0 < HistogramView.pct b <= 100
               /\ HistogramView.pctLabel b <> HistogramView.zeroPercent)
            bins
  /\ (0 <= HistogramView.activeBinIdx bins selectedVal
      < Z.of_nat (length bins))%Z.
Proof.
  intros Htot Hlen bins.
  assert (Tb : totalCount bins = NUM_SIMULATIONS)
    by (unfold bins; rewrite bins_totalCount; exact Htot).
  assert (Hne : bins <> []).
  { intros E. rewrite E in Tb. discriminate Tb. }
  pose proof (bins_counts_positive d) as Hpos. fold bins in Hpos.
  pose proof (bins_length d) as Hbl. fold bins in Hbl.
  destruct (maxCount_bounds bins Hne) as (m & Em & Hle & Hsum).
  assert (Hm : (313 <= m <= NUM_SIMULATIONS)%nat).
  { rewrite Tb in Hsum. unfold NUM_SIMULATIONS in *. split; [nia|].
    destruct bins as [|b rest]; [congruence|].
    cbn [HistogramView.maxCount] in Em. injection Em as Em.
    assert (Hin : forall l m0,
               fold_left Nat.max l m0 = m0 \/ In (fold_left Nat.max l m0) l).
    { induction l as [|c l IH]; intros m0; [left; reflexivity|].
      cbn [fold_left]. destruct (IH (Nat.max m0 c)) as [E|E].
      - rewrite E. destruct (Nat.max_spec m0 c) as [[_ ->]|[_ ->]];
          [right; left; reflexivity | left; reflexivity].
      - right. right. exact E. }
    assert (Hone : forall (l : list nat) (c : nat),
               In c l -> (c <= list_sum l)%nat).
    { induction l as [|a l IH]; intros c Hc; [destruct Hc|].
      unfold list_sum in *. cbn [fold_right].
      destruct Hc as [->|Hc]; [lia|].
      specialize (IH c Hc). lia. }
    unfold totalCount in Tb. cbn [map] in Tb.
    assert (Hm : In m (count b :: map count rest)).
    { destruct (Hin (map count rest) (count b)) as [E|E];
        rewrite Em in E; [left; symmetry; exact E | right; exact E]. }
    apply Hone in Hm. lia. }
  split; [exact Hne|]. split; [exact Tb|]. split; [|split].
  - exists m. split; [exact Em|]. split; [exact Hm|].
    apply Forall_forall. intros b Hb.
    rewrite Forall_forall in Hpos, Hle.
    split; [apply Hpos, Hb | apply Hle, Hb].
  - apply Forall_forall. intros b Hb.
    rewrite Forall_forall in Hpos, Hle.
    specialize (Hpos b Hb). specialize (Hle b Hb).
    assert (Hc : 1 <= INR (count b)) by (apply (le_INR 1), Hpos).
    assert (Hcm : INR (count b) <= INR m) by (apply le_INR, Hle).
    assert (Hm5 : INR m <= 5000).
    { replace 5000 with (INR NUM_SIMULATIONS)
        by (unfold NUM_SIMULATIONS; rewrite INR_IZR_INZ; reflexivity).
      apply le_INR, Hm. }
    assert (Hmpos : 0 < INR m) by lra.
    split; [|split].
    + rewrite Em. unfold HistogramView.barWidth.
      destruct (Nat.ltb_spec 0 m) as [_|H0]; [|lia].
      assert (Hq : 0 < INR (count b) / INR m <= 1).
      { split.
        - apply Rdiv_lt_0_compat; lra.
        - apply (Rmult_le_reg_r (INR m)); [exact Hmpos|].
          unfold Rdiv. rewrite Rmult_assoc, Rinv_l by lra. lra. }
      lra.
    + unfold HistogramView.pct. lra.
    + unfold HistogramView.pctLabel.
      destruct (Rleb 1 (HistogramView.pct b)); [discriminate|].
      destruct (Rltb 0 (HistogramView.pct b)) eqn:E; [discriminate|].
      apply Rltb_false in E. exfalso. apply E.
      unfold HistogramView.pct. lra.
  - apply activeBinIdx_range, Hne.
Qed.

(** X20.  What the view shows of the histogram of any simulation.  The bins
    it keeps (those with a positive count) are never none and hold all 5000
    paths between them; the largest count is at least 313 and every count
    lies between 1 and it, so every bar is drawn with a width above 0 and at
    most 100 percent, every share is above 0 and at most 100 percent, and
    the label "0%" is never shown; and whatever the selected value is,
    exactly one of the shown bins is highlighted. *)
Theorem X20_displayed_histogram (cfg : MonteCarloInput) (selectedVal : R) :
  let bins := HistogramView.bins (distribution (simulateMonteCarlo cfg)) in
  bins <> []
  /\ totalCount bins = NUM_SIMULATIONS
  /\ (exists m : nat,
         HistogramView.maxCount bins = Some m
         /\ (313 <= m <= NUM_SIMULATIONS)%nat
         /\ Forall (fun b => (1 <= count b <= m)%nat) bins)
  /\ Forall (fun b =>
               0 < HistogramView.barWidth (HistogramView.maxCount bins) b <= 100
               /\ 0 < HistogramView.pct b <= 100
               /\ HistogramView.pctLabel b <> HistogramView.zeroPercent)
            bins
  /\ (0 <= HistogramView.activeBinIdx bins selectedVal
      < Z.of_nat (length bins))%Z.
Proof.
  cbn [distribution simulateMonteCarlo]. fold (finalState cfg).
  destruct (runYears_sorted cfg (totalYears cfg)) as [Hlen Hasc].
  fold (finalState cfg) in Hlen, Hasc.
  apply displayed_histogram.
  - apply buildDistribution_total; assumption.
  - apply buildDistribution_length.
Qed.
